(** * jack_mixer: the non-sleeping memory allocator (memory_atomic.c)

    A shallow embedding of the chunk pool ([rtsafe_memory_pool_*]) and of the
    tiered allocator built on it ([rtsafe_memory_*]), followed by the
    properties of the specification that were checked against it.

    Conventions of the embedding.
    - Pointers are (block, byte offset) pairs; [NULL] is [None].
    - The C library heap is a counter of [malloc] calls, the set of live
      blocks and the set of initialised mutexes.  Whether the n-th call of
      [malloc] succeeds, and whether [pthread_mutex_init] succeeds on a
      block, is decided by two oracles, so that every theorem holds for
      every behaviour of the system allocator.
    - [unsigned int] counters are integers reduced modulo 2^32, [size_t]
      values modulo 2^64 (LP64).
    - [assert] is enabled: a failing assertion aborts ([Abort]).
    - Loops whose termination depends on the oracle take fuel and yield
      [Timeout] when it runs out; the other loops are structural.
    - The outcome of [pthread_mutex_trylock] is an argument ([true]: the lock
      was acquired), since it depends on the maintenance thread. *)

From Stdlib Require Import ZArith List Bool Lia.
From stdpp Require Import base tactics gmap sets list.

Local Open Scope Z_scope.

#[local] Set Warnings "-clear-no-such-hyp".

(** ** Machine integers *)

Definition wrap32 (z : Z) : Z := z mod 2 ^ 32.
Definition wrap64 (z : Z) : Z := z mod 2 ^ 64.

(** ** Pointers *)

Record ptr : Type := mkptr { blk : nat; ofs : Z }.

#[global] Instance ptr_eq_dec : EqDecision ptr.
Proof. solve_decision. Defined.

(** Modelled from the spec: list.h is not part of the sources.  A chunk
    starts with its list-node header ([struct list_head], two pointers: 16
    bytes on LP64) and the data region follows it immediately. *)
Definition sizeof_list_head : Z := 16.

(** Modelled from the spec: memory_atomic.h is not part of the sources.
    [rtsafe_memory_pool_handle] is an opaque pointer (8 bytes on LP64). *)
Definition sizeof_pool_handle : Z := 8.

(** [node_ptr + 1] for a [struct list_head *]. *)
Definition node_data (n : ptr) : ptr := mkptr (blk n) (ofs n + sizeof_list_head).

(** [(struct list_head * )data - 1]. *)
Definition data_node (d : ptr) : ptr := mkptr (blk d) (ofs d - sizeof_list_head).

(** ** Intrusive lists *)

(** Modelled from the spec: list.h is not part of the sources.  A list head
    is represented by the sequence of the nodes linked from it, [head.next]
    first.  [list_add_tail] links a node before the head, [list_del] of
    [head.next] drops the first node (written as a pattern match where it is
    used). *)
Definition list_empty (l : list ptr) : bool :=
  match l with [] => true | _ :: _ => false end.

Definition list_add_tail (n : ptr) (l : list ptr) : list ptr := l ++ [n].

(** ** The C library heap *)

Record heap : Type := mkheap {
  calls : nat;            (* number of malloc calls made so far *)
  live : gset nat;        (* blocks allocated and not freed *)
  mutexes : gset nat      (* blocks holding an initialised mutex *)
}.

Definition empty_heap : heap := mkheap 0 ∅ ∅.

Definition free (p : ptr) (h : heap) : heap :=
  mkheap (calls h) (live h ∖ {[blk p]}) (mutexes h).

Definition mutex_init (b : nat) (h : heap) : heap :=
  mkheap (calls h) (live h) ({[b]} ∪ mutexes h).

Definition mutex_destroy (b : nat) (h : heap) : heap :=
  mkheap (calls h) (live h) (mutexes h ∖ {[b]}).

(** ** Outcomes *)

Inductive result (A : Type) : Type :=
| Done (a : A)     (* the call returned *)
| Abort            (* an assertion failed *)
| Timeout.         (* the fuel ran out before the call returned *)

Arguments Done {A} a.
Arguments Abort {A}.
Arguments Timeout {A}.

#[global] Instance result_ret : MRet result := fun A a => Done a.

#[global] Instance result_bind : MBind result := fun A B k r =>
  match r with
  | Done a => k a
  | Abort => Abort
  | Timeout => Timeout
  end.

(** ** struct rtsafe_memory_pool *)

Record rtsafe_memory_pool : Type := mkpool {
  pool_blk : nat;                 (* the block that holds the struct *)
  data_size : Z;
  min_preallocated : Z;
  max_preallocated : Z;
  used_count : Z;
  unused : list ptr;
  unused_count : Z;
  enforce_thread_safety : bool;
  unused_count2 : Z;
  pending : list ptr
}.

Definition set_used_count (v : Z) (p : rtsafe_memory_pool) :=
  mkpool (pool_blk p) (data_size p) (min_preallocated p) (max_preallocated p)
         v (unused p) (unused_count p) (enforce_thread_safety p)
         (unused_count2 p) (pending p).

Definition set_unused (l : list ptr) (c : Z) (p : rtsafe_memory_pool) :=
  mkpool (pool_blk p) (data_size p) (min_preallocated p) (max_preallocated p)
         (used_count p) l c (enforce_thread_safety p)
         (unused_count2 p) (pending p).

Definition set_unused_count2 (v : Z) (p : rtsafe_memory_pool) :=
  mkpool (pool_blk p) (data_size p) (min_preallocated p) (max_preallocated p)
         (used_count p) (unused p) (unused_count p) (enforce_thread_safety p)
         v (pending p).

Definition set_pending (l : list ptr) (p : rtsafe_memory_pool) :=
  mkpool (pool_blk p) (data_size p) (min_preallocated p) (max_preallocated p)
         (used_count p) (unused p) (unused_count p) (enforce_thread_safety p)
         (unused_count2 p) l.

Section Pool.

(** The system allocator: [malloc_ok n] tells whether the call of [malloc]
    number [n] succeeds, [mutex_ok b] whether [pthread_mutex_init] succeeds
    for the pool held in block [b]. *)
Variable malloc_ok : nat -> bool.
Variable mutex_ok : nat -> bool.

Definition malloc (h : heap) : option ptr * heap :=
  let b := calls h in
  if malloc_ok b
  then (Some (mkptr b 0), mkheap (S b) ({[b]} ∪ live h) (mutexes h))
  else (None, mkheap (S b) (live h) (mutexes h)).

(** *** rtsafe_memory_pool_sleepy *)

(** Thread-safe branch, first loop:
    [while (count < min_preallocated) { malloc; break on NULL;
       list_add_tail(node, &pending); count++; }] *)
Fixpoint grow_pending (fuel : nat) (min count : Z) (pend : list ptr) (h : heap)
  : result (Z * list ptr * heap) :=
  if count <? min then
    match fuel with
    | O => Timeout
    | S f =>
        match malloc h with
        | (None, h') => Done (count, pend, h')
        | (Some n, h') =>
            grow_pending f min (wrap32 (count + 1)) (list_add_tail n pend) h'
        end
    end
  else Done (count, pend, h).

(** Thread-safe branch, second loop:
    [while (count > max_preallocated && !list_empty(&pending))
       { node = pending.next; list_del(node); free(node); count--; }] *)
Fixpoint shrink_pending (max count : Z) (pend : list ptr) (h : heap)
  : Z * list ptr * heap :=
  match pend with
  | [] => (count, [], h)
  | n :: rest =>
      if count >? max
      then shrink_pending max (wrap32 (count - 1)) rest (free n h)
      else (count, pend, h)
  end.

(** Other branch, first loop:
    [while (unused_count < min_preallocated) { malloc; return on NULL;
       list_add_tail(node, &unused); unused_count++; }]
    The boolean is [false] when the function returned from inside the loop. *)
Fixpoint grow_unused (fuel : nat) (min uc : Z) (un : list ptr) (h : heap)
  : result (bool * Z * list ptr * heap) :=
  if uc <? min then
    match fuel with
    | O => Timeout
    | S f =>
        match malloc h with
        | (None, h') => Done (false, uc, un, h')
        | (Some n, h') =>
            grow_unused f min (wrap32 (uc + 1)) (list_add_tail n un) h'
        end
    end
  else Done (true, uc, un, h).

(** Other branch, second loop:
    [while (unused_count > max_preallocated) { assert(!list_empty(&unused));
       node = unused.next; list_del(node); unused_count--; free(node); }] *)
Fixpoint shrink_unused (max uc : Z) (un : list ptr) (h : heap) {struct un}
  : result (Z * list ptr * heap) :=
  if uc >? max then
    match un with
    | [] => Abort
    | n :: rest => shrink_unused max (wrap32 (uc - 1)) rest (free n h)
    end
  else Done (uc, un, h).

Definition rtsafe_memory_pool_sleepy (fuel : nat) (p : rtsafe_memory_pool) (h : heap)
  : result (rtsafe_memory_pool * heap) :=
  if enforce_thread_safety p then
    (* pthread_mutex_lock *)
    let count := unused_count2 p in
    if negb (min_preallocated p <? max_preallocated p) then Abort else
    '(count1, pend1, h1) ← grow_pending fuel (min_preallocated p) count (pending p) h ;
    let '(_, pend2, h2) := shrink_pending (max_preallocated p) count1 pend1 h1 in
    (* pthread_mutex_unlock *)
    Done (set_pending pend2 p, h2)
  else
    match grow_unused fuel (min_preallocated p) (unused_count p) (unused p) h with
    | Done (true, uc1, un1, h1) =>
        '(uc2, un2, h2) ← shrink_unused (max_preallocated p) uc1 un1 h1 ;
        Done (set_unused un2 uc2 p, h2)
    | Done (false, uc1, un1, h1) => Done (set_unused un1 uc1 p, h1)
    | Abort => Abort
    | Timeout => Timeout
    end.

(** *** rtsafe_memory_pool_create *)

Definition rtsafe_memory_pool_create
    (fuel : nat) (data_size min_preallocated max_preallocated : Z)
    (enforce_thread_safety : bool) (h : heap)
  : result (option rtsafe_memory_pool * heap) :=
  if negb (min_preallocated <=? max_preallocated) then Abort else
  match malloc h with
  | (None, h1) => Done (None, h1)
  | (Some pool_ptr, h1) =>
      let p := mkpool (blk pool_ptr) data_size min_preallocated max_preallocated
                      0 [] 0 enforce_thread_safety 0 [] in
      if enforce_thread_safety then
        if mutex_ok (blk pool_ptr) then
          '(p', h2) ← rtsafe_memory_pool_sleepy fuel p (mutex_init (blk pool_ptr) h1) ;
          Done (Some p', h2)
        else Done (None, free pool_ptr h1)
      else
        '(p', h2) ← rtsafe_memory_pool_sleepy fuel p h1 ;
        Done (Some p', h2)
  end.

(** *** rtsafe_memory_pool_allocate *)

(** The loop run under the mutex:
    [while (unused_count < min_preallocated && !list_empty(&pending))
       { node_ptr = pending.next; list_del(node_ptr);
         list_add_tail(node_ptr, &unused); unused_count++; }]
    It assigns the local variable [node_ptr] of the function, whose value is
    therefore threaded through the loop. *)
Fixpoint refill_unused (min : Z) (node_ptr : ptr) (uc : Z) (un pend : list ptr)
  : ptr * Z * list ptr * list ptr :=
  match pend with
  | [] => (node_ptr, uc, un, [])
  | n :: rest =>
      if uc <? min
      then refill_unused min n (wrap32 (uc + 1)) (list_add_tail n un) rest
      else (node_ptr, uc, un, pend)
  end.

Definition rtsafe_memory_pool_allocate (trylock_ok : bool) (p : rtsafe_memory_pool)
  : option ptr * rtsafe_memory_pool :=
  match unused p with
  | [] => (None, p)
  | node_ptr :: rest =>
      let p1 := set_used_count (wrap32 (used_count p + 1))
                  (set_unused rest (wrap32 (unused_count p - 1)) p) in
      if enforce_thread_safety p1 && trylock_ok then
        let '(node_ptr', uc, un, pend) :=
          refill_unused (min_preallocated p1) node_ptr
                        (unused_count p1) (unused p1) (pending p1) in
        let p2 := set_pending pend (set_unused un uc p1) in
        (Some (node_data node_ptr'), set_unused_count2 (unused_count p2) p2)
      else (Some (node_data node_ptr), p1)
  end.

(** *** rtsafe_memory_pool_deallocate *)

(** The loop run under the mutex:
    [while (unused_count > max_preallocated) { assert(!list_empty(&unused));
       node = unused.next; list_del(node); list_add_tail(node, &pending);
       unused_count--; }] *)
Fixpoint trim_unused (max uc : Z) (un pend : list ptr) {struct un}
  : result (Z * list ptr * list ptr) :=
  if uc >? max then
    match un with
    | [] => Abort
    | n :: rest => trim_unused max (wrap32 (uc - 1)) rest (list_add_tail n pend)
    end
  else Done (uc, un, pend).

Definition rtsafe_memory_pool_deallocate
    (trylock_ok : bool) (p : rtsafe_memory_pool) (data : ptr)
  : result rtsafe_memory_pool :=
  let p1 := set_used_count (wrap32 (used_count p - 1))
              (set_unused (list_add_tail (data_node data) (unused p))
                          (wrap32 (unused_count p + 1)) p) in
  if enforce_thread_safety p1 && trylock_ok then
    '(uc, un, pend) ← trim_unused (max_preallocated p1) (unused_count p1)
                                  (unused p1) (pending p1) ;
    let p2 := set_pending pend (set_unused un uc p1) in
    Done (set_unused_count2 (unused_count p2) p2)
  else Done p1.

(** *** rtsafe_memory_pool_allocate_sleepy *)

(** [do { sleepy(pool); data = allocate(pool); } while (data == NULL);]
    [rounds] bounds the number of iterations, [fuel] is handed to every call
    of the maintenance pass, [trylock_ok r] is the outcome of the trylock in
    the iteration that has [r] rounds left. *)
Fixpoint rtsafe_memory_pool_allocate_sleepy
    (rounds fuel : nat) (trylock_ok : nat -> bool)
    (p : rtsafe_memory_pool) (h : heap)
  : result (ptr * rtsafe_memory_pool * heap) :=
  match rounds with
  | O => Timeout
  | S r =>
      '(p1, h1) ← rtsafe_memory_pool_sleepy fuel p h ;
      match rtsafe_memory_pool_allocate (trylock_ok r) p1 with
      | (Some data, p2) => Done (data, p2, h1)
      | (None, p2) => rtsafe_memory_pool_allocate_sleepy r fuel trylock_ok p2 h1
      end
  end.

(** *** rtsafe_memory_pool_destroy *)

(** [while (unused_count != 0) { assert(!list_empty(&unused));
       node = unused.next; list_del(node); unused_count--; free(node); }] *)
Fixpoint free_unused (uc : Z) (un : list ptr) (h : heap) {struct un}
  : result (list ptr * heap) :=
  if uc =? 0 then Done (un, h)
  else
    match un with
    | [] => Abort
    | n :: rest => free_unused (wrap32 (uc - 1)) rest (free n h)
    end.

(** [while (!list_empty(&pending)) { node = pending.next; list_del(node);
       free(node); }] *)
Fixpoint free_pending (pend : list ptr) (h : heap) : heap :=
  match pend with
  | [] => h
  | n :: rest => free_pending rest (free n h)
  end.

Definition rtsafe_memory_pool_destroy (p : rtsafe_memory_pool) (h : heap)
  : result heap :=
  if negb (used_count p =? 0) then Abort else
  '(un, h1) ← free_unused (unused_count p) (unused p) h ;
  if negb (list_empty un) then Abort else
  let h2 := if enforce_thread_safety p
            then mutex_destroy (pool_blk p) (free_pending (pending p) h1)
            else h1 in
  Done (free (mkptr (pool_blk p) 0) h2).

(** ** The tiered allocator *)

Definition DATA_MIN : Z := 1024.
Definition DATA_SUB : Z := 100.

(** [struct rtsafe_memory_pool_generic]; the pool is kept by value next to
    its size, its handle is the block of the pool. *)
Record rtsafe_memory_pool_generic : Type := mkgeneric {
  pg_size : Z;
  pg_pool : rtsafe_memory_pool
}.

Record rtsafe_memory : Type := mkmemory {
  memory_blk : nat;               (* the block that holds the struct *)
  pools_blk : nat;                (* the block that holds the array *)
  pools : list rtsafe_memory_pool_generic;
  pools_count : Z
}.

(** [while ((size << pools_count) < max_size + DATA_SUB)
      { pools_count++;
        if (pools_count > sizeof(size_t) * 8) { assert(0); goto fail_free; } }]
    with [size = DATA_MIN].  Both sides are [size_t].  (The shift by 64 that
    the loop evaluates when [pools_count] reaches 64 is taken to give 0.) *)
Fixpoint count_pools (fuel : nat) (max_size pools_count : Z) : result Z :=
  if wrap64 (Z.shiftl DATA_MIN pools_count) <? wrap64 (max_size + DATA_SUB) then
    match fuel with
    | O => Timeout
    | S f =>
        let pools_count := pools_count + 1 in
        if pools_count >? 64 then Abort
        else count_pools f max_size pools_count
    end
  else Done pools_count.

(** [while (i > 0) { i--; rtsafe_memory_pool_destroy(pools[i].pool); }]:
    the pools are given last created first. *)
Fixpoint destroy_pools (ps : list rtsafe_memory_pool_generic) (h : heap)
  : result heap :=
  match ps with
  | [] => Done h
  | pg :: rest =>
      h1 ← rtsafe_memory_pool_destroy (pg_pool pg) h ;
      destroy_pools rest h1
  end.

(** The [for] loop of [rtsafe_memory_init]; [n] classes remain to be
    created, [built] are the entries written so far.  [None] is the jump to
    [fail_free_pools]. *)
Fixpoint create_pools (fuel n : nat) (size : Z)
    (built : list rtsafe_memory_pool_generic)
    (prealloc_min prealloc_max : Z) (enforce_thread_safety : bool) (h : heap)
  : result (option (list rtsafe_memory_pool_generic) * heap) :=
  match n with
  | O => Done (Some built, h)
  | S n' =>
      let pool_size := wrap64 (size - DATA_SUB) in
      '(created, h1) ← rtsafe_memory_pool_create fuel pool_size prealloc_min
                          prealloc_max enforce_thread_safety h ;
      match created with
      | None =>
          h2 ← destroy_pools (rev built) h1 ;
          Done (None, h2)
      | Some p =>
          create_pools fuel n' (wrap64 (Z.shiftl size 1))
                       (built ++ [mkgeneric pool_size p])
                       prealloc_min prealloc_max enforce_thread_safety h1
      end
  end.

(** The way [rtsafe_memory_init] leaves: with a handle, or through one of
    its three failure labels.  The C function returns [true] in the first
    case and [false] in the others, and writes the handle only in the
    first. *)
Inductive init_exit : Type :=
| Init_ok (m : rtsafe_memory)
| Init_fail
| Init_fail_free
| Init_fail_free_pools.

Definition init_returns (e : init_exit) : bool :=
  match e with Init_ok _ => true | _ => false end.

Definition init_handle (e : init_exit) : option rtsafe_memory :=
  match e with Init_ok m => Some m | _ => None end.

Definition rtsafe_memory_init
    (fuel : nat) (max_size prealloc_min prealloc_max : Z)
    (enforce_thread_safety : bool) (h : heap)
  : result (init_exit * heap) :=
  match malloc h with
  | (None, h1) => Done (Init_fail, h1)
  | (Some memory_ptr, h1) =>
      pools_count ← count_pools 64 max_size 1 ;
      match malloc h1 with
      | (None, h2) => Done (Init_fail_free, free memory_ptr h2)
      | (Some pools_ptr, h2) =>
          '(built, h3) ← create_pools fuel (Z.to_nat pools_count) DATA_MIN []
                            prealloc_min prealloc_max enforce_thread_safety h2 ;
          match built with
          | None =>
              Done (Init_fail_free_pools, free memory_ptr (free pools_ptr h3))
          | Some ps =>
              Done (Init_ok (mkmemory (blk memory_ptr) (blk pools_ptr)
                                      ps pools_count), h3)
          end
      end
  end.

(** *** rtsafe_memory_allocate *)

(** What the call logs and stores besides returning. *)
Inductive event : Type :=
| Debug_using_chunk (size : Z)        (* LOG_DEBUG("Using chunk with size %u.", (unsigned int)...) *)
| Debug_pool_allocate_failed          (* LOG_DEBUG("rtsafe_memory_pool_allocate() failed.") *)
| Store_handle (at_ : ptr) (pool : nat) (* *data_ptr = pools[i].pool *)
| Warning_too_big.                    (* LOG_WARNING("Data size is too big") *)

(** The [for] loop over the table, [size] already including the header.
    The debug line prints the class size cast to [unsigned int]. *)
Fixpoint allocate_scan (trylock_ok : bool) (size : Z)
    (ps : list rtsafe_memory_pool_generic)
  : option ptr * list event * list rtsafe_memory_pool_generic :=
  match ps with
  | [] => (None, [Warning_too_big], [])
  | pg :: rest =>
      if size <=? pg_size pg then
        match rtsafe_memory_pool_allocate trylock_ok (pg_pool pg) with
        | (None, p') =>
            (None,
             [Debug_using_chunk (wrap32 (pg_size pg)); Debug_pool_allocate_failed],
             mkgeneric (pg_size pg) p' :: rest)
        | (Some data_ptr, p') =>
            (Some (mkptr (blk data_ptr) (ofs data_ptr + sizeof_pool_handle)),
             [Debug_using_chunk (wrap32 (pg_size pg));
              Store_handle data_ptr (pool_blk p')],
             mkgeneric (pg_size pg) p' :: rest)
        end
      else
        let '(r, ev, rest') := allocate_scan trylock_ok size rest in
        (r, ev, pg :: rest')
  end.

Definition rtsafe_memory_allocate (trylock_ok : bool) (m : rtsafe_memory) (size : Z)
  : option ptr * list event * rtsafe_memory :=
  let size := wrap64 (size + sizeof_pool_handle) in
  let '(r, ev, ps) := allocate_scan trylock_ok size (pools m) in
  (r, ev, mkmemory (memory_blk m) (pools_blk m) ps (pools_count m)).

End Pool.

(** ** Runs of a pool *)

(** A pool in use: the pool, the heap, and the data pointers that allocate
    has returned and that have not been given back yet. *)
Record run_state : Type := mkrun {
  run_pool : rtsafe_memory_pool;
  run_heap : heap;
  run_held : list ptr
}.

(** Giving a pointer back removes it from the pointers held. *)
Fixpoint hand_back (d : ptr) (held : list ptr) : list ptr :=
  match held with
  | [] => []
  | x :: rest => if decide (x = d) then rest else x :: hand_back d rest
  end.

Definition hold (r : option ptr) (held : list ptr) : list ptr :=
  match r with Some d => d :: held | None => held end.

(** The states a pool goes through: it is created, and then any of the
    operations is called, in any order, with any outcome of the trylocks;
    deallocate is called on pointers that allocate returned and that were
    not given back since.  Operations are not interleaved: the pending list
    is only touched under the mutex, and the unused list of a thread-safe
    pool only by the thread that allocates and deallocates. *)
Inductive reachable (malloc_ok mutex_ok : nat -> bool) : run_state -> Prop :=
| reach_create fuel size min max ts h p h' :
    rtsafe_memory_pool_create malloc_ok mutex_ok fuel size min max ts h
      = Done (Some p, h') ->
    reachable malloc_ok mutex_ok (mkrun p h' [])
| reach_allocate s trylock_ok r p' :
    reachable malloc_ok mutex_ok s ->
    rtsafe_memory_pool_allocate trylock_ok (run_pool s) = (r, p') ->
    reachable malloc_ok mutex_ok (mkrun p' (run_heap s) (hold r (run_held s)))
| reach_deallocate s trylock_ok d p' :
    reachable malloc_ok mutex_ok s ->
    In d (run_held s) ->
    rtsafe_memory_pool_deallocate trylock_ok (run_pool s) d = Done p' ->
    reachable malloc_ok mutex_ok (mkrun p' (run_heap s) (hand_back d (run_held s)))
| reach_sleepy s fuel p' h' :
    reachable malloc_ok mutex_ok s ->
    rtsafe_memory_pool_sleepy malloc_ok fuel (run_pool s) (run_heap s)
      = Done (p', h') ->
    reachable malloc_ok mutex_ok (mkrun p' h' (run_held s)).

(** The blocks of a list of nodes. *)
Definition blocks (l : list ptr) : gset nat := list_to_set (blk <$> l).

(** Live blocks, and the blocks that hold a mutex, were handed out by
    malloc. *)
Definition heap_wf (h : heap) : Prop :=
  forall b, b ∈ live h ∪ mutexes h -> (b < calls h)%nat.

(** Nodes that malloc handed out between two heaps, each once. *)
Definition fresh_in (h h' : heap) (new : list ptr) : Prop :=
  NoDup (blk <$> new) /\
  Forall (fun n => (calls h <= blk n < calls h')%nat) new.

(** The blocks that belong to a pool, and its mutex if it has one. *)
Definition pool_blocks (p : rtsafe_memory_pool) : gset nat :=
  {[pool_blk p]} ∪ blocks (unused p) ∪ blocks (pending p).

Definition pool_mutex (p : rtsafe_memory_pool) : gset nat :=
  if enforce_thread_safety p then {[pool_blk p]} else ∅.

Fixpoint all_blocks (ps : list rtsafe_memory_pool_generic) : gset nat :=
  match ps with
  | [] => ∅
  | pg :: rest => pool_blocks (pg_pool pg) ∪ all_blocks rest
  end.

Fixpoint all_mutexes (ps : list rtsafe_memory_pool_generic) : gset nat :=
  match ps with
  | [] => ∅
  | pg :: rest => pool_mutex (pg_pool pg) ∪ all_mutexes rest
  end.

(** A pool none of whose chunks is in use, whose counter of unused chunks
    is exact, and which has pending chunks only if it is thread-safe. *)
Definition idle_pool (p : rtsafe_memory_pool) : Prop :=
  used_count p = 0 /\
  unused_count p = Z.of_nat (length (unused p)) /\
  Z.of_nat (length (unused p)) < 2 ^ 32 /\
  (enforce_thread_safety p = false -> pending p = []).

(** What holds of a pool in use: the chunks in the unused list, in the
    pending list and in the hands of the application are pairwise distinct
    blocks that malloc handed out; a thread-safe pool has nothing unused and
    nothing handed out, and the other pools have nothing pending. *)
Record run_inv (s : run_state) : Prop := mkinv {
  inv_nodup :
    NoDup (blk <$> (unused (run_pool s) ++ pending (run_pool s) ++ run_held s));
  inv_known :
    Forall (fun n => (blk n < calls (run_heap s))%nat)
           (unused (run_pool s) ++ pending (run_pool s) ++ run_held s);
  inv_thread_safe :
    enforce_thread_safety (run_pool s) = true ->
    unused (run_pool s) = [] /\ run_held s = [];
  inv_plain :
    enforce_thread_safety (run_pool s) = false -> pending (run_pool s) = []
}.

(** [k] maintenance passes in a row. *)
Fixpoint sleepy_times (malloc_ok : nat -> bool) (k fuel : nat)
    (p : rtsafe_memory_pool) (h : heap) : result (rtsafe_memory_pool * heap) :=
  match k with
  | O => Done (p, h)
  | S k' =>
      '(p1, h1) ← rtsafe_memory_pool_sleepy malloc_ok fuel p h ;
      sleepy_times malloc_ok k' fuel p1 h1
  end.

(** One call of allocate per trylock outcome, in order. *)
Fixpoint allocate_each (locks : list bool) (p : rtsafe_memory_pool)
  : list (option ptr) * rtsafe_memory_pool :=
  match locks with
  | [] => ([], p)
  | lk :: rest =>
      let '(r, p1) := rtsafe_memory_pool_allocate lk p in
      let '(rs, p2) := allocate_each rest p1 in
      (r :: rs, p2)
  end.

(** ** Inputs used below *)

(** A system allocator that never fails. *)
Definition always (_ : nat) : bool := true.

(** A system allocator whose first [n] calls succeed. *)
Definition first_calls (n : nat) (k : nat) : bool := (k <? n)%nat.

(** A thread-safe pool (min 1, max 2) with the chunk of block 1 in the unused
    list and the chunk of block 2 in the pending list. *)
Definition pool_staged : rtsafe_memory_pool :=
  mkpool 0 924 1 2 0 [mkptr 1 0] 1 true 1 [mkptr 2 0].

(** A pool that is not thread-safe, with two unused chunks. *)
Definition pool_two_unused : rtsafe_memory_pool :=
  mkpool 0 924 2 2 0 [mkptr 1 0; mkptr 2 0] 2 false 0 [].

(** The same pool after the chunk of block 1 was allocated. *)
Definition pool_one_in_use : rtsafe_memory_pool :=
  mkpool 0 924 2 2 1 [mkptr 2 0] 1 false 0 [].

(** ** The other entry points of the tiered allocator *)

(** [rtsafe_memory_uninit]: the pools are destroyed in table order, then the
    table and the struct are freed. *)
Definition rtsafe_memory_uninit (m : rtsafe_memory) (h : heap) : result heap :=
  h1 ← destroy_pools (pools m) h ;
  Done (free (mkptr (memory_blk m) 0) (free (mkptr (pools_blk m) 0) h1)).

(** [rtsafe_memory_sleepy]: the maintenance pass of every pool, in table
    order. *)
Fixpoint sleepy_pools (malloc_ok : nat -> bool) (fuel : nat)
    (ps : list rtsafe_memory_pool_generic) (h : heap)
  : result (list rtsafe_memory_pool_generic * heap) :=
  match ps with
  | [] => Done ([], h)
  | pg :: rest =>
      '(p', h1) ← rtsafe_memory_pool_sleepy malloc_ok fuel (pg_pool pg) h ;
      '(rest', h2) ← sleepy_pools malloc_ok fuel rest h1 ;
      Done (mkgeneric (pg_size pg) p' :: rest', h2)
  end.

Definition rtsafe_memory_sleepy (malloc_ok : nat -> bool) (fuel : nat)
    (m : rtsafe_memory) (h : heap) : result (rtsafe_memory * heap) :=
  '(ps, h') ← sleepy_pools malloc_ok fuel (pools m) h ;
  Done (mkmemory (memory_blk m) (pools_blk m) ps (pools_count m), h').

(** The pool handles that [rtsafe_memory_allocate] wrote in front of the
    user data: the address of the word and the block of the pool, latest
    first. *)
Definition handle_store : Type := list (ptr * nat).

Fixpoint load_handle (st : handle_store) (a : ptr) : option nat :=
  match st with
  | [] => None
  | (a', b) :: rest => if decide (a' = a) then Some b else load_handle rest a
  end.

Fixpoint store_handles (ev : list event) (st : handle_store) : handle_store :=
  match ev with
  | [] => st
  | Store_handle a b :: rest => store_handles rest ((a, b) :: st)
  | _ :: rest => store_handles rest st
  end.

(** [rtsafe_memory_pool_deallocate(handle, data)] for the pool of the table
    whose struct is the block [handle]; [None] when the table has no such
    pool. *)
Fixpoint deallocate_in (trylock_ok : bool) (handle : nat) (data : ptr)
    (ps : list rtsafe_memory_pool_generic)
  : option (result (list rtsafe_memory_pool_generic)) :=
  match ps with
  | [] => None
  | pg :: rest =>
      if decide (pool_blk (pg_pool pg) = handle) then
        Some (p' ← rtsafe_memory_pool_deallocate trylock_ok (pg_pool pg) data ;
              Done (mkgeneric (pg_size pg) p' :: rest))
      else
        match deallocate_in trylock_ok handle data rest with
        | None => None
        | Some r => Some (rest' ← r ; Done (pg :: rest'))
        end
  end.

(** [rtsafe_memory_deallocate]: the handle is read from the word in front of
    the user data and the word is given back to that pool.  [None] stands
    for a pointer that this allocator did not hand out (no handle was stored
    in front of it, or not one of its pools), which the C code does not
    detect. *)
Definition rtsafe_memory_deallocate (trylock_ok : bool) (st : handle_store)
    (m : rtsafe_memory) (data : ptr) : option (result rtsafe_memory) :=
  let word := mkptr (blk data) (ofs data - sizeof_pool_handle) in
  match load_handle st word with
  | None => None
  | Some handle =>
      match deallocate_in trylock_ok handle word (pools m) with
      | None => None
      | Some r =>
          Some (ps ← r ;
                Done (mkmemory (memory_blk m) (pools_blk m) ps (pools_count m)))
      end
  end.

(** The sizes that the loop of [rtsafe_memory_init] gives to [n] classes
    starting from [size]. *)
Fixpoint class_sizes (n : nat) (size : Z) : list Z :=
  match n with
  | O => []
  | S n' => wrap64 (size - DATA_SUB) :: class_sizes n' (wrap64 (Z.shiftl size 1))
  end.

(** The value of [size] when the loop of [rtsafe_memory_init] comes to the
    class of index [i], having started from [size]: one [size = size << 1]
    for each class before it. *)
Fixpoint loop_size (i : nat) (size : Z) : Z :=
  match i with
  | O => size
  | S i' => loop_size i' (wrap64 (Z.shiftl size 1))
  end.

(** ** The life of a pool, from a given heap *)

(** The states of [reachable], with the heap in which the pool was created
    kept as an index. *)
Inductive reachable_from (malloc_ok mutex_ok : nat -> bool) (h0 : heap)
  : run_state -> Prop :=
| from_create fuel size min max ts p h' :
    rtsafe_memory_pool_create malloc_ok mutex_ok fuel size min max ts h0
      = Done (Some p, h') ->
    reachable_from malloc_ok mutex_ok h0 (mkrun p h' [])
| from_allocate s trylock_ok r p' :
    reachable_from malloc_ok mutex_ok h0 s ->
    rtsafe_memory_pool_allocate trylock_ok (run_pool s) = (r, p') ->
    reachable_from malloc_ok mutex_ok h0
      (mkrun p' (run_heap s) (hold r (run_held s)))
| from_deallocate s trylock_ok d p' :
    reachable_from malloc_ok mutex_ok h0 s ->
    In d (run_held s) ->
    rtsafe_memory_pool_deallocate trylock_ok (run_pool s) d = Done p' ->
    reachable_from malloc_ok mutex_ok h0
      (mkrun p' (run_heap s) (hand_back d (run_held s)))
| from_sleepy s fuel p' h' :
    reachable_from malloc_ok mutex_ok h0 s ->
    rtsafe_memory_pool_sleepy malloc_ok fuel (run_pool s) (run_heap s)
      = Done (p', h') ->
    reachable_from malloc_ok mutex_ok h0 (mkrun p' h' (run_held s)).

(** What holds of a pool in use with respect to the heap [h0] in which it
    was created: the live blocks are those of [h0], the struct of the pool,
    the chunks in its lists and the chunks handed out; the mutexes are those
    of [h0] and the one of the pool; the struct is younger than [h0] and the
    chunks are younger than the struct. *)
Record life_inv (h0 : heap) (s : run_state) : Prop := mklife {
  life_live :
    live (run_heap s)
      = live h0 ∪ pool_blocks (run_pool s) ∪ blocks (run_held s);
  life_mutexes :
    mutexes (run_heap s) = mutexes h0 ∪ pool_mutex (run_pool s);
  life_calls :
    (calls h0 <= pool_blk (run_pool s) < calls (run_heap s))%nat;
  life_chunks :
    Forall (fun n => (pool_blk (run_pool s) < blk n)%nat)
           (unused (run_pool s) ++ pending (run_pool s) ++ run_held s)
}.

(** The two counters of a pool in use are the lengths of what they count,
    as 32-bit numbers. *)
Record count_inv (s : run_state) : Prop := mkcount {
  count_used :
    used_count (run_pool s) = wrap32 (Z.of_nat (length (run_held s)));
  count_unused :
    unused_count (run_pool s) = wrap32 (Z.of_nat (length (unused (run_pool s))))
}.

(** The pool [pool_two_unused] as construction leaves it in the empty heap,
    after the chunk of block 1 was allocated, and after it was given
    back. *)
Definition state_one_held : run_state :=
  mkrun pool_one_in_use (mkheap 3 {[0%nat; 1%nat; 2%nat]} ∅)
        [node_data (mkptr 1 0)].

Definition state_given_back : run_state :=
  mkrun (mkpool 0 924 2 2 0 [mkptr 2 0; mkptr 1 0] 2 false 0 [])
        (mkheap 3 {[0%nat; 1%nat; 2%nat]} ∅) [].

(** A thread-safe pool (min 1, max 2) with two unused chunks and one chunk
    in use. *)
Definition pool_full : rtsafe_memory_pool :=
  mkpool 0 924 1 2 1 [mkptr 1 0; mkptr 2 0] 2 true 2 [].

(** A pool that is not thread-safe (min 2, max 4) with no chunk yet. *)
Definition pool_short : rtsafe_memory_pool :=
  mkpool 0 924 2 4 0 [] 0 false 0 [].

(** The allocator that [rtsafe_memory_init] builds for [max_size = 2048]
    (min 1, max 2, not thread-safe) in the empty heap. *)
Definition memory_two_classes : rtsafe_memory :=
  mkmemory 0 1
    [mkgeneric 924 (mkpool 2 924 1 2 0 [mkptr 3 0] 1 false 0 []);
     mkgeneric 1948 (mkpool 4 1948 1 2 0 [mkptr 5 0] 1 false 0 [])] 2.

(** The allocator that [rtsafe_memory_init] builds for [max_size = 2048]
    with two chunks in each pool (min 2, max 2, not thread-safe) in the
    empty heap. *)
Definition memory_two_chunks : rtsafe_memory :=
  mkmemory 0 1
    [mkgeneric 924 (mkpool 2 924 2 2 0 [mkptr 3 0; mkptr 4 0] 2 false 0 []);
     mkgeneric 1948 (mkpool 5 1948 2 2 0 [mkptr 6 0; mkptr 7 0] 2 false 0 [])] 2.

(** A thread-safe pool (min 1, max 2) created in the empty heap, after one
    more maintenance pass. *)
Definition state_thread_safe : run_state :=
  mkrun (mkpool 0 924 1 2 0 [] 0 true 0 [mkptr 1 0; mkptr 2 0])
        (mkheap 3 {[0%nat; 1%nat; 2%nat]} {[0%nat]}) [].

(** * Properties *)

(** ** Basic facts *)

Lemma heap_wf_empty : heap_wf empty_heap.
Proof. intros b Hb. simpl in Hb. set_solver. Qed.

Lemma node_data_node (d : ptr) : node_data (data_node d) = d.
Proof. destruct d as [b o]. unfold node_data, data_node. simpl. f_equal. lia. Qed.

Lemma wrap32_small (z : Z) : 0 <= z < 2 ^ 32 -> wrap32 z = z.
Proof. intros H. unfold wrap32. apply Z.mod_small. exact H. Qed.

(** ** Allocate on a single pool *)

(** Allocate fails on an empty unused list and leaves the pool as it is. *)
Lemma allocate_empty (lk : bool) (p : rtsafe_memory_pool) :
  unused p = [] -> rtsafe_memory_pool_allocate lk p = (None, p).
Proof. intros H. unfold rtsafe_memory_pool_allocate. rewrite H. reflexivity. Qed.

(** When the mutex is not taken, or nothing is pending, allocate pops the
    head of the unused list and returns its data region. *)
Lemma allocate_pops_head (lk : bool) (p : rtsafe_memory_pool) (n : ptr) (rest : list ptr) :
  unused p = n :: rest ->
  enforce_thread_safety p && lk = false \/ pending p = [] ->
  exists p',
    rtsafe_memory_pool_allocate lk p = (Some (node_data n), p') /\
    unused p' = rest /\
    used_count p' = wrap32 (used_count p + 1) /\
    unused_count p' = wrap32 (unused_count p - 1) /\
    pending p' = pending p /\
    enforce_thread_safety p' = enforce_thread_safety p /\
    min_preallocated p' = min_preallocated p /\
    max_preallocated p' = max_preallocated p.
Proof.
  destruct p as [b ds mn mx us un uc ts uc2 pd]. simpl. intros -> Hcase.
  unfold rtsafe_memory_pool_allocate. simpl.
  destruct (ts && lk) eqn:E.
  - destruct Hcase as [Hc | ->]; [discriminate |]. simpl.
    eexists. split; [reflexivity |]. simpl. repeat split; reflexivity.
  - eexists. split; [reflexivity |]. simpl. repeat split; reflexivity.
Qed.

(** The refill loop either moves nothing and keeps [node_ptr], or leaves in
    [node_ptr] a chunk that it took from the pending list and linked into
    the unused list. *)
Lemma refill_unused_node (min : Z) :
  forall (pend : list ptr) (node_ptr : ptr) (uc : Z) (un : list ptr),
    let '(node_ptr', _, un', pend') := refill_unused min node_ptr uc un pend in
    (node_ptr' = node_ptr /\ un' = un /\ pend' = pend) \/
    (In node_ptr' pend /\ In node_ptr' un').
Proof.
  induction pend as [| n rest IH]; intros node_ptr uc un; simpl.
  - left. repeat split.
  - destruct (uc <? min); [| left; repeat split].
    specialize (IH n (wrap32 (uc + 1)) (list_add_tail n un)).
    destruct (refill_unused min n (wrap32 (uc + 1)) (list_add_tail n un) rest)
      as [[[node' uc'] un'] pend'].
    right. destruct IH as [(-> & -> & ->) | [Hin Hun]].
    + split; [left; reflexivity |].
      unfold list_add_tail. apply in_or_app. right. left. reflexivity.
    + split; [right; exact Hin | exact Hun].
Qed.

(** ** Construction of a pool *)

(** The maintenance pass of a thread-safe pool never touches the unused
    list. *)
Lemma sleepy_thread_safe_unused malloc_ok fuel p h p' h' :
  enforce_thread_safety p = true ->
  rtsafe_memory_pool_sleepy malloc_ok fuel p h = Done (p', h') ->
  unused p' = unused p /\ unused_count p' = unused_count p /\
  unused_count2 p' = unused_count2 p /\ used_count p' = used_count p /\
  enforce_thread_safety p' = true /\
  min_preallocated p' = min_preallocated p /\
  max_preallocated p' = max_preallocated p /\
  min_preallocated p < max_preallocated p.
Proof.
  intros Hts H. unfold rtsafe_memory_pool_sleepy in H. rewrite Hts in H.
  destruct (min_preallocated p <? max_preallocated p) eqn:Hlt; simpl in H;
    [| discriminate].
  destruct (grow_pending _ _ _ _ _ _) as [[[c1 pd1] h1] | |]; simpl in H;
    try discriminate.
  destruct (shrink_pending _ _ _ _) as [[c2 pd2] h2].
  injection H as <- <-. simpl. rewrite Hts.
  repeat split; try reflexivity. lia.
Qed.

(** With a system allocator that never fails, and a minimum that fits the
    32-bit counter, the first loop of the thread-safe pass adds exactly the
    missing chunks. *)
Lemma grow_pending_always fuel min c pend h c' pend' h' :
  0 <= c -> min < 2 ^ 32 ->
  grow_pending always fuel min c pend h = Done (c', pend', h') ->
  c' = Z.max c min /\
  length pend' = (length pend + Z.to_nat (min - c))%nat /\
  calls h' = (calls h + Z.to_nat (min - c))%nat.
Proof.
  revert c pend h.
  induction fuel as [| f IH]; intros c pend h Hc Hmin H; simpl in H.
  - destruct (c <? min) eqn:E; [discriminate |].
    injection H as <- <- <-.
    replace (Z.to_nat (min - c)) with 0%nat by lia. lia.
  - destruct (c <? min) eqn:E.
    + unfold malloc in H. simpl in H.
      rewrite (wrap32_small (c + 1)) in H by lia.
      apply IH in H; [| lia | lia].
      destruct H as (-> & Hl & Hk). split; [lia |].
      rewrite Hl, Hk. unfold list_add_tail. rewrite length_app. simpl. lia.
    + injection H as <- <- <-.
      replace (Z.to_nat (min - c)) with 0%nat by lia. lia.
Qed.

(** The first loop of either branch ends, whatever the system allocator
    does, when the fuel exceeds the number of missing chunks. *)
Lemma grow_pending_total malloc_ok fuel min c pend h :
  0 <= c -> min < 2 ^ 32 -> (Z.to_nat (min - c) < fuel)%nat ->
  exists r, grow_pending malloc_ok fuel min c pend h = Done r.
Proof.
  revert c pend h.
  induction fuel as [| f IH]; intros c pend h Hc Hmin Hf; [lia |].
  simpl. destruct (c <? min) eqn:E; [| eexists; reflexivity].
  destruct (malloc malloc_ok h) as [[n |] h1]; [| eexists; reflexivity].
  rewrite (wrap32_small (c + 1)) by lia.
  apply IH; lia.
Qed.

Lemma grow_unused_total malloc_ok fuel min c un h :
  0 <= c -> min < 2 ^ 32 -> (Z.to_nat (min - c) < fuel)%nat ->
  exists r, grow_unused malloc_ok fuel min c un h = Done r.
Proof.
  revert c un h.
  induction fuel as [| f IH]; intros c un h Hc Hmin Hf; [lia |].
  simpl. destruct (c <? min) eqn:E; [| eexists; reflexivity].
  destruct (malloc malloc_ok h) as [[n |] h1]; [| eexists; reflexivity].
  rewrite (wrap32_small (c + 1)) by lia.
  apply IH; lia.
Qed.

(** The second loop of the thread-safe pass does nothing when the count is
    within the maximum. *)
Lemma shrink_pending_within max c pend h :
  c <= max -> shrink_pending max c pend h = (c, pend, h).
Proof.
  intros H. destruct pend as [| n rest]; simpl; [reflexivity |].
  destruct (c >? max) eqn:E; [lia | reflexivity].
Qed.

(** C6.  A thread-safe pool that was just created has an empty unused list:
    its first allocate returns NULL, whatever the trylock does, and changes
    nothing.  The chunks that construction preallocated (as many as the
    minimum, when the system allocator never fails) are all on the pending
    list. *)
Theorem fresh_thread_safe_pool_allocate_null
    (mutex_ok : nat -> bool) (malloc_ok : nat -> bool)
    (fuel : nat) (size min max : Z) (h h' : heap) (p : rtsafe_memory_pool) :
  rtsafe_memory_pool_create malloc_ok mutex_ok fuel size min max true h
    = Done (Some p, h') ->
  unused p = [] /\
  (forall lk, rtsafe_memory_pool_allocate lk p = (None, p)) /\
  (malloc_ok = always -> 0 <= min < 2 ^ 32 -> length (pending p) = Z.to_nat min).
Proof.
  intros H. unfold rtsafe_memory_pool_create in H.
  destruct (min <=? max) eqn:Hle; simpl in H; [| discriminate].
  destruct (malloc malloc_ok h) as [[pp |] h1] eqn:Hm; [| discriminate].
  destruct (mutex_ok (blk pp)); [| discriminate].
  destruct (rtsafe_memory_pool_sleepy _ _ _ _) as [[p1 h2] | |] eqn:Hs;
    simpl in H; try discriminate.
  injection H as -> ->.
  assert (Hinv := Hs). apply sleepy_thread_safe_unused in Hinv; [| reflexivity].
  simpl in Hinv. destruct Hinv as (Hu & _ & _ & _ & _ & _ & _ & Hlt).
  split; [exact Hu |]. split.
  - intros lk. apply allocate_empty. exact Hu.
  - intros -> Hmin. unfold rtsafe_memory_pool_sleepy in Hs. simpl in Hs.
    destruct (min <? max) eqn:E; simpl in Hs; [| discriminate].
    destruct (grow_pending _ _ _ _ _ _) as [[[c1 pd1] g1] | |] eqn:Hg;
      simpl in Hs; try discriminate.
    apply grow_pending_always in Hg; [| lia | lia].
    destruct Hg as (-> & Hl & _).
    rewrite shrink_pending_within in Hs by lia.
    injection Hs as <- <-. simpl. rewrite Hl. simpl. f_equal. lia.
Qed.

Lemma fresh_thread_safe_pool_allocate_null_witness :
  exists p h',
    rtsafe_memory_pool_create always always 3 924 2 3 true empty_heap
      = Done (Some p, h') /\
    unused p = [] /\
    (forall lk, rtsafe_memory_pool_allocate lk p = (None, p)) /\
    (always = always -> 0 <= 2 < 2 ^ 32 -> length (pending p) = Z.to_nat 2).
Proof.
  eexists. eexists. split; [vm_compute; reflexivity |].
  eapply (fresh_thread_safe_pool_allocate_null always always 3 924 2 3 empty_heap).
  vm_compute. reflexivity.
Defined.

(** C8 (code defect).  The claim: every configuration with min <= max is
    accepted and passes every assertion, in both modes.  Construction of a
    thread-safe pool with min = max passes [assert(min <= max)] and then
    fails [assert(min < max)] in the maintenance pass it runs. *)
Theorem create_thread_safe_min_eq_max_aborts (fuel : nat) (size n : Z) :
  rtsafe_memory_pool_create always always fuel size n n true empty_heap = Abort.
Proof.
  unfold rtsafe_memory_pool_create. rewrite Z.leb_refl. simpl.
  unfold rtsafe_memory_pool_sleepy. simpl. rewrite Z.ltb_irrefl. reflexivity.
Qed.

(** The other mode accepts the same configuration. *)
Lemma create_plain_min_eq_max_accepted :
  exists p h, rtsafe_memory_pool_create always always 2 924 1 1 false empty_heap
              = Done (Some p, h) /\ unused p = [mkptr 1 0].
Proof. eexists. eexists. split; vm_compute; reflexivity. Qed.

(** ** The size classes of the tiered allocator *)

(** C5 (code defect).  The claim: a request of exactly [max_size] bytes is
    matched by some pool.  An allocator built for [max_size = 2048] has the
    classes 924 and 1948, and a request of 2048 bytes is rejected as too big
    although both pools have a chunk available. *)
Theorem init_2048_rejects_2048 :
  exists m h,
    rtsafe_memory_init always always 2 2048 1 2 false empty_heap = Done (Init_ok m, h) /\
    map pg_size (pools m) = [924; 1948] /\
    map (fun pg => length (unused (pg_pool pg))) (pools m) = [1%nat; 1%nat] /\
    forall lk, rtsafe_memory_allocate lk m 2048 = (None, [Warning_too_big], m).
Proof.
  eexists. eexists. split; [vm_compute; reflexivity |].
  split; [reflexivity |]. split; [reflexivity |].
  intros lk. vm_compute. reflexivity.
Qed.

(** ** Exhaustion *)

Lemma allocate_each_exhausts (locks : list bool) :
  forall p : rtsafe_memory_pool,
    enforce_thread_safety p = false \/ pending p = [] ->
    unused_count p = Z.of_nat (length (unused p)) ->
    0 <= used_count p ->
    used_count p + Z.of_nat (length (unused p)) < 2 ^ 32 ->
    length locks = S (length (unused p)) ->
    fst (allocate_each locks p)
      = map (fun n => Some (node_data n)) (unused p) ++ [None] /\
    used_count (snd (allocate_each locks p))
      = used_count p + Z.of_nat (length (unused p)) /\
    unused_count (snd (allocate_each locks p)) = 0 /\
    unused (snd (allocate_each locks p)) = [].
Proof.
  induction locks as [| lk locks IH]; intros p Hmode Huc Hused Hbound Hlen;
    [discriminate |].
  destruct (unused p) as [| n rest] eqn:Hu.
  - simpl in Hlen. destruct locks; [| discriminate].
    simpl. rewrite (allocate_empty lk p Hu). simpl.
    rewrite Hu. repeat split; [lia | exact Huc].
  - assert (Hno : enforce_thread_safety p && lk = false \/ pending p = []).
    { destruct Hmode as [-> | ->]; [left | right]; reflexivity. }
    destruct (allocate_pops_head lk p n rest Hu Hno)
      as (p1 & Ha & Hu1 & Hused1 & Huc1 & Hp1 & Hts1 & _ & _).
    simpl in Hlen, Hbound, Huc.
    rewrite wrap32_small in Hused1 by lia.
    rewrite Huc in Huc1. rewrite wrap32_small in Huc1 by lia.
    specialize (IH p1).
    rewrite Hu1, Hused1, Huc1, Hp1, Hts1 in IH.
    destruct IH as (Hr & Hfu & Hfc & Hfl);
      [exact Hmode | lia | lia | lia | lia |].
    simpl. rewrite Ha.
    destruct (allocate_each locks p1) as [rs p2]. simpl in *.
    rewrite Hr. repeat split; [lia | exact Hfc | exact Hfl].
Qed.

(** ** Deallocate followed by allocate *)

(** C9 (as amended).  When the steps under the mutex do not run (the pool is
    not thread-safe, or both trylocks fail), deallocate links the chunk at
    the tail of the unused list and the allocate that follows returns the
    chunk at the head: the pointer just given back if the unused list was
    empty, and otherwise the data region of the chunk that was first in the
    unused list. *)
Theorem deallocate_then_allocate (lk1 lk2 : bool) (p : rtsafe_memory_pool) (d : ptr) :
  enforce_thread_safety p && (lk1 || lk2) = false ->
  exists p1,
    rtsafe_memory_pool_deallocate lk1 p d = Done p1 /\
    unused p1 = unused p ++ [data_node d] /\
    fst (rtsafe_memory_pool_allocate lk2 p1)
      = Some (match unused p with
              | [] => d
              | n :: _ => node_data n
              end).
Proof.
  intros Hno.
  destruct p as [b ds mn mx us un uc ts uc2 pd]. simpl in *.
  assert (H1 : ts && lk1 = false) by (destruct ts, lk1; simpl in *; congruence).
  assert (H2 : ts && lk2 = false) by (destruct ts, lk1, lk2; simpl in *; congruence).
  unfold rtsafe_memory_pool_deallocate. simpl. rewrite H1.
  eexists. split; [reflexivity |]. split; [reflexivity |].
  unfold rtsafe_memory_pool_allocate. simpl.
  destruct un as [| n rest]; simpl; rewrite H2; simpl.
  - rewrite node_data_node. reflexivity.
  - reflexivity.
Qed.

Lemma deallocate_then_allocate_witness :
  exists p1,
    rtsafe_memory_pool_deallocate true pool_one_in_use (node_data (mkptr 1 0))
      = Done p1 /\
    unused p1 = unused pool_one_in_use ++ [data_node (node_data (mkptr 1 0))] /\
    fst (rtsafe_memory_pool_allocate true p1)
      = Some (match unused pool_one_in_use with
              | [] => node_data (mkptr 1 0)
              | n :: _ => node_data n
              end).
Proof.
  apply (deallocate_then_allocate true true pool_one_in_use (node_data (mkptr 1 0))).
  reflexivity.
Defined.

(** C9 as stated fails: a pool created with two chunks, not thread-safe,
    returns the chunk of block 1, takes it back, and then returns the chunk
    of block 2. *)
Lemma deallocate_then_allocate_other_chunk :
  exists p h p1 p2 p3,
    rtsafe_memory_pool_create always always 3 924 2 2 false empty_heap
      = Done (Some p, h) /\
    rtsafe_memory_pool_allocate false p = (Some (node_data (mkptr 1 0)), p1) /\
    rtsafe_memory_pool_deallocate false p1 (node_data (mkptr 1 0)) = Done p2 /\
    rtsafe_memory_pool_allocate false p2 = (Some (node_data (mkptr 2 0)), p3) /\
    blk (node_data (mkptr 2 0)) <> blk (node_data (mkptr 1 0)).
Proof.
  do 5 eexists.
  split; [vm_compute; reflexivity |].
  split; [vm_compute; reflexivity |].
  split; [vm_compute; reflexivity |].
  split; [vm_compute; reflexivity |].
  simpl. lia.
Qed.

(** ** Maintenance of a thread-safe pool *)

(** With a system allocator that never fails, a maintenance pass of a
    thread-safe pool whose recorded count is 0 allocates as many chunks as
    the minimum and links them into the pending list, however many chunks
    are pending already. *)
Lemma sleepy_thread_safe_grows fuel p h :
  enforce_thread_safety p = true ->
  unused_count2 p = 0 ->
  0 <= min_preallocated p < max_preallocated p ->
  min_preallocated p < 2 ^ 32 ->
  (Z.to_nat (min_preallocated p) < fuel)%nat ->
  exists pend h',
    rtsafe_memory_pool_sleepy always fuel p h = Done (set_pending pend p, h') /\
    length pend = (length (pending p) + Z.to_nat (min_preallocated p))%nat /\
    calls h' = (calls h + Z.to_nat (min_preallocated p))%nat.
Proof.
  intros Hts Hc2 Hmm Hmin Hfuel.
  unfold rtsafe_memory_pool_sleepy. rewrite Hts, Hc2.
  destruct (min_preallocated p <? max_preallocated p) eqn:E; [| lia]. simpl.
  destruct (grow_pending_total always fuel (min_preallocated p) 0 (pending p) h)
    as [[[c1 pd1] h1] Hg]; [lia | lia | rewrite Z.sub_0_r; exact Hfuel |].
  rewrite Hg. simpl.
  apply grow_pending_always in Hg; [| lia | lia].
  destruct Hg as (-> & Hl & Hk). rewrite Z.sub_0_r in Hl, Hk.
  rewrite shrink_pending_within by lia.
  eexists. eexists. split; [reflexivity |]. split; assumption.
Qed.

Lemma sleepy_times_thread_safe_grows fuel (k : nat) :
  forall p h,
    enforce_thread_safety p = true ->
    unused_count2 p = 0 ->
    0 <= min_preallocated p < max_preallocated p ->
    min_preallocated p < 2 ^ 32 ->
    (Z.to_nat (min_preallocated p) < fuel)%nat ->
    exists pend h',
      sleepy_times always k fuel p h = Done (set_pending pend p, h') /\
      length pend = (length (pending p) + k * Z.to_nat (min_preallocated p))%nat /\
      calls h' = (calls h + k * Z.to_nat (min_preallocated p))%nat.
Proof.
  induction k as [| k IH]; intros p h Hts Hc2 Hmm Hmin Hfuel.
  - exists (pending p), h. simpl. split; [| lia].
    destruct p; reflexivity.
  - destruct (sleepy_thread_safe_grows fuel p h Hts Hc2 Hmm Hmin Hfuel)
      as (pd1 & h1 & Hs & Hl1 & Hk1).
    simpl. rewrite Hs. simpl.
    destruct (IH (set_pending pd1 p) h1) as (pd2 & h2 & Hs2 & Hl2 & Hk2);
      try assumption.
    simpl in *. exists pd2, h2. split; [exact Hs2 |]. lia.
Qed.

(** C3 (code defect).  The claim: repeated maintenance brings the unused and
    staging counts to within [min, max], after which further calls change
    nothing.  On a thread-safe pool created with min 1 and max 2 every pass
    allocates one more chunk: after [k] passes the pending list holds
    [k + 1] chunks, the unused list is still empty, and [k] more calls of
    malloc were made. *)
Theorem maintenance_thread_safe_never_settles :
  exists p0 h0,
    rtsafe_memory_pool_create always always 2 924 1 2 true empty_heap
      = Done (Some p0, h0) /\
    forall k, exists p h,
      sleepy_times always k 2 p0 h0 = Done (p, h) /\
      unused p = [] /\
      length (pending p) = S k /\
      calls h = (calls h0 + k)%nat.
Proof.
  eexists. eexists. split; [vm_compute; reflexivity |].
  intros k.
  match goal with |- context [sleepy_times _ _ _ ?p ?h] =>
    destruct (sleepy_times_thread_safe_grows 2 k p h)
      as (pd & h' & Hs & Hl & Hk)
  end; try reflexivity; simpl; try lia.
  eexists. eexists. split; [exact Hs |].
  simpl in *. split; [reflexivity |]. lia.
Qed.

(** The sibling branch settles: within the bounds a maintenance pass of a
    pool that is not thread-safe changes neither the pool nor the heap. *)
Lemma sleepy_plain_settled malloc_ok fuel p h :
  enforce_thread_safety p = false ->
  min_preallocated p <= unused_count p <= max_preallocated p ->
  rtsafe_memory_pool_sleepy malloc_ok fuel p h = Done (p, h).
Proof.
  intros Hts Hb. unfold rtsafe_memory_pool_sleepy. rewrite Hts.
  assert (Hg : grow_unused malloc_ok fuel (min_preallocated p) (unused_count p)
                 (unused p) h = Done (true, unused_count p, unused p, h)).
  { destruct fuel; simpl;
      destruct (unused_count p <? min_preallocated p) eqn:E; try lia; reflexivity. }
  rewrite Hg.
  assert (Hs : shrink_unused (max_preallocated p) (unused_count p) (unused p) h
               = Done (unused_count p, unused p, h)).
  { destruct (unused p); simpl;
      destruct (unused_count p >? max_preallocated p) eqn:E; try lia; reflexivity. }
  rewrite Hs. simpl. destruct p; reflexivity.
Qed.

(** ** Allocate-until-available *)

(** On a thread-safe pool with an empty unused list the loop never returns,
    whatever the system allocator and the trylocks do: maintenance only
    fills the pending list and allocate gives up before looking at it. *)
Lemma allocate_sleepy_thread_safe_never_returns malloc_ok (lk : nat -> bool) fuel rounds :
  forall p h r,
    enforce_thread_safety p = true ->
    unused p = [] ->
    rtsafe_memory_pool_allocate_sleepy malloc_ok rounds fuel lk p h <> Done r.
Proof.
  induction rounds as [| n IH]; intros p h r Hts Hu; simpl; [discriminate |].
  destruct (rtsafe_memory_pool_sleepy malloc_ok fuel p h) as [[p1 h1] | |] eqn:Hs;
    simpl; try discriminate.
  apply sleepy_thread_safe_unused in Hs; [| exact Hts].
  destruct Hs as (Hu1 & _ & _ & _ & Hts1 & _).
  rewrite Hu in Hu1.
  rewrite (allocate_empty (lk n) p1 Hu1).
  apply IH; assumption.
Qed.

Lemma allocate_sleepy_thread_safe_times_out (lk : nat -> bool) fuel rounds :
  forall p h,
    enforce_thread_safety p = true ->
    unused p = [] ->
    unused_count2 p = 0 ->
    0 <= min_preallocated p < max_preallocated p ->
    min_preallocated p < 2 ^ 32 ->
    (Z.to_nat (min_preallocated p) < fuel)%nat ->
    rtsafe_memory_pool_allocate_sleepy always rounds fuel lk p h = Timeout.
Proof.
  induction rounds as [| n IH]; intros p h Hts Hu Hc2 Hmm Hmin Hfuel; simpl;
    [reflexivity |].
  destruct (sleepy_thread_safe_grows fuel p h Hts Hc2 Hmm Hmin Hfuel)
    as (pd1 & h1 & Hs & _).
  rewrite Hs. simpl.
  rewrite (allocate_empty (lk n) (set_pending pd1 p)) by exact Hu.
  apply IH; assumption.
Qed.

(** C4 (code defect).  The claim: with min > 0 and a system allocator that
    never fails, allocate-until-available ends and returns a chunk, in
    particular on a thread-safe pool that was just created.  On such a pool
    (min 1, max 2) no number of rounds is enough: every round allocates one
    more pending chunk and the allocate that follows returns NULL. *)
Theorem allocate_sleepy_fresh_thread_safe_pool_diverges :
  exists p0 h0,
    rtsafe_memory_pool_create always always 2 924 1 2 true empty_heap
      = Done (Some p0, h0) /\
    0 < min_preallocated p0 /\
    forall (rounds fuel : nat) (lk : nat -> bool),
      rtsafe_memory_pool_allocate_sleepy always rounds (S (S fuel)) lk p0 h0
        = Timeout.
Proof.
  eexists. eexists. split; [vm_compute; reflexivity |].
  split; [simpl; lia |].
  intros rounds fuel lk.
  apply allocate_sleepy_thread_safe_times_out; try reflexivity; simpl; lia.
Qed.

(** On a pool that is not thread-safe the first round succeeds. *)
Lemma allocate_sleepy_plain_returns :
  exists p0 h0 p1 h1,
    rtsafe_memory_pool_create always always 2 924 1 2 false empty_heap
      = Done (Some p0, h0) /\
    forall lk, rtsafe_memory_pool_allocate_sleepy always 1 2 lk p0 h0
               = Done (node_data (mkptr 1 0), p1, h1).
Proof.
  do 4 eexists. split; [vm_compute; reflexivity |].
  intros lk. vm_compute. reflexivity.
Qed.

(** ** The effect of the loops on the lists and on the heap *)

Lemma blocks_nil : blocks [] = ∅.
Proof. reflexivity. Qed.

Lemma blocks_cons (n : ptr) (l : list ptr) : blocks (n :: l) = {[blk n]} ∪ blocks l.
Proof. reflexivity. Qed.

Lemma blocks_app (l k : list ptr) : blocks (l ++ k) = blocks l ∪ blocks k.
Proof. unfold blocks. rewrite fmap_app. apply list_to_set_app_L. Qed.

Lemma elem_of_blocks (b : nat) (l : list ptr) :
  b ∈ blocks l <-> exists n, n ∈ l /\ blk n = b.
Proof.
  unfold blocks. rewrite elem_of_list_to_set, list_elem_of_fmap.
  split; intros (n & H1 & H2); exists n; split; auto.
Qed.

Lemma fresh_in_blocks (h h' : heap) (new : list ptr) (b : nat) :
  fresh_in h h' new -> b ∈ blocks new -> (calls h <= b < calls h')%nat.
Proof.
  intros [_ Hf] Hb. apply elem_of_blocks in Hb as (n & Hn & <-).
  rewrite Forall_forall in Hf. apply Hf. exact Hn.
Qed.

(** One successful malloc followed by fresh nodes gives fresh nodes. *)
Lemma fresh_in_cons (h h' : heap) (new : list ptr) :
  fresh_in (mkheap (S (calls h)) ({[calls h]} ∪ live h) (mutexes h)) h' new ->
  (S (calls h) <= calls h')%nat ->
  fresh_in h h' (mkptr (calls h) 0 :: new).
Proof.
  intros [Hnd Hf] Hle. split.
  - rewrite fmap_cons. simpl. apply NoDup_cons. split; [| exact Hnd].
    intros Hin. apply list_elem_of_fmap in Hin as (n & Hb & Hn).
    rewrite Forall_forall in Hf. apply Hf in Hn. simpl in Hn. lia.
  - constructor; [simpl; lia |].
    eapply Forall_impl; [exact Hf |]. simpl. intros n Hn. lia.
Qed.

Lemma grow_pending_spec malloc_ok fuel min :
  forall c pend h c' pend' h',
    grow_pending malloc_ok fuel min c pend h = Done (c', pend', h') ->
    exists new,
      pend' = pend ++ new /\ fresh_in h h' new /\
      (calls h <= calls h')%nat /\
      live h' = live h ∪ blocks new /\ mutexes h' = mutexes h.
Proof.
  induction fuel as [| f IH]; intros c pend h c' pend' h' H; simpl in H.
  - destruct (c <? min); [discriminate |]. injection H as <- <- <-.
    exists []. rewrite app_nil_r, blocks_nil.
    repeat split; [constructor | constructor | lia | set_solver].
  - destruct (c <? min).
    + unfold malloc in H. destruct (malloc_ok (calls h)).
      * apply IH in H as (new & -> & Hfr & Hle & Hl & Hm). simpl in *.
        exists (mkptr (calls h) 0 :: new).
        unfold list_add_tail. rewrite <- app_assoc. simpl.
        split; [reflexivity |]. split; [apply fresh_in_cons; [exact Hfr | lia] |].
        split; [lia |]. rewrite blocks_cons. simpl.
        split; [rewrite Hl; set_solver | exact Hm].
      * injection H as <- <- <-. exists []. rewrite app_nil_r, blocks_nil. simpl.
        repeat split; [constructor | constructor | lia | set_solver].
    + injection H as <- <- <-. exists []. rewrite app_nil_r, blocks_nil.
      repeat split; [constructor | constructor | lia | set_solver].
Qed.

Lemma grow_unused_spec malloc_ok fuel min :
  forall c un h b c' un' h',
    grow_unused malloc_ok fuel min c un h = Done (b, c', un', h') ->
    exists new,
      un' = un ++ new /\ fresh_in h h' new /\
      (calls h <= calls h')%nat /\
      live h' = live h ∪ blocks new /\ mutexes h' = mutexes h.
Proof.
  induction fuel as [| f IH]; intros c un h b c' un' h' H; simpl in H.
  - destruct (c <? min); [discriminate |]. injection H as <- <- <- <-.
    exists []. rewrite app_nil_r, blocks_nil.
    repeat split; [constructor | constructor | lia | set_solver].
  - destruct (c <? min).
    + unfold malloc in H. destruct (malloc_ok (calls h)).
      * apply IH in H as (new & -> & Hfr & Hle & Hl & Hm). simpl in *.
        exists (mkptr (calls h) 0 :: new).
        unfold list_add_tail. rewrite <- app_assoc. simpl.
        split; [reflexivity |]. split; [apply fresh_in_cons; [exact Hfr | lia] |].
        split; [lia |]. rewrite blocks_cons. simpl.
        split; [rewrite Hl; set_solver | exact Hm].
      * injection H as <- <- <- <-. exists []. rewrite app_nil_r, blocks_nil. simpl.
        repeat split; [constructor | constructor | lia | set_solver].
    + injection H as <- <- <- <-. exists []. rewrite app_nil_r, blocks_nil.
      repeat split; [constructor | constructor | lia | set_solver].
Qed.

Lemma shrink_pending_spec max :
  forall pend c h c' pend' h',
    shrink_pending max c pend h = (c', pend', h') ->
    exists gone,
      pend = gone ++ pend' /\ calls h' = calls h /\
      live h' = live h ∖ blocks gone /\ mutexes h' = mutexes h.
Proof.
  induction pend as [| n rest IH]; intros c h c' pend' h' H; simpl in H.
  - injection H as <- <- <-. exists []. rewrite blocks_nil.
    repeat split. set_solver.
  - destruct (c >? max).
    + apply IH in H as (gone & -> & Hc & Hl & Hm). simpl in *.
      exists (n :: gone). rewrite blocks_cons.
      repeat split; [exact Hc | rewrite Hl; set_solver | exact Hm].
    + injection H as <- <- <-. exists []. rewrite blocks_nil.
      repeat split. set_solver.
Qed.

Lemma shrink_unused_spec max :
  forall un c h c' un' h',
    shrink_unused max c un h = Done (c', un', h') ->
    exists gone,
      un = gone ++ un' /\ calls h' = calls h /\
      live h' = live h ∖ blocks gone /\ mutexes h' = mutexes h.
Proof.
  induction un as [| n rest IH]; intros c h c' un' h' H; simpl in H.
  - destruct (c >? max); [discriminate |]. injection H as <- <- <-.
    exists []. rewrite blocks_nil. repeat split. set_solver.
  - destruct (c >? max).
    + apply IH in H as (gone & -> & Hc & Hl & Hm). simpl in *.
      exists (n :: gone). rewrite blocks_cons.
      repeat split; [exact Hc | rewrite Hl; set_solver | exact Hm].
    + injection H as <- <- <-. exists []. rewrite blocks_nil.
      repeat split. set_solver.
Qed.

(** A maintenance pass links fresh chunks at the tail of one list and frees
    chunks from its head; it leaves everything else alone. *)
Lemma sleepy_spec malloc_ok fuel p h p' h' :
  rtsafe_memory_pool_sleepy malloc_ok fuel p h = Done (p', h') ->
  exists new gone,
    fresh_in h h' new /\ (calls h <= calls h')%nat /\
    live h' = (live h ∪ blocks new) ∖ blocks gone /\
    mutexes h' = mutexes h /\
    pool_blk p' = pool_blk p /\
    enforce_thread_safety p' = enforce_thread_safety p /\
    used_count p' = used_count p /\
    (if enforce_thread_safety p
     then unused p' = unused p /\ unused_count p' = unused_count p /\
          pending p ++ new = gone ++ pending p'
     else pending p' = pending p /\ unused p ++ new = gone ++ unused p').
Proof.
  intros H. unfold rtsafe_memory_pool_sleepy in H.
  destruct (enforce_thread_safety p) eqn:Hts.
  - destruct (min_preallocated p <? max_preallocated p); simpl in H;
      [| discriminate].
    destruct (grow_pending _ _ _ _ _ _) as [[[c1 pd1] h1] | |] eqn:Hg;
      simpl in H; try discriminate.
    destruct (shrink_pending _ _ _ _) as [[c2 pd2] h2] eqn:Hs.
    injection H as <- <-.
    apply grow_pending_spec in Hg as (new & -> & Hfr & Hle & Hl & Hm).
    apply shrink_pending_spec in Hs as (gone & Hpd & Hc & Hl2 & Hm2).
    exists new, gone. simpl.
    assert (Hfr' : fresh_in h h2 new).
    { destruct Hfr as [Hnd Hf]. split; [exact Hnd |].
      rewrite Hc. exact Hf. }
    split; [exact Hfr' |]. split; [lia |].
    repeat split; try assumption; try congruence.
  - destruct (grow_unused _ _ _ _ _ _) as [[[[b c1] un1] h1] | |] eqn:Hg;
      simpl in H; try discriminate.
    apply grow_unused_spec in Hg as (new & -> & Hfr & Hle & Hl & Hm).
    destruct b.
    + destruct (shrink_unused _ _ _ _) as [[[c2 un2] h2] | |] eqn:Hs;
        simpl in H; try discriminate.
      injection H as <- <-.
      apply shrink_unused_spec in Hs as (gone & Hun & Hc & Hl2 & Hm2).
      exists new, gone. simpl.
      assert (Hfr' : fresh_in h h2 new).
      { destruct Hfr as [Hnd Hf]. split; [exact Hnd |].
        rewrite Hc. exact Hf. }
      split; [exact Hfr' |]. split; [lia |].
      repeat split; try assumption; try congruence.
    + injection H as <- <-. exists new, []. simpl. rewrite blocks_nil.
      split; [exact Hfr |]. split; [lia |].
      repeat split; try assumption; try congruence.
      rewrite Hl. set_solver.
Qed.

(** ** Chunks are in one place at a time *)

Lemma lists_after_maintenance (l new gone l' rest : list ptr) (h h' : heap) :
  NoDup (blk <$> (l ++ rest)) ->
  Forall (fun n => (blk n < calls h)%nat) (l ++ rest) ->
  fresh_in h h' new ->
  (calls h <= calls h')%nat ->
  l ++ new = gone ++ l' ->
  NoDup (blk <$> (l' ++ rest)) /\
  Forall (fun n => (blk n < calls h')%nat) (l' ++ rest).
Proof.
  intros Hnd Hk [Hnew Hf] Hle Heq.
  assert (Hall : NoDup (blk <$> ((l ++ new) ++ rest)) /\
                 Forall (fun n => (blk n < calls h')%nat) ((l ++ new) ++ rest)).
  { split.
    - rewrite !fmap_app in *.
      apply NoDup_app in Hnd as (Hl & Hdis & Hrest).
      rewrite Forall_app in Hk. destruct Hk as [Hkl Hkr].
      rewrite Forall_forall in Hkl, Hkr, Hf.
      apply NoDup_app. split; [| split]; [| | exact Hrest].
      + apply NoDup_app. split; [exact Hl |]. split; [| exact Hnew].
        intros b Hb Hb'.
        apply list_elem_of_fmap in Hb as (n & -> & Hn).
        apply list_elem_of_fmap in Hb' as (n' & Hbb & Hn').
        apply Hkl in Hn. apply Hf in Hn'. lia.
      + intros b Hb Hb'. apply elem_of_app in Hb as [Hb | Hb].
        * exact (Hdis b Hb Hb').
        * apply list_elem_of_fmap in Hb as (n & -> & Hn).
          apply list_elem_of_fmap in Hb' as (n' & Hbb & Hn').
          apply Hkr in Hn'. apply Hf in Hn. lia.
    - rewrite !Forall_app in *. destruct Hk as [Hkl Hkr].
      repeat split.
      + eapply Forall_impl; [exact Hkl |]. simpl. intros. lia.
      + eapply Forall_impl; [exact Hf |]. simpl. intros. lia.
      + eapply Forall_impl; [exact Hkr |]. simpl. intros. lia. }
  rewrite Heq in Hall. destruct Hall as [Hnd' Hk'].
  rewrite <- app_assoc in Hnd', Hk'.
  rewrite fmap_app in Hnd'. apply NoDup_app in Hnd' as (_ & _ & Hnd').
  rewrite Forall_app in Hk'. destruct Hk' as [_ Hk'].
  split; assumption.
Qed.

Lemma run_inv_sleepy malloc_ok fuel (s : run_state) p' h' :
  run_inv s ->
  rtsafe_memory_pool_sleepy malloc_ok fuel (run_pool s) (run_heap s) = Done (p', h') ->
  run_inv (mkrun p' h' (run_held s)).
Proof.
  intros [Hnd Hk Hts Hpl] H.
  apply sleepy_spec in H
    as (new & gone & Hfr & Hle & _ & _ & _ & Hts' & _ & Hlists).
  destruct (enforce_thread_safety (run_pool s)) eqn:E.
  - destruct (Hts eq_refl) as [Hu Hh].
    destruct Hlists as (Hu' & _ & Hpd).
    rewrite Hu, Hh in Hnd, Hk. simpl in Hnd, Hk.
    destruct (lists_after_maintenance _ _ _ _ [] _ _ Hnd Hk Hfr Hle Hpd)
      as [Hnd' Hk'].
    constructor; simpl; rewrite ?Hu', ?Hu, ?Hh; simpl.
    + exact Hnd'.
    + exact Hk'.
    + intros _. split; reflexivity.
    + intros Hc. congruence.
  - specialize (Hpl eq_refl). destruct Hlists as (Hpd & Hun).
    rewrite Hpl in Hnd, Hk. simpl in Hnd, Hk.
    destruct (lists_after_maintenance _ _ _ _ _ _ _ Hnd Hk Hfr Hle Hun)
      as [Hnd' Hk'].
    constructor; simpl; rewrite ?Hpd, ?Hpl; simpl.
    + exact Hnd'.
    + exact Hk'.
    + intros Hc. congruence.
    + intros _. reflexivity.
Qed.

Lemma hand_back_perm (d : ptr) (held : list ptr) :
  In d held -> Permutation held (d :: hand_back d held).
Proof.
  induction held as [| x rest IH]; intros Hin; [destruct Hin |].
  simpl. destruct (decide (x = d)) as [-> | Hne]; [reflexivity |].
  destruct Hin as [-> | Hin]; [congruence |].
  rewrite (IH Hin) at 1. apply perm_swap.
Qed.

Lemma run_inv_create malloc_ok mutex_ok fuel size min max ts h p h' :
  rtsafe_memory_pool_create malloc_ok mutex_ok fuel size min max ts h
    = Done (Some p, h') ->
  run_inv (mkrun p h' []).
Proof.
  intros H. unfold rtsafe_memory_pool_create in H.
  destruct (min <=? max); simpl in H; [| discriminate].
  destruct (malloc malloc_ok h) as [[pp |] h1]; [| discriminate].
  assert (Hstart : forall g, run_inv (mkrun (mkpool (blk pp) size min max 0 [] 0 ts 0 []) g [])).
  { intros g. constructor; simpl; auto using NoDup_nil_2. }
  destruct ts.
  - destruct (mutex_ok (blk pp)); [| discriminate].
    destruct (rtsafe_memory_pool_sleepy _ _ _ _) as [[p1 h2] | |] eqn:Hs;
      simpl in H; try discriminate.
    injection H as -> ->.
    exact (run_inv_sleepy _ _ (mkrun _ _ []) _ _ (Hstart _) Hs).
  - destruct (rtsafe_memory_pool_sleepy _ _ _ _) as [[p1 h2] | |] eqn:Hs;
      simpl in H; try discriminate.
    injection H as -> ->.
    exact (run_inv_sleepy _ _ (mkrun _ _ []) _ _ (Hstart _) Hs).
Qed.

Lemma run_inv_allocate lk (s : run_state) r p' :
  run_inv s ->
  rtsafe_memory_pool_allocate lk (run_pool s) = (r, p') ->
  run_inv (mkrun p' (run_heap s) (hold r (run_held s))).
Proof.
  intros [Hnd Hk Hts Hpl] H.
  destruct (unused (run_pool s)) as [| n rest] eqn:Hu.
  - rewrite (allocate_empty lk _ Hu) in H. injection H as <- <-.
    constructor; simpl; rewrite ?Hu; assumption.
  - destruct (enforce_thread_safety (run_pool s)) eqn:E.
    { destruct (Hts eq_refl) as [Hc _]. discriminate Hc. }
    specialize (Hpl eq_refl).
    destruct (allocate_pops_head lk (run_pool s) n rest Hu)
      as (p1 & Ha & Hu1 & _ & _ & Hp1 & Hts1 & _); [left; rewrite E; reflexivity |].
    rewrite Ha in H. injection H as <- <-.
    rewrite Hpl in *. simpl in Hnd, Hk.
    constructor; simpl; rewrite ?Hu1, ?Hp1, ?Hts1, ?Hpl; simpl.
    + rewrite fmap_app, fmap_cons. simpl.
      rewrite <- Permutation_middle. rewrite <- fmap_app. exact Hnd.
    + rewrite <- Permutation_middle.
      inversion Hk as [| ? ? Hn Hrest]; subst.
      constructor; [exact Hn | exact Hrest].
    + intros Hc. congruence.
    + intros _. reflexivity.
Qed.

Lemma run_inv_deallocate lk (s : run_state) d p' :
  run_inv s ->
  In d (run_held s) ->
  rtsafe_memory_pool_deallocate lk (run_pool s) d = Done p' ->
  run_inv (mkrun p' (run_heap s) (hand_back d (run_held s))).
Proof.
  intros [Hnd Hk Hts Hpl] Hin H.
  destruct (enforce_thread_safety (run_pool s)) eqn:E.
  { destruct (Hts eq_refl) as [_ Hc]. rewrite Hc in Hin. destruct Hin. }
  specialize (Hpl eq_refl).
  unfold rtsafe_memory_pool_deallocate in H. simpl in H. rewrite E in H.
  simpl in H. injection H as <-.
  rewrite Hpl in *. simpl in Hnd, Hk.
  pose proof (hand_back_perm d _ Hin) as Hperm.
  rewrite Hperm in Hnd, Hk.
  constructor; simpl; rewrite ?Hpl, ?E; simpl.
  - unfold list_add_tail. rewrite <- app_assoc. simpl.
    rewrite fmap_app, fmap_cons in *. exact Hnd.
  - unfold list_add_tail. rewrite <- app_assoc. simpl.
    rewrite Forall_app, Forall_cons in *. exact Hk.
  - intros Hc. discriminate Hc.
  - intros _. reflexivity.
Qed.

Lemma reachable_run_inv malloc_ok mutex_ok (s : run_state) :
  reachable malloc_ok mutex_ok s -> run_inv s.
Proof.
  induction 1 as [fuel size min max ts h p h' Hc
                 | s lk r p' _ IH Ha
                 | s lk d p' _ IH Hin Hd
                 | s fuel p' h' _ IH Hs].
  - exact (run_inv_create _ _ _ _ _ _ _ _ _ _ Hc).
  - exact (run_inv_allocate _ _ _ _ IH Ha).
  - exact (run_inv_deallocate _ _ _ _ IH Hin Hd).
  - exact (run_inv_sleepy _ _ _ _ _ IH Hs).
Qed.

(** C2.  In every state that a pool reaches from its construction, through
    allocate, deallocate and maintenance in any order and with any outcome
    of the trylocks and of the system allocator: no chunk is in the unused
    list and in the pending list, no chunk is twice in a list, and the chunk
    of a pointer that allocate returned is in neither list, from the moment
    it is returned until it is passed back to deallocate. *)
Theorem chunks_in_one_place malloc_ok mutex_ok (s : run_state) :
  reachable malloc_ok mutex_ok s ->
  (forall n1 n2, In n1 (unused (run_pool s)) -> In n2 (pending (run_pool s)) ->
                 blk n1 <> blk n2) /\
  NoDup (unused (run_pool s)) /\ NoDup (pending (run_pool s)) /\
  (forall d n, In d (run_held s) ->
               In n (unused (run_pool s) ++ pending (run_pool s)) ->
               blk n <> blk d) /\
  (forall d, In d (run_held s) ->
             ~ In (data_node d) (unused (run_pool s) ++ pending (run_pool s))).
Proof.
  intros Hr. apply reachable_run_inv in Hr as [Hnd _ _ _].
  rewrite !fmap_app in Hnd.
  apply NoDup_app in Hnd as (Hu & Hdis1 & Hrest).
  apply NoDup_app in Hrest as (Hp & Hdis2 & Hh).
  assert (Hheld : forall d n, In d (run_held s) ->
            In n (unused (run_pool s) ++ pending (run_pool s)) -> blk n <> blk d).
  { intros d n Hd Hn Heq.
    apply list_elem_of_In in Hd. apply in_app_or in Hn as [Hn | Hn];
      apply list_elem_of_In in Hn.
    - apply (Hdis1 (blk n)); [apply list_elem_of_fmap; eauto |].
      apply elem_of_app. right. rewrite Heq. apply list_elem_of_fmap. eauto.
    - apply (Hdis2 (blk n)); [apply list_elem_of_fmap; eauto |].
      rewrite Heq. apply list_elem_of_fmap. eauto. }
  split; [| split; [| split; [| split]]].
  - intros n1 n2 H1 H2 Heq.
    apply list_elem_of_In in H1, H2.
    apply (Hdis1 (blk n1)); [apply list_elem_of_fmap; eauto |].
    apply elem_of_app. left. rewrite Heq. apply list_elem_of_fmap. eauto.
  - eapply NoDup_fmap_1. exact Hu.
  - eapply NoDup_fmap_1. exact Hp.
  - exact Hheld.
  - intros d Hd Hn. exact (Hheld d _ Hd Hn eq_refl).
Qed.

Lemma chunks_in_one_place_witness :
  exists s,
    reachable always always s /\
    run_held s = [node_data (mkptr 1 0)] /\
    unused (run_pool s) = [mkptr 2 0] /\
    (forall d n, In d (run_held s) ->
                 In n (unused (run_pool s) ++ pending (run_pool s)) ->
                 blk n <> blk d).
Proof.
  eexists. split; [| split; [| split]].
  - eapply (reach_allocate always always _ false).
    + eapply (reach_create always always 3 924 2 2 false empty_heap).
      vm_compute. reflexivity.
    + vm_compute. reflexivity.
  - reflexivity.
  - reflexivity.
  - match goal with |- context [run_held ?s] =>
      apply (chunks_in_one_place always always s) end.
    eapply (reach_allocate always always _ false).
    + eapply (reach_create always always 3 924 2 2 false empty_heap).
      vm_compute. reflexivity.
    + vm_compute. reflexivity.
Defined.

(** ** Destruction of a pool *)

Lemma free_unused_spec :
  forall un h,
    Z.of_nat (length un) < 2 ^ 32 ->
    exists h',
      free_unused (Z.of_nat (length un)) un h = Done ([], h') /\
      calls h' = calls h /\ live h' = live h ∖ blocks un /\
      mutexes h' = mutexes h.
Proof.
  induction un as [| n rest IH]; intros h Hb.
  - exists h. simpl. rewrite blocks_nil. repeat split. set_solver.
  - cbn [free_unused]. cbn [length] in *.
    destruct (Z.of_nat (S (length rest)) =? 0) eqn:E;
      [apply Z.eqb_eq in E; lia |].
    replace (wrap32 (Z.of_nat (S (length rest)) - 1))
      with (Z.of_nat (length rest)) by (rewrite wrap32_small; lia).
    destruct (IH (free n h)) as (h' & Hf & Hc & Hl & Hm); [lia |].
    exists h'. rewrite blocks_cons. simpl in *.
    repeat split; [exact Hf | exact Hc | rewrite Hl; set_solver | exact Hm].
Qed.

Lemma free_pending_spec :
  forall pend h,
    calls (free_pending pend h) = calls h /\
    live (free_pending pend h) = live h ∖ blocks pend /\
    mutexes (free_pending pend h) = mutexes h.
Proof.
  induction pend as [| n rest IH]; intros h; simpl.
  - rewrite blocks_nil. repeat split. set_solver.
  - destruct (IH (free n h)) as (Hc & Hl & Hm). rewrite blocks_cons.
    simpl in *. repeat split; [exact Hc | rewrite Hl; set_solver | exact Hm].
Qed.

(** Destroying an idle pool succeeds and frees its blocks and its mutex. *)
Lemma destroy_spec (p : rtsafe_memory_pool) (h : heap) :
  idle_pool p ->
  exists h',
    rtsafe_memory_pool_destroy p h = Done h' /\
    calls h' = calls h /\
    live h' = live h ∖ pool_blocks p /\
    mutexes h' = mutexes h ∖ pool_mutex p.
Proof.
  intros (Hused & Hcount & Hbound & Hplain).
  unfold rtsafe_memory_pool_destroy. rewrite Hused, Hcount. simpl.
  destruct (free_unused_spec (unused p) h Hbound) as (h1 & Hf & Hc & Hl & Hm).
  rewrite Hf. simpl. unfold pool_blocks, pool_mutex.
  destruct (enforce_thread_safety p) eqn:E.
  - destruct (free_pending_spec (pending p) h1) as (Hc2 & Hl2 & Hm2).
    eexists. split; [reflexivity |]. simpl.
    rewrite Hc2, Hl2, Hm2, Hc, Hl, Hm. repeat split; set_solver.
  - rewrite (Hplain eq_refl), blocks_nil.
    eexists. split; [reflexivity |]. simpl.
    rewrite Hc, Hl, Hm. repeat split; set_solver.
Qed.

Lemma all_blocks_app (a b : list rtsafe_memory_pool_generic) :
  all_blocks (a ++ b) = all_blocks a ∪ all_blocks b.
Proof. induction a as [| x a IH]; simpl; [| rewrite IH]; set_solver. Qed.

Lemma all_mutexes_app (a b : list rtsafe_memory_pool_generic) :
  all_mutexes (a ++ b) = all_mutexes a ∪ all_mutexes b.
Proof. induction a as [| x a IH]; simpl; [| rewrite IH]; set_solver. Qed.

Lemma all_blocks_rev (a : list rtsafe_memory_pool_generic) :
  all_blocks (rev a) = all_blocks a.
Proof.
  induction a as [| x a IH]; simpl; [reflexivity |].
  rewrite all_blocks_app, IH. simpl. set_solver.
Qed.

Lemma all_mutexes_rev (a : list rtsafe_memory_pool_generic) :
  all_mutexes (rev a) = all_mutexes a.
Proof.
  induction a as [| x a IH]; simpl; [reflexivity |].
  rewrite all_mutexes_app, IH. simpl. set_solver.
Qed.

Lemma destroy_pools_spec :
  forall ps h,
    Forall (fun pg => idle_pool (pg_pool pg)) ps ->
    exists h',
      destroy_pools ps h = Done h' /\
      calls h' = calls h /\
      live h' = live h ∖ all_blocks ps /\
      mutexes h' = mutexes h ∖ all_mutexes ps.
Proof.
  induction ps as [| pg rest IH]; intros h Hall.
  - exists h. simpl. repeat split; set_solver.
  - inversion Hall as [| ? ? Hpg Hrest]; subst.
    destruct (destroy_spec (pg_pool pg) h Hpg) as (h1 & Hd & Hc & Hl & Hm).
    destruct (IH h1 Hrest) as (h2 & Hd2 & Hc2 & Hl2 & Hm2).
    exists h2. simpl. rewrite Hd. simpl.
    rewrite Hc2, Hl2, Hm2, Hc, Hl, Hm.
    repeat split; [exact Hd2 | set_solver | set_solver].
Qed.

(** ** Construction of a pool, seen from the heap *)

Lemma shrink_unused_within max c un h :
  c <= max -> shrink_unused max c un h = Done (c, un, h).
Proof.
  intros H. destruct un as [| n rest]; simpl;
    destruct (c >? max) eqn:E; try lia; reflexivity.
Qed.

Lemma grow_pending_count malloc_ok fuel min :
  forall c pend h c' pend' h',
    0 <= c -> min < 2 ^ 32 ->
    grow_pending malloc_ok fuel min c pend h = Done (c', pend', h') ->
    c' <= Z.max c min /\
    c' - c = Z.of_nat (length pend') - Z.of_nat (length pend).
Proof.
  induction fuel as [| f IH]; intros c pend h c' pend' h' Hc Hmin H; simpl in H.
  - destruct (c <? min) eqn:E; [discriminate |]. injection H as <- <- <-. lia.
  - destruct (c <? min) eqn:E.
    + destruct (malloc malloc_ok h) as [[n |] h1].
      * rewrite (wrap32_small (c + 1)) in H by lia.
        apply IH in H; [| lia | lia].
        unfold list_add_tail in H. rewrite length_app in H. simpl in H. lia.
      * injection H as <- <- <-. lia.
    + injection H as <- <- <-. lia.
Qed.

Lemma grow_unused_count malloc_ok fuel min :
  forall c un h b c' un' h',
    0 <= c -> min < 2 ^ 32 ->
    grow_unused malloc_ok fuel min c un h = Done (b, c', un', h') ->
    c' <= Z.max c min /\
    c' - c = Z.of_nat (length un') - Z.of_nat (length un).
Proof.
  induction fuel as [| f IH]; intros c un h b c' un' h' Hc Hmin H; simpl in H.
  - destruct (c <? min) eqn:E; [discriminate |]. injection H as <- <- <- <-. lia.
  - destruct (c <? min) eqn:E.
    + destruct (malloc malloc_ok h) as [[n |] h1].
      * rewrite (wrap32_small (c + 1)) in H by lia.
        apply IH in H; [| lia | lia].
        unfold list_add_tail in H. rewrite length_app in H. simpl in H. lia.
      * injection H as <- <- <- <-. lia.
    + injection H as <- <- <- <-. lia.
Qed.

(** The maintenance pass that construction runs on the empty pool only
    allocates: at most as many chunks as the minimum, linked into the
    pending list of a thread-safe pool and into the unused list
    otherwise. *)
Lemma sleepy_initial malloc_ok fuel pb size min max ts h p' h' :
  0 <= min < 2 ^ 32 -> min <= max ->
  rtsafe_memory_pool_sleepy malloc_ok fuel
    (mkpool pb size min max 0 [] 0 ts 0 []) h = Done (p', h') ->
  exists new,
    fresh_in h h' new /\ (calls h <= calls h')%nat /\
    live h' = live h ∪ blocks new /\ mutexes h' = mutexes h /\
    Z.of_nat (length new) <= min /\
    p' = if ts
         then mkpool pb size min max 0 [] 0 true 0 new
         else mkpool pb size min max 0 new (Z.of_nat (length new)) false 0 [].
Proof.
  intros Hmin Hmax H. unfold rtsafe_memory_pool_sleepy in H. simpl in H.
  destruct ts.
  - destruct (min <? max) eqn:E; simpl in H; [| discriminate].
    destruct (grow_pending _ _ _ _ _ _) as [[[c1 pd1] h1] | |] eqn:Hg;
      simpl in H; try discriminate.
    pose proof (grow_pending_count _ _ _ _ _ _ _ _ _ (Z.le_refl 0) (proj2 Hmin) Hg)
      as [Hb Hlen].
    apply grow_pending_spec in Hg as (new & -> & Hfr & Hle & Hl & Hm).
    simpl in Hlen.
    rewrite shrink_pending_within in H by lia.
    injection H as <- <-. exists new.
    repeat split; try assumption; try lia. apply Hfr. apply Hfr.
  - destruct (grow_unused _ _ _ _ _ _) as [[[[b c1] un1] h1] | |] eqn:Hg;
      simpl in H; try discriminate.
    pose proof (grow_unused_count _ _ _ _ _ _ _ _ _ _ (Z.le_refl 0) (proj2 Hmin) Hg)
      as [Hb Hlen].
    apply grow_unused_spec in Hg as (new & -> & Hfr & Hle & Hl & Hm).
    simpl in Hlen.
    assert (Hc1 : c1 = Z.of_nat (length new)) by lia. subst c1.
    assert (Hp : p' = mkpool pb size min max 0 new (Z.of_nat (length new)) false 0 []
                 /\ h' = h1).
    { destruct b.
      - rewrite shrink_unused_within in H by lia. simpl in H.
        injection H as <- <-. split; reflexivity.
      - injection H as <- <-. split; reflexivity. }
    destruct Hp as [-> ->]. exists new.
    repeat split; try assumption; try lia. apply Hfr. apply Hfr.
Qed.

Lemma create_spec malloc_ok mutex_ok fuel size min max ts h r h' :
  heap_wf h -> 0 <= min < 2 ^ 32 ->
  rtsafe_memory_pool_create malloc_ok mutex_ok fuel size min max ts h = Done (r, h') ->
  heap_wf h' /\ (calls h <= calls h')%nat /\
  match r with
  | None => live h' = live h /\ mutexes h' = mutexes h
  | Some p =>
      idle_pool p /\
      live h' = live h ∪ pool_blocks p /\
      mutexes h' = mutexes h ∪ pool_mutex p /\
      (forall b, b ∈ pool_blocks p -> (calls h <= b)%nat)
  end.
Proof.
  intros Hwf Hmin H. unfold rtsafe_memory_pool_create in H.
  destruct (min <=? max) eqn:Hle; simpl in H; [| discriminate].
  apply Z.leb_le in Hle.
  unfold malloc in H. destruct (malloc_ok (calls h)).
  2:{ injection H as <- <-. simpl. split; [| split; [lia | split; reflexivity]].
      intros b Hb. simpl in *. apply Hwf in Hb. lia. }
  simpl in H.
  assert (Hc : calls h ∉ live h ∪ mutexes h).
  { intros Hin. apply Hwf in Hin. lia. }
  assert (Hpool : forall g p1 h2,
    calls g = S (calls h) ->
    live g = {[calls h]} ∪ live h ->
    rtsafe_memory_pool_sleepy malloc_ok fuel
      (mkpool (calls h) size min max 0 [] 0 ts 0 []) g = Done (p1, h2) ->
    (forall b, b ∈ live h2 -> (b < calls h2)%nat) /\ (S (calls h) <= calls h2)%nat /\
    idle_pool p1 /\ live h2 = live h ∪ pool_blocks p1 /\
    mutexes h2 = mutexes g /\ pool_mutex p1 = (if ts then {[calls h]} else ∅) /\
    (forall b, b ∈ pool_blocks p1 -> (calls h <= b)%nat)).
  { intros g p1 h2 Hcg Hlg Hs.
    apply sleepy_initial in Hs as (new & Hfr & Hle2 & Hl & Hm & Hlen & ->);
      [| exact Hmin | exact Hle].
    assert (Hpb : pool_blocks (if ts
              then mkpool (calls h) size min max 0 [] 0 true 0 new
              else mkpool (calls h) size min max 0 new (Z.of_nat (length new)) false 0 [])
            = {[calls h]} ∪ blocks new).
    { destruct ts; unfold pool_blocks; simpl; rewrite blocks_nil; set_solver. }
    assert (Hnew : forall b, b ∈ blocks new -> (S (calls h) <= b < calls h2)%nat).
    { intros b Hb. rewrite <- Hcg. exact (fresh_in_blocks _ _ _ _ Hfr Hb). }
    repeat split.
    - intros b Hb. rewrite Hl, Hlg in Hb.
      apply elem_of_union in Hb as [Hb | Hb]; [| apply Hnew in Hb; lia].
      apply elem_of_union in Hb as [Hb | Hb].
      + apply elem_of_singleton in Hb. lia.
      + assert (b < calls h)%nat by (apply Hwf; set_solver). lia.
    - lia.
    - destruct ts; reflexivity.
    - destruct ts; simpl; [reflexivity | reflexivity].
    - destruct ts; simpl; lia.
    - destruct ts; simpl; [discriminate | reflexivity].
    - rewrite Hpb, Hl, Hlg. set_solver.
    - exact Hm.
    - destruct ts; reflexivity.
    - intros b Hb. rewrite Hpb in Hb.
      apply elem_of_union in Hb as [Hb | Hb]; [| apply Hnew in Hb; lia].
      apply elem_of_singleton in Hb. lia. }
  destruct ts.
  - destruct (mutex_ok (calls h)).
    + destruct (rtsafe_memory_pool_sleepy _ _ _ _) as [[p1 h2] | |] eqn:Hs;
        simpl in H; try discriminate.
      injection H as <- <-.
      apply Hpool in Hs as (Hw2 & Hle2 & Hidle & Hl & Hm & Hpm & Hlow);
        [| reflexivity | reflexivity].
      simpl in Hm. split; [| split; [lia |]].
      * intros b Hb. apply elem_of_union in Hb as [Hb | Hb]; [exact (Hw2 b Hb) |].
        rewrite Hm in Hb. apply elem_of_union in Hb as [Hb | Hb].
        -- apply elem_of_singleton in Hb. lia.
        -- assert (b < calls h)%nat by (apply Hwf; set_solver). lia.
      * repeat split; try apply Hidle; try assumption.
        rewrite Hm, Hpm. set_solver.
    + injection H as <- <-. simpl. split; [| split; [lia |]].
      * intros b Hb. simpl in *.
        assert (b < calls h)%nat by (apply Hwf; set_solver). lia.
      * split; [set_solver | reflexivity].
  - destruct (rtsafe_memory_pool_sleepy _ _ _ _) as [[p1 h2] | |] eqn:Hs;
      simpl in H; try discriminate.
    injection H as <- <-.
    apply Hpool in Hs as (Hw2 & Hle2 & Hidle & Hl & Hm & Hpm & Hlow);
      [| reflexivity | reflexivity].
    simpl in Hm. split; [| split; [lia |]].
    * intros b Hb. apply elem_of_union in Hb as [Hb | Hb]; [exact (Hw2 b Hb) |].
      rewrite Hm in Hb.
      assert (b < calls h)%nat by (apply Hwf; set_solver). lia.
    * repeat split; try apply Hidle; try assumption.
      rewrite Hm, Hpm. set_solver.
Qed.

(** Construction of a pool returns when the bounds are in order and the
    fuel exceeds the minimum. *)
Lemma create_total malloc_ok mutex_ok fuel size min max ts h :
  0 <= min < 2 ^ 32 -> min <= max -> (ts = true -> min < max) ->
  (Z.to_nat min < fuel)%nat ->
  exists r h',
    rtsafe_memory_pool_create malloc_ok mutex_ok fuel size min max ts h = Done (r, h').
Proof.
  intros Hmin Hmax Hts Hfuel. unfold rtsafe_memory_pool_create.
  destruct (min <=? max) eqn:Hle; [| lia]. simpl.
  destruct (malloc malloc_ok h) as [[pp |] h1]; [| eexists; eexists; reflexivity].
  assert (Hs : forall g, exists p1 h2,
    rtsafe_memory_pool_sleepy malloc_ok fuel
      (mkpool (blk pp) size min max 0 [] 0 ts 0 []) g = Done (p1, h2)).
  { intros g. unfold rtsafe_memory_pool_sleepy. simpl. destruct ts.
    - destruct (min <? max) eqn:E; [| specialize (Hts eq_refl); lia]. simpl.
      destruct (grow_pending_total malloc_ok fuel min 0 [] g)
        as [[[c1 pd1] h2] Hg]; [lia | lia | rewrite Z.sub_0_r; exact Hfuel |].
      rewrite Hg. simpl.
      destruct (shrink_pending max c1 pd1 h2) as [[c2 pd2] h3].
      eexists. eexists. reflexivity.
    - destruct (grow_unused_total malloc_ok fuel min 0 [] g)
        as [[[[b c1] un1] h2] Hg]; [lia | lia | rewrite Z.sub_0_r; exact Hfuel |].
      rewrite Hg.
      apply grow_unused_count in Hg as [Hb _]; [| lia | lia].
      destruct b; [| eexists; eexists; reflexivity].
      rewrite shrink_unused_within by lia. simpl.
      eexists. eexists. reflexivity. }
  destruct ts.
  - destruct (mutex_ok (blk pp)); [| eexists; eexists; reflexivity].
    destruct (Hs (mutex_init (blk pp) h1)) as (p1 & h2 & ->). simpl.
    eexists. eexists. reflexivity.
  - destruct (Hs h1) as (p1 & h2 & ->). simpl.
    eexists. eexists. reflexivity.
Qed.

(** ** Construction of the tiered allocator *)

Lemma pool_mutex_blocks (p : rtsafe_memory_pool) : pool_mutex p ⊆ pool_blocks p.
Proof. unfold pool_mutex, pool_blocks. destruct (enforce_thread_safety p); set_solver. Qed.

(** When the creation of a pool fails, the loop destroys the pools created
    before it, last first, and leaves through [fail_free_pools]. *)
Lemma create_pools_failure malloc_ok mutex_ok fuel n size built pmin pmax ts h h1 :
  Forall (fun pg => idle_pool (pg_pool pg)) built ->
  rtsafe_memory_pool_create malloc_ok mutex_ok fuel (wrap64 (size - DATA_SUB))
    pmin pmax ts h = Done (None, h1) ->
  exists h2,
    create_pools malloc_ok mutex_ok fuel (S n) size built pmin pmax ts h
      = Done (None, h2) /\
    calls h2 = calls h1 /\
    live h2 = live h1 ∖ all_blocks built /\
    mutexes h2 = mutexes h1 ∖ all_mutexes built.
Proof.
  intros Hidle Hc. simpl. rewrite Hc. simpl.
  destruct (destroy_pools_spec (rev built) h1) as (h2 & Hd & Hcalls & Hl & Hm).
  { apply Forall_rev. exact Hidle. }
  exists h2. rewrite Hd. simpl.
  rewrite all_blocks_rev in Hl. rewrite all_mutexes_rev in Hm.
  repeat split; assumption.
Qed.

Lemma create_pools_spec malloc_ok mutex_ok fuel pmin pmax ts :
  0 <= pmin < 2 ^ 32 -> pmin <= pmax -> (ts = true -> pmin < pmax) ->
  (Z.to_nat pmin < fuel)%nat ->
  forall n size built h,
    heap_wf h ->
    Forall (fun pg => idle_pool (pg_pool pg)) built ->
    exists r h',
      create_pools malloc_ok mutex_ok fuel n size built pmin pmax ts h = Done (r, h') /\
      (r = None ->
       live h' = live h ∖ all_blocks built /\
       mutexes h' = mutexes h ∖ all_mutexes built).
Proof.
  intros Hmin Hmax Hts Hfuel.
  induction n as [| n IH]; intros size built h Hwf Hidle.
  - exists (Some built), h. split; [reflexivity | discriminate].
  - destruct (create_total malloc_ok mutex_ok fuel (wrap64 (size - DATA_SUB))
                pmin pmax ts h Hmin Hmax Hts Hfuel) as (r & h1 & Hc).
    pose proof (create_spec _ _ _ _ _ _ _ _ _ _ Hwf Hmin Hc) as (Hwf1 & Hle & Hr).
    destruct r as [p |].
    + destruct Hr as (Hp & Hl & Hm & Hlow).
      destruct (IH (wrap64 (Z.shiftl size 1))
                   (built ++ [mkgeneric (wrap64 (size - DATA_SUB)) p]) h1 Hwf1)
        as (r' & h' & Hrec & Hnone).
      { apply Forall_app. split; [exact Hidle |]. constructor; [exact Hp | constructor]. }
      exists r', h'. simpl. rewrite Hc. simpl. split; [exact Hrec |].
      intros Hr'. destruct (Hnone Hr') as [Hl' Hm'].
      rewrite all_blocks_app in Hl'. rewrite all_mutexes_app in Hm'.
      simpl in Hl', Hm'.
      assert (Hfresh : forall b, b ∈ pool_blocks p -> b ∉ live h ∪ mutexes h).
      { intros b Hb Hin. apply Hlow in Hb. apply Hwf in Hin. lia. }
      pose proof (pool_mutex_blocks p) as Hsub.
      rewrite Hl', Hm', Hl, Hm. split; set_solver.
    + destruct Hr as [Hl Hm].
      destruct (create_pools_failure malloc_ok mutex_ok fuel n size built
                  pmin pmax ts h h1 Hidle Hc) as (h2 & Hcp & _ & Hl2 & Hm2).
      exists None, h2. split; [exact Hcp |].
      intros _. rewrite Hl2, Hm2, Hl, Hm. split; reflexivity.
Qed.

(** The loop that counts the size classes ends within its 64 iterations. *)
Lemma count_pools_no_timeout max_size :
  forall fuel pools_count,
    65 <= pools_count + Z.of_nat fuel -> pools_count <= 64 ->
    count_pools fuel max_size pools_count <> Timeout.
Proof.
  induction fuel as [| f IH]; intros pc Hsum Hpc; [lia |].
  simpl.
  destruct (wrap64 (Z.shiftl DATA_MIN pc) <? wrap64 (max_size + DATA_SUB));
    [| discriminate].
  destruct (pc + 1 >? 64) eqn:E; [discriminate |].
  apply IH; lia.
Qed.

(** With preallocation bounds in order (min <= max, min < max for
    thread-safe pools, min within the 32-bit counters) and enough fuel,
    [rtsafe_memory_init] returns unless the class count trips [assert(0)],
    and whenever it reports failure, through any of its three labels, no
    handle is returned and the heap is as it was before the call. *)
Lemma init_reported_failure_restores_heap
    malloc_ok mutex_ok fuel max_size prealloc_min prealloc_max ts h :
  heap_wf h ->
  0 <= prealloc_min < 2 ^ 32 ->
  prealloc_min <= prealloc_max ->
  (ts = true -> prealloc_min < prealloc_max) ->
  (Z.to_nat prealloc_min < fuel)%nat ->
  match rtsafe_memory_init malloc_ok mutex_ok fuel max_size
                           prealloc_min prealloc_max ts h with
  | Done (e, h') =>
      init_returns e = false ->
      init_handle e = None /\ live h' = live h /\ mutexes h' = mutexes h
  | Abort => count_pools 64 max_size 1 = Abort
  | Timeout => False
  end.
Proof.
  intros Hwf Hmin Hmax Hts Hfuel. unfold rtsafe_memory_init, malloc.
  destruct (malloc_ok (calls h)).
  2:{ simpl. intros _. repeat split. }
  destruct (count_pools 64 max_size 1) as [pc | |] eqn:Hcount; simpl.
  3:{ apply count_pools_no_timeout in Hcount; [exact Hcount | simpl; lia | lia]. }
  2:{ reflexivity. }
  clear Hcount.
  assert (Hc : calls h ∉ live h ∪ mutexes h).
  { intros Hin. apply Hwf in Hin. lia. }
  destruct (malloc_ok (S (calls h))).
  2:{ simpl. intros _. split; [reflexivity |]. split; [set_solver | reflexivity]. }
  set (h2 := mkheap (S (S (calls h))) ({[S (calls h)]} ∪ ({[calls h]} ∪ live h))
                    (mutexes h)).
  assert (Hwf2 : heap_wf h2).
  { intros b Hb. unfold h2 in *. simpl in *.
    destruct (decide (b = S (calls h))) as [-> | Hn1]; [lia |].
    destruct (decide (b = calls h)) as [-> | Hn2]; [lia |].
    assert (b < calls h)%nat by (apply Hwf; set_solver). lia. }
  destruct (create_pools_spec malloc_ok mutex_ok fuel prealloc_min prealloc_max ts
              Hmin Hmax Hts Hfuel (Z.to_nat pc) DATA_MIN [] h2 Hwf2 (Forall_nil_2 _))
    as (r & h3 & Hcp & Hnone).
  rewrite Hcp. simpl. destruct r as [ps |]; simpl.
  - intros Hfalse. discriminate Hfalse.
  - intros _. destruct (Hnone eq_refl) as [Hl Hm]. simpl in Hl, Hm.
    assert (Hc2 : S (calls h) ∉ live h).
    { intros Hin. assert (S (calls h) < calls h)%nat by (apply Hwf; set_solver). lia. }
    split; [reflexivity |]. rewrite Hl, Hm.
    clear Hcp Hnone Hwf2 Hl Hm Hfuel Hmin Hmax Hts.
    split; [set_solver | set_solver].
Qed.

(** The same on thread-safe pools, when [pthread_mutex_init] fails for the
    second pool: the first pool, its pending chunk and its mutex are
    released with the rest. *)
Lemma init_mutex_failure_releases_everything :
  rtsafe_memory_init always (fun b => (b <? 4)%nat) 2 2048 1 2 true empty_heap
    = Done (Init_fail_free_pools, mkheap 5 ∅ ∅).
Proof. vm_compute. reflexivity. Qed.

(** ** The life of a pool *)

Lemma reachable_from_reachable malloc_ok mutex_ok h0 s :
  reachable_from malloc_ok mutex_ok h0 s -> reachable malloc_ok mutex_ok s.
Proof.
  induction 1 as [fuel size min max ts p h' Hc
                 | s lk r p' _ IH Ha
                 | s lk d p' _ IH Hin Hd
                 | s fuel p' h' _ IH Hs].
  - exact (reach_create _ _ _ _ _ _ _ _ _ _ Hc).
  - exact (reach_allocate _ _ _ _ _ _ IH Ha).
  - exact (reach_deallocate _ _ _ _ _ _ IH Hin Hd).
  - exact (reach_sleepy _ _ _ _ _ _ IH Hs).
Qed.

Lemma reachable_reachable_from malloc_ok mutex_ok s :
  reachable malloc_ok mutex_ok s ->
  exists h0, reachable_from malloc_ok mutex_ok h0 s.
Proof.
  induction 1 as [fuel size min max ts h p h' Hc
                 | s lk r p' _ [h0 IH] Ha
                 | s lk d p' _ [h0 IH] Hin Hd
                 | s fuel p' h' _ [h0 IH] Hs].
  - exists h. exact (from_create _ _ _ _ _ _ _ _ _ _ Hc).
  - exists h0. exact (from_allocate _ _ _ _ _ _ _ IH Ha).
  - exists h0. exact (from_deallocate _ _ _ _ _ _ _ IH Hin Hd).
  - exists h0. exact (from_sleepy _ _ _ _ _ _ _ IH Hs).
Qed.

Lemma wrap32_succ (z : Z) : wrap32 (wrap32 z + 1) = wrap32 (z + 1).
Proof. unfold wrap32. apply Z.add_mod_idemp_l. lia. Qed.

Lemma wrap32_pred (z : Z) : wrap32 (wrap32 z - 1) = wrap32 (z - 1).
Proof. unfold wrap32. apply Zminus_mod_idemp_l. Qed.

Lemma wrap32_idem (z : Z) : wrap32 (wrap32 z) = wrap32 z.
Proof. unfold wrap32. apply Z.mod_mod. lia. Qed.

(** The loops of the maintenance pass of a pool that is not thread-safe keep
    the counter equal to the length of the list, as a 32-bit number. *)
Lemma grow_unused_tracks malloc_ok fuel min :
  forall c un h b c' un' h',
    c = wrap32 (Z.of_nat (length un)) ->
    grow_unused malloc_ok fuel min c un h = Done (b, c', un', h') ->
    c' = wrap32 (Z.of_nat (length un')).
Proof.
  induction fuel as [| f IH]; intros c un h b c' un' h' Hc H; simpl in H.
  - destruct (c <? min); [discriminate |]. injection H as <- <- <- <-. exact Hc.
  - destruct (c <? min).
    + destruct (malloc malloc_ok h) as [[n |] h1].
      * apply IH in H; [exact H |].
        unfold list_add_tail. rewrite length_app. simpl.
        rewrite Hc, wrap32_succ. f_equal. lia.
      * injection H as <- <- <- <-. exact Hc.
    + injection H as <- <- <- <-. exact Hc.
Qed.

Lemma shrink_unused_tracks max :
  forall un c h c' un' h',
    c = wrap32 (Z.of_nat (length un)) ->
    shrink_unused max c un h = Done (c', un', h') ->
    c' = wrap32 (Z.of_nat (length un')).
Proof.
  induction un as [| n rest IH]; intros c h c' un' h' Hc H; simpl in H.
  - destruct (c >? max); [discriminate |]. injection H as <- <- <-. exact Hc.
  - destruct (c >? max).
    + apply IH in H; [exact H |].
      rewrite Hc, wrap32_pred. f_equal. simpl length. lia.
    + injection H as <- <- <-. exact Hc.
Qed.

Lemma sleepy_tracks malloc_ok fuel p h p' h' :
  unused_count p = wrap32 (Z.of_nat (length (unused p))) ->
  rtsafe_memory_pool_sleepy malloc_ok fuel p h = Done (p', h') ->
  unused_count p' = wrap32 (Z.of_nat (length (unused p'))).
Proof.
  intros Hc H. unfold rtsafe_memory_pool_sleepy in H.
  destruct (enforce_thread_safety p).
  - destruct (min_preallocated p <? max_preallocated p); simpl in H;
      [| discriminate].
    destruct (grow_pending _ _ _ _ _ _) as [[[c1 pd1] h1] | |];
      simpl in H; try discriminate.
    destruct (shrink_pending _ _ _ _) as [[c2 pd2] h2].
    injection H as <- <-. simpl. exact Hc.
  - destruct (grow_unused _ _ _ _ _ _) as [[[[b c1] un1] h1] | |] eqn:Hg;
      simpl in H; try discriminate.
    apply grow_unused_tracks in Hg; [| exact Hc].
    destruct b.
    + destruct (shrink_unused _ _ _ _) as [[[c2 un2] h2] | |] eqn:Hs;
        simpl in H; try discriminate.
      injection H as <- <-. simpl.
      exact (shrink_unused_tracks _ _ _ _ _ _ _ Hg Hs).
    + injection H as <- <-. simpl. exact Hg.
Qed.

Lemma blocks_disjoint_of_NoDup (a b : list ptr) :
  NoDup (blk <$> (a ++ b)) -> blocks a ## blocks b.
Proof.
  rewrite fmap_app. intros Hnd. apply NoDup_app in Hnd as (_ & Hdis & _).
  intros x Ha Hb. apply (Hdis x).
  - unfold blocks in Ha. apply elem_of_list_to_set in Ha. exact Ha.
  - unfold blocks in Hb. apply elem_of_list_to_set in Hb. exact Hb.
Qed.

(** After a maintenance pass the chunks freed, the chunks left in the list
    and the chunks elsewhere are pairwise distinct. *)
Lemma maintenance_nodup (l new gone l' rest : list ptr) (h h' : heap) :
  NoDup (blk <$> (l ++ rest)) ->
  Forall (fun n => (blk n < calls h)%nat) (l ++ rest) ->
  fresh_in h h' new ->
  l ++ new = gone ++ l' ->
  NoDup (blk <$> (gone ++ l' ++ rest)).
Proof.
  intros Hnd Hk [Hnew Hf] Heq.
  rewrite app_assoc, <- Heq.
  rewrite !fmap_app in *.
  apply NoDup_app in Hnd as (Hl & Hdis & Hrest).
  rewrite Forall_app in Hk. destruct Hk as [Hkl Hkr].
  rewrite Forall_forall in Hkl, Hkr, Hf.
  apply NoDup_app. split; [| split]; [| | exact Hrest].
  - apply NoDup_app. split; [exact Hl |]. split; [| exact Hnew].
    intros b Hb Hb'.
    apply list_elem_of_fmap in Hb as (n & -> & Hn).
    apply list_elem_of_fmap in Hb' as (n' & Hbb & Hn').
    apply Hkl in Hn. apply Hf in Hn'. lia.
  - intros b Hb Hb'. apply elem_of_app in Hb as [Hb | Hb].
    + exact (Hdis b Hb Hb').
    + apply list_elem_of_fmap in Hb as (n & -> & Hn).
      apply list_elem_of_fmap in Hb' as (n' & Hbb & Hn').
      apply Hkr in Hn'. apply Hf in Hn. lia.
Qed.

Lemma maintenance_live (A L N G L' : gset nat) :
  L ∪ N = G ∪ L' -> G ## A -> G ## L' ->
  (A ∪ L ∪ N) ∖ G = A ∪ L'.
Proof. set_solver. Qed.

Lemma blocks_hand_back (d : ptr) (held : list ptr) :
  In d held ->
  blocks held = {[blk d]} ∪ blocks (hand_back d held) /\
  length held = S (length (hand_back d held)).
Proof.
  induction held as [| x rest IH]; intros Hin; [destruct Hin |].
  simpl. destruct (decide (x = d)) as [-> | Hne].
  - rewrite blocks_cons. split; reflexivity.
  - destruct Hin as [-> | Hin]; [congruence |].
    destruct (IH Hin) as [Hb Hl]. rewrite !blocks_cons, Hb. simpl.
    split; [set_solver | lia].
Qed.

(** Allocate and deallocate when the steps under the mutex do not run. *)
Lemma allocate_plain (lk : bool) (p : rtsafe_memory_pool) (n : ptr) (rest : list ptr) :
  unused p = n :: rest ->
  enforce_thread_safety p && lk = false ->
  rtsafe_memory_pool_allocate lk p
    = (Some (node_data n),
       set_used_count (wrap32 (used_count p + 1))
         (set_unused rest (wrap32 (unused_count p - 1)) p)).
Proof.
  intros Hu Hno. unfold rtsafe_memory_pool_allocate. rewrite Hu. simpl.
  rewrite Hno. reflexivity.
Qed.

Lemma deallocate_plain (lk : bool) (p : rtsafe_memory_pool) (d : ptr) :
  enforce_thread_safety p && lk = false ->
  rtsafe_memory_pool_deallocate lk p d
    = Done (set_used_count (wrap32 (used_count p - 1))
              (set_unused (unused p ++ [data_node d])
                          (wrap32 (unused_count p + 1)) p)).
Proof.
  intros Hno. unfold rtsafe_memory_pool_deallocate. simpl.
  rewrite Hno. reflexivity.
Qed.
Lemma maintenance_live_pending (A L N G L' : gset nat) (pb : nat) :
  L ∪ N = G ∪ L' -> G ## A ∪ {[pb]} -> G ## L' ->
  (A ∪ ({[pb]} ∪ ∅ ∪ L) ∪ ∅ ∪ N) ∖ G = A ∪ ({[pb]} ∪ ∅ ∪ L') ∪ ∅.
Proof. set_solver. Qed.

Lemma maintenance_live_unused (A L N G L' H : gset nat) (pb : nat) :
  L ∪ N = G ∪ L' -> G ## A ∪ {[pb]} ∪ H -> G ## L' ->
  (A ∪ ({[pb]} ∪ L ∪ ∅) ∪ H ∪ N) ∖ G = A ∪ ({[pb]} ∪ L' ∪ ∅) ∪ H.
Proof. set_solver. Qed.

Lemma life_inv_sleepy malloc_ok fuel h0 (s : run_state) p' h' :
  heap_wf h0 ->
  run_inv s ->
  life_inv h0 s ->
  rtsafe_memory_pool_sleepy malloc_ok fuel (run_pool s) (run_heap s) = Done (p', h') ->
  life_inv h0 (mkrun p' h' (run_held s)).
Proof.
  intros Hwf [Hnd Hk Hts Hpl] [Hlive Hmut Hcalls Hch] H.
  apply sleepy_spec in H
    as (new & gone & Hfr & Hle & Hl & Hm & Hpb & Hts' & Hused' & Hlists).
  assert (Hnewpb : Forall (fun n => (pool_blk (run_pool s) < blk n)%nat) new).
  { destruct Hfr as [_ Hf]. eapply Forall_impl; [exact Hf |].
    simpl. intros n Hn. lia. }
  assert (Hold : forall b, b ∈ live h0 ∪ mutexes h0 -> (b < calls h0)%nat)
    by exact Hwf.
  assert (Hpm : pool_mutex p' = pool_mutex (run_pool s)).
  { unfold pool_mutex. rewrite Hts', Hpb. reflexivity. }
  destruct (enforce_thread_safety (run_pool s)) eqn:E.
  - destruct (Hts eq_refl) as [Hu Hh].
    destruct Hlists as (Hu' & _ & Hpd).
    rewrite Hu, Hh in Hnd, Hk, Hch. simpl in Hnd, Hk, Hch.
    rewrite app_nil_r in Hch.
    pose proof (maintenance_nodup _ _ _ _ [] _ _ Hnd Hk Hfr Hpd) as Hnd2.
    rewrite app_nil_r in Hnd2.
    pose proof (blocks_disjoint_of_NoDup _ _ Hnd2) as Hdis.
    assert (Hall : Forall (fun n => (pool_blk (run_pool s) < blk n)%nat) (gone ++ pending p')).
    { rewrite <- Hpd. apply Forall_app. split; assumption. }
    apply Forall_app in Hall as [Hgone Hpend'].
    assert (Hgone_b : forall b, b ∈ blocks gone -> (pool_blk (run_pool s) < b)%nat).
    { intros b Hb. apply elem_of_blocks in Hb as (n & Hn & <-).
      rewrite Forall_forall in Hgone. exact (Hgone n Hn). }
    assert (Hsets : blocks (pending (run_pool s)) ∪ blocks new
                    = blocks gone ∪ blocks (pending p')).
    { rewrite <- !blocks_app, Hpd. reflexivity. }
    constructor; simpl.
    + rewrite Hl, Hlive, Hh, blocks_nil. unfold pool_blocks.
      rewrite Hpb, Hu', Hu, blocks_nil.
      assert (HA : blocks gone ## live h0 ∪ {[pool_blk (run_pool s)]}).
      { intros b Hb HbA. apply Hgone_b in Hb.
        apply elem_of_union in HbA as [HbA | HbA].
        - assert (b < calls h0)%nat by (apply Hold; set_solver). lia.
        - apply elem_of_singleton in HbA. lia. }
      apply maintenance_live_pending; assumption.
    + rewrite Hm, Hmut, Hpm. reflexivity.
    + rewrite Hpb. lia.
    + rewrite Hu', Hu, Hh, Hpb. simpl. rewrite app_nil_r. exact Hpend'.
  - specialize (Hpl eq_refl). destruct Hlists as (Hpd & Hunl).
    rewrite Hpl in Hnd, Hk, Hch. simpl in Hnd, Hk, Hch.
    pose proof (maintenance_nodup _ _ _ _ _ _ _ Hnd Hk Hfr Hunl) as Hnd2.
    pose proof (blocks_disjoint_of_NoDup _ _ Hnd2) as Hdis.
    rewrite blocks_app in Hdis.
    apply Forall_app in Hch as [Hchu Hchh].
    assert (Hall : Forall (fun n => (pool_blk (run_pool s) < blk n)%nat) (gone ++ unused p')).
    { rewrite <- Hunl. apply Forall_app. split; assumption. }
    apply Forall_app in Hall as [Hgone Hun1].
    assert (Hgone_b : forall b, b ∈ blocks gone -> (pool_blk (run_pool s) < b)%nat).
    { intros b Hb. apply elem_of_blocks in Hb as (n & Hn & <-).
      rewrite Forall_forall in Hgone. exact (Hgone n Hn). }
    assert (Hsets : blocks (unused (run_pool s)) ∪ blocks new
                    = blocks gone ∪ blocks (unused p')).
    { rewrite <- !blocks_app, Hunl. reflexivity. }
    constructor; simpl.
    + rewrite Hl, Hlive. unfold pool_blocks.
      rewrite Hpb, Hpd, Hpl, blocks_nil.
      assert (HA : blocks gone ## live h0 ∪ {[pool_blk (run_pool s)]}
                                  ∪ blocks (run_held s)).
      { intros b Hb HbA.
        apply elem_of_union in HbA as [HbA | HbA];
          [| apply (Hdis b Hb); apply elem_of_union; right; exact HbA].
        apply Hgone_b in Hb.
        apply elem_of_union in HbA as [HbA | HbA].
        - assert (b < calls h0)%nat by (apply Hold; set_solver). lia.
        - apply elem_of_singleton in HbA. lia. }
      assert (Hdis' : blocks gone ## blocks (unused p')).
      { intros b Hb Hb'. apply (Hdis b Hb). apply elem_of_union. left. exact Hb'. }
      apply maintenance_live_unused; assumption.
    + rewrite Hm, Hmut, Hpm. reflexivity.
    + rewrite Hpb. lia.
    + rewrite Hpd, Hpl, Hpb. simpl. apply Forall_app. split; assumption.
Qed.

Lemma life_inv_allocate lk h0 (s : run_state) r p' :
  run_inv s ->
  life_inv h0 s ->
  rtsafe_memory_pool_allocate lk (run_pool s) = (r, p') ->
  life_inv h0 (mkrun p' (run_heap s) (hold r (run_held s))).
Proof.
  intros [Hnd Hk Hts Hpl] [Hlive Hmut Hcalls Hch] H.
  destruct (unused (run_pool s)) as [| n rest] eqn:Hu.
  - rewrite (allocate_empty lk _ Hu) in H. injection H as <- <-.
    constructor; simpl; rewrite ?Hu; assumption.
  - destruct (enforce_thread_safety (run_pool s)) eqn:E.
    { destruct (Hts eq_refl) as [Hc _]. discriminate Hc. }
    rewrite (allocate_plain lk _ n rest Hu) in H by (rewrite E; reflexivity).
    injection H as <- <-.
    constructor; simpl.
    + rewrite Hlive. unfold pool_blocks. simpl. rewrite Hu, !blocks_cons. simpl.
      clear. set_solver.
    + rewrite Hmut. reflexivity.
    + exact Hcalls.
    + simpl in Hch. inversion Hch as [| ? ? Hn Hrest]; subst.
      rewrite !Forall_app in *. destruct Hrest as (Hr & Hp & Hh).
      repeat split; try assumption. constructor; assumption.
Qed.

Lemma life_inv_deallocate lk h0 (s : run_state) d p' :
  run_inv s ->
  life_inv h0 s ->
  In d (run_held s) ->
  rtsafe_memory_pool_deallocate lk (run_pool s) d = Done p' ->
  life_inv h0 (mkrun p' (run_heap s) (hand_back d (run_held s))).
Proof.
  intros [Hnd Hk Hts Hpl] [Hlive Hmut Hcalls Hch] Hin H.
  destruct (enforce_thread_safety (run_pool s)) eqn:E.
  { destruct (Hts eq_refl) as [_ Hc]. rewrite Hc in Hin. destruct Hin. }
  rewrite deallocate_plain in H by (rewrite E; reflexivity).
  injection H as <-.
  destruct (blocks_hand_back d _ Hin) as [Hb _].
  pose proof (hand_back_perm d _ Hin) as Hperm.
  constructor; simpl.
  - rewrite Hlive, Hb. unfold pool_blocks. simpl.
    rewrite blocks_app, blocks_cons, blocks_nil. simpl.
    clear. set_solver.
  - rewrite Hmut. reflexivity.
  - exact Hcalls.
  - rewrite Hperm in Hch. rewrite !Forall_app, Forall_cons in Hch.
    destruct Hch as (Hu & Hp & Hd & Hh).
    rewrite !Forall_app. repeat split; try assumption.
    constructor; [exact Hd | constructor].
Qed.

Lemma life_inv_create malloc_ok mutex_ok fuel size min max ts h0 p h' :
  heap_wf h0 ->
  rtsafe_memory_pool_create malloc_ok mutex_ok fuel size min max ts h0
    = Done (Some p, h') ->
  life_inv h0 (mkrun p h' []).
Proof.
  intros Hwf H.
  pose proof (run_inv_create _ _ _ _ _ _ _ _ _ _ H) as Hrun.
  unfold rtsafe_memory_pool_create in H.
  destruct (min <=? max); simpl in H; [| discriminate].
  unfold malloc in H. destruct (malloc_ok (calls h0)); [| discriminate].
  simpl in H.
  assert (Hstart : forall g,
    calls g = S (calls h0) ->
    live g = {[calls h0]} ∪ live h0 ->
    mutexes g = (if ts then {[calls h0]} else ∅) ∪ mutexes h0 ->
    life_inv h0 (mkrun (mkpool (calls h0) size min max 0 [] 0 ts 0 []) g [])).
  { intros g Hc Hl Hm. constructor; simpl.
    - rewrite Hl. unfold pool_blocks. simpl. rewrite !blocks_nil.
      clear. set_solver.
    - rewrite Hm. unfold pool_mutex. simpl. clear. destruct ts; set_solver.
    - lia.
    - constructor. }
  assert (Hinit : forall g,
    run_inv (mkrun (mkpool (calls h0) size min max 0 [] 0 ts 0 []) g [])).
  { intros g. constructor; simpl; auto using NoDup_nil_2. }
  destruct ts.
  - destruct (mutex_ok (calls h0)); [| discriminate].
    destruct (rtsafe_memory_pool_sleepy _ _ _ _) as [[p1 h2] | |] eqn:Hs;
      simpl in H; try discriminate.
    injection H as <- <-.
    refine (life_inv_sleepy _ _ _ (mkrun _ _ []) _ _ Hwf (Hinit _) (Hstart _ _ _ _) Hs);
      simpl; try reflexivity.
  - destruct (rtsafe_memory_pool_sleepy _ _ _ _) as [[p1 h2] | |] eqn:Hs;
      simpl in H; try discriminate.
    injection H as <- <-.
    refine (life_inv_sleepy _ _ _ (mkrun _ _ []) _ _ Hwf (Hinit _) (Hstart _ _ _ _) Hs);
      simpl; try reflexivity.
    clear. set_solver.
Qed.

Lemma reachable_from_life_inv malloc_ok mutex_ok h0 (s : run_state) :
  heap_wf h0 ->
  reachable_from malloc_ok mutex_ok h0 s -> life_inv h0 s.
Proof.
  intros Hwf Hr.
  induction Hr as [fuel size min max ts p h' Hc
                  | s lk r p' Hr IH Ha
                  | s lk d p' Hr IH Hin Hd
                  | s fuel p' h' Hr IH Hs].
  - exact (life_inv_create _ _ _ _ _ _ _ _ _ _ Hwf Hc).
  - apply reachable_from_reachable, reachable_run_inv in Hr.
    exact (life_inv_allocate _ _ _ _ _ Hr IH Ha).
  - apply reachable_from_reachable, reachable_run_inv in Hr.
    exact (life_inv_deallocate _ _ _ _ _ Hr IH Hin Hd).
  - apply reachable_from_reachable, reachable_run_inv in Hr.
    exact (life_inv_sleepy _ _ _ _ _ _ Hwf Hr IH Hs).
Qed.

Lemma reachable_count_inv malloc_ok mutex_ok (s : run_state) :
  reachable malloc_ok mutex_ok s -> count_inv s.
Proof.
  intros Hr.
  induction Hr as [fuel size min max ts h p h' Hc
                  | s lk r p' Hr [Hused Hun] Ha
                  | s lk d p' Hr [Hused Hun] Hin Hd
                  | s fuel p' h' Hr [Hused Hun] Hs].
  - unfold rtsafe_memory_pool_create in Hc.
    destruct (min <=? max); simpl in Hc; [| discriminate].
    destruct (malloc malloc_ok h) as [[pp |] h1]; [| discriminate].
    assert (Hgen : forall g p1 h2,
      rtsafe_memory_pool_sleepy malloc_ok fuel
        (mkpool (blk pp) size min max 0 [] 0 ts 0 []) g = Done (p1, h2) ->
      count_inv (mkrun p1 h2 [])).
    { intros g p1 h2 Hs. constructor; simpl.
      - apply sleepy_spec in Hs as (_ & _ & _ & _ & _ & _ & _ & _ & Hu & _).
        rewrite Hu. reflexivity.
      - eapply sleepy_tracks; [| exact Hs]. reflexivity. }
    destruct ts.
    + destruct (mutex_ok (blk pp)); [| discriminate].
      destruct (rtsafe_memory_pool_sleepy _ _ _ _) as [[p1 h2] | |] eqn:Hs;
        simpl in Hc; try discriminate.
      injection Hc as <- <-. exact (Hgen _ _ _ Hs).
    + destruct (rtsafe_memory_pool_sleepy _ _ _ _) as [[p1 h2] | |] eqn:Hs;
        simpl in Hc; try discriminate.
      injection Hc as <- <-. exact (Hgen _ _ _ Hs).
  - apply reachable_run_inv in Hr as [_ _ Hts _].
    destruct (unused (run_pool s)) as [| n rest] eqn:Hu.
    + rewrite (allocate_empty lk _ Hu) in Ha. injection Ha as <- <-.
      constructor; simpl; rewrite ?Hu; assumption.
    + destruct (enforce_thread_safety (run_pool s)) eqn:E.
      { destruct (Hts eq_refl) as [Hc _]. discriminate Hc. }
      rewrite (allocate_plain lk _ n rest Hu) in Ha by (rewrite E; reflexivity).
      injection Ha as <- <-. constructor; simpl.
      * rewrite Hused, wrap32_succ. f_equal. lia.
      * rewrite Hun, wrap32_pred. f_equal. simpl length. lia.
  - apply reachable_run_inv in Hr as [_ _ Hts _].
    destruct (enforce_thread_safety (run_pool s)) eqn:E.
    { destruct (Hts eq_refl) as [_ Hc]. rewrite Hc in Hin. destruct Hin. }
    rewrite deallocate_plain in Hd by (rewrite E; reflexivity).
    injection Hd as <-.
    destruct (blocks_hand_back d _ Hin) as [_ Hlen].
    constructor; simpl.
    + rewrite Hused, wrap32_pred. f_equal. lia.
    + rewrite Hun, wrap32_succ, length_app. f_equal. simpl. lia.
  - constructor; simpl.
    + apply sleepy_spec in Hs as (_ & _ & _ & _ & _ & _ & _ & _ & Hu & _).
      rewrite Hu. exact Hused.
    + exact (sleepy_tracks _ _ _ _ _ _ Hun Hs).
Qed.

(** X1.  In every state that a pool reaches, [used_count] is the number of chunks
    handed out and not given back, and [unused_count] the length of the
    unused list, both as 32-bit numbers. *)
Theorem counters_track_lists malloc_ok mutex_ok (s : run_state) :
  reachable malloc_ok mutex_ok s ->
  used_count (run_pool s) = wrap32 (Z.of_nat (length (run_held s))) /\
  unused_count (run_pool s) = wrap32 (Z.of_nat (length (unused (run_pool s)))).
Proof.
  intros Hr. apply reachable_count_inv in Hr as [Hused Hun].
  split; assumption.
Qed.

Lemma counters_track_lists_witness :
  reachable always always state_one_held /\
  used_count (run_pool state_one_held)
    = wrap32 (Z.of_nat (length (run_held state_one_held))) /\
  unused_count (run_pool state_one_held)
    = wrap32 (Z.of_nat (length (unused (run_pool state_one_held)))).
Proof.
  assert (Hr : reachable always always state_one_held).
  { apply (reach_allocate always always
             (mkrun pool_two_unused (mkheap 3 {[0%nat; 1%nat; 2%nat]} ∅) []) false
             (Some (node_data (mkptr 1 0)))).
    - apply (reach_create always always 3 924 2 2 false empty_heap).
      vm_compute. reflexivity.
    - vm_compute. reflexivity. }
  split; [exact Hr |].
  exact (counters_track_lists always always state_one_held Hr).
Defined.

(** X2.  The heap of a pool in use is accounted for: a block is live exactly if
    it was live before the pool was created, or is the struct of the pool,
    a chunk in one of its lists, or a chunk handed out.  No chunk is leaked
    and none is freed while the pool or the application refers to it. *)
Theorem pool_heap_accounted malloc_ok mutex_ok (h0 : heap) (s : run_state) :
  heap_wf h0 ->
  reachable_from malloc_ok mutex_ok h0 s ->
  live (run_heap s) = live h0 ∪ pool_blocks (run_pool s) ∪ blocks (run_held s) /\
  mutexes (run_heap s) = mutexes h0 ∪ pool_mutex (run_pool s).
Proof.
  intros Hwf Hr. apply reachable_from_life_inv in Hr as [Hl Hm _ _]; [| exact Hwf].
  split; assumption.
Qed.

Lemma state_one_held_reachable :
  reachable_from always always empty_heap state_one_held.
Proof.
  apply (from_allocate always always empty_heap
           (mkrun pool_two_unused (mkheap 3 {[0%nat; 1%nat; 2%nat]} ∅) []) false
           (Some (node_data (mkptr 1 0)))).
  - apply (from_create always always empty_heap 3 924 2 2 false).
    vm_compute. reflexivity.
  - vm_compute. reflexivity.
Qed.

Lemma state_given_back_reachable :
  reachable_from always always empty_heap state_given_back.
Proof.
  apply (from_deallocate always always empty_heap state_one_held false
           (node_data (mkptr 1 0))).
  - exact state_one_held_reachable.
  - left. reflexivity.
  - vm_compute. reflexivity.
Qed.

(** ** Allocate on a pool in use *)



(** C7.  When a pool in use has N chunks in its unused list (N within the
    32-bit counters) and its count of chunks in use is 0, N allocate calls
    in a row return the data regions of the N chunks, in the order of the
    list, the call after them returns NULL, and then the count of chunks in
    use is N and the count of unused chunks is 0, whatever the trylocks
    do.  This holds for every pool that construction, allocate, deallocate
    and maintenance produce. *)
Theorem allocate_until_exhausted malloc_ok mutex_ok (s : run_state)
    (locks : list bool) :
  reachable malloc_ok mutex_ok s ->
  used_count (run_pool s) = 0 ->
  Z.of_nat (length (unused (run_pool s))) < 2 ^ 32 ->
  length locks = S (length (unused (run_pool s))) ->
  fst (allocate_each locks (run_pool s))
    = map (fun n => Some (node_data n)) (unused (run_pool s)) ++ [None] /\
  used_count (snd (allocate_each locks (run_pool s)))
    = Z.of_nat (length (unused (run_pool s))) /\
  unused_count (snd (allocate_each locks (run_pool s))) = 0.
Proof.
  intros Hr Hused Hbound Hlen.
  pose proof (reachable_count_inv _ _ _ Hr) as [_ Hcount].
  rewrite wrap32_small in Hcount by lia.
  apply reachable_run_inv in Hr as [_ _ Hts Hplain].
  destruct (enforce_thread_safety (run_pool s)) eqn:Emode.
  - destruct (Hts eq_refl) as [Hu _]. rewrite Hu in *. simpl in Hlen.
    destruct locks as [| lk [| ? ?]]; try discriminate Hlen.
    simpl. rewrite (allocate_empty lk _ Hu). simpl.
    repeat split; assumption.
  - destruct (allocate_each_exhausts locks (run_pool s)) as (Hres & Hfu & Hfc & _);
      [left; exact Emode | exact Hcount | lia | lia | exact Hlen |].
    rewrite Hused in Hfu. simpl in Hfu. repeat split; assumption.
Qed.

Lemma allocate_until_exhausted_witness :
  fst (allocate_each [false; true; false] (run_pool state_given_back))
    = map (fun n => Some (node_data n)) (unused (run_pool state_given_back))
      ++ [None] /\
  used_count (snd (allocate_each [false; true; false] (run_pool state_given_back)))
    = Z.of_nat (length (unused (run_pool state_given_back))) /\
  unused_count (snd (allocate_each [false; true; false] (run_pool state_given_back)))
    = 0.
Proof.
  apply (allocate_until_exhausted always always state_given_back
           [false; true; false]).
  - exact (reachable_from_reachable _ _ _ _ state_given_back_reachable).
  - reflexivity.
  - simpl. lia.
  - reflexivity.
Defined.

Lemma pool_heap_accounted_witness :
  live (run_heap state_one_held)
    = live empty_heap ∪ pool_blocks (run_pool state_one_held)
      ∪ blocks (run_held state_one_held) /\
  mutexes (run_heap state_one_held)
    = mutexes empty_heap ∪ pool_mutex (run_pool state_one_held).
Proof.
  exact (pool_heap_accounted always always empty_heap state_one_held
           heap_wf_empty state_one_held_reachable).
Defined.

Lemma pool_blocks_young (h0 : heap) (s : run_state) :
  heap_wf h0 -> life_inv h0 s ->
  pool_blocks (run_pool s) ## live h0 /\ pool_mutex (run_pool s) ## mutexes h0.
Proof.
  intros Hwf [_ _ Hcalls Hch].
  rewrite !Forall_app in Hch. destruct Hch as (Hu & Hp & _).
  rewrite Forall_forall in Hu, Hp.
  assert (Hyoung : forall b, b ∈ pool_blocks (run_pool s) -> (calls h0 <= b)%nat).
  { intros b Hb. unfold pool_blocks in Hb.
    apply elem_of_union in Hb as [Hb | Hb].
    - apply elem_of_union in Hb as [Hb | Hb].
      + apply elem_of_singleton in Hb. lia.
      + apply elem_of_blocks in Hb as (n & Hn & <-). apply Hu in Hn. lia.
    - apply elem_of_blocks in Hb as (n & Hn & <-). apply Hp in Hn. lia. }
  split.
  - intros b Hb Hl. apply Hyoung in Hb.
    assert (b < calls h0)%nat by (apply Hwf; apply elem_of_union; left; exact Hl).
    lia.
  - intros b Hb Hl. apply (pool_mutex_blocks (run_pool s)) in Hb.
    apply Hyoung in Hb.
    assert (b < calls h0)%nat by (apply Hwf; apply elem_of_union; right; exact Hl).
    lia.
Qed.

Lemma difference_of_union (A B : gset nat) : B ## A -> (A ∪ B ∪ ∅) ∖ B = A.
Proof. set_solver. Qed.

Lemma difference_of_union2 (A B : gset nat) : B ## A -> (A ∪ B) ∖ B = A.
Proof. set_solver. Qed.

(** X3.  Once every chunk was given back, destroying the pool succeeds and leaves
    the heap as it was before the pool was created: the chunks of both
    lists, the struct and the mutex are released, whatever happened in
    between. *)
Theorem destroy_restores_heap malloc_ok mutex_ok (h0 : heap) (s : run_state) :
  heap_wf h0 ->
  reachable_from malloc_ok mutex_ok h0 s ->
  run_held s = [] ->
  Z.of_nat (length (unused (run_pool s))) < 2 ^ 32 ->
  exists h',
    rtsafe_memory_pool_destroy (run_pool s) (run_heap s) = Done h' /\
    live h' = live h0 /\ mutexes h' = mutexes h0.
Proof.
  intros Hwf Hr Hheld Hbound.
  pose proof (reachable_from_life_inv _ _ _ _ Hwf Hr) as Hlife.
  destruct (pool_blocks_young h0 s Hwf Hlife) as [Hdl Hdm].
  destruct Hlife as [Hl Hm _ _].
  apply reachable_from_reachable in Hr.
  pose proof (reachable_count_inv _ _ _ Hr) as [Hused Hun].
  pose proof (reachable_run_inv _ _ _ Hr) as [_ _ _ Hpl].
  assert (Hidle : idle_pool (run_pool s)).
  { repeat split.
    - rewrite Hused, Hheld. reflexivity.
    - rewrite Hun. apply wrap32_small. lia.
    - exact Hbound.
    - exact Hpl. }
  destruct (destroy_spec (run_pool s) (run_heap s) Hidle) as (h' & Hd & _ & Hl' & Hm').
  exists h'. split; [exact Hd |].
  rewrite Hl', Hm', Hl, Hm, Hheld, blocks_nil.
  split; [apply difference_of_union | apply difference_of_union2]; assumption.
Qed.

Lemma destroy_restores_heap_witness :
  exists h',
    rtsafe_memory_pool_destroy (run_pool state_given_back) (run_heap state_given_back)
      = Done h' /\
    live h' = live empty_heap /\ mutexes h' = mutexes empty_heap.
Proof.
  apply (destroy_restores_heap always always empty_heap state_given_back).
  - exact heap_wf_empty.
  - exact state_given_back_reachable.
  - reflexivity.
  - simpl. lia.
Defined.

(** X4.  While the application still holds a chunk, destroying the pool fails
    its first assertion. *)
Theorem destroy_in_use_aborts malloc_ok mutex_ok (s : run_state) (h : heap) :
  reachable malloc_ok mutex_ok s ->
  run_held s <> [] ->
  Z.of_nat (length (run_held s)) < 2 ^ 32 ->
  rtsafe_memory_pool_destroy (run_pool s) h = Abort.
Proof.
  intros Hr Hheld Hbound.
  apply reachable_count_inv in Hr as [Hused _].
  unfold rtsafe_memory_pool_destroy.
  rewrite Hused, wrap32_small by lia.
  destruct (run_held s) as [| d rest]; [congruence |].
  reflexivity.
Qed.

Lemma destroy_in_use_aborts_witness :
  rtsafe_memory_pool_destroy (run_pool state_one_held) (run_heap state_one_held)
    = Abort.
Proof.
  apply (destroy_in_use_aborts always always state_one_held
           (run_heap state_one_held)).
  - exact (reachable_from_reachable _ _ _ _ state_one_held_reachable).
  - discriminate.
  - simpl. lia.
Defined.

(** ** The steps under the mutex *)

Lemma trim_unused_spec (max : Z) :
  forall (un : list ptr) (pend : list ptr),
    Z.of_nat (length un) < 2 ^ 32 -> 0 <= max ->
    exists moved un',
      trim_unused max (Z.of_nat (length un)) un pend
        = Done (Z.of_nat (length un'), un', pend ++ moved) /\
      un = moved ++ un' /\
      Z.of_nat (length un') = Z.min (Z.of_nat (length un)) max.
Proof.
  induction un as [| n rest IH]; intros pend Hb Hmax.
  - exists [], []. cbn [trim_unused length].
    change (Z.of_nat 0) with 0.
    destruct (0 >? max) eqn:E; [apply Z.gtb_lt in E; lia |].
    rewrite app_nil_r. repeat split. lia.
  - cbn [trim_unused]. cbn [length] in *.
    destruct (Z.of_nat (S (length rest)) >? max) eqn:E.
    + replace (wrap32 (Z.of_nat (S (length rest)) - 1))
        with (Z.of_nat (length rest)) by (rewrite wrap32_small; lia).
      destruct (IH (list_add_tail n pend)) as (moved & un' & Ht & Hu & Hl);
        [lia | exact Hmax |].
      exists (n :: moved), un'. rewrite Ht. unfold list_add_tail.
      rewrite <- app_assoc. simpl.
      split; [reflexivity |]. split; [f_equal; exact Hu |].
      apply Z.gtb_lt in E. lia.
    + exists [], (n :: rest). rewrite app_nil_r. cbn [length].
      repeat split. rewrite Z.gtb_ltb in E. apply Z.ltb_ge in E. lia.
Qed.

(** X5.  Deallocate with the mutex acquired, on a thread-safe pool whose counter
    of unused chunks is exact: no assertion fails, the chunk is linked at
    the tail of the unused list, and the oldest unused chunks beyond the
    maximum are moved, in order, to the tail of the pending list.  No chunk
    is lost, at most [max_preallocated] chunks stay unused, and both
    counters of unused chunks are exact afterwards. *)
Theorem deallocate_trims_to_max (p : rtsafe_memory_pool) (d : ptr) :
  enforce_thread_safety p = true ->
  unused_count p = Z.of_nat (length (unused p)) ->
  Z.of_nat (length (unused p)) + 1 < 2 ^ 32 ->
  0 <= max_preallocated p ->
  exists p' moved,
    rtsafe_memory_pool_deallocate true p d = Done p' /\
    unused p ++ [data_node d] = moved ++ unused p' /\
    pending p' = pending p ++ moved /\
    unused_count p' = Z.of_nat (length (unused p')) /\
    unused_count p' = Z.min (Z.of_nat (length (unused p)) + 1) (max_preallocated p) /\
    unused_count2 p' = unused_count p' /\
    used_count p' = wrap32 (used_count p - 1).
Proof.
  intros Hts Hc Hb Hmax.
  unfold rtsafe_memory_pool_deallocate. simpl. rewrite Hts. simpl.
  rewrite Hc, (wrap32_small (Z.of_nat (length (unused p)) + 1)) by lia.
  assert (Hlen : Z.of_nat (length (unused p)) + 1
                 = Z.of_nat (length (list_add_tail (data_node d) (unused p)))).
  { unfold list_add_tail. rewrite length_app. simpl. lia. }
  rewrite Hlen.
  destruct (trim_unused_spec (max_preallocated p)
              (list_add_tail (data_node d) (unused p)) (pending p))
    as (moved & un' & Ht & Hu & Hl); [lia | exact Hmax |].
  rewrite Ht. simpl. eexists. exists moved.
  split; [reflexivity |]. simpl.
  repeat split; try reflexivity; try assumption.
Qed.

Lemma deallocate_trims_to_max_witness :
  exists p' moved,
    rtsafe_memory_pool_deallocate true pool_full (node_data (mkptr 3 0)) = Done p' /\
    unused pool_full ++ [data_node (node_data (mkptr 3 0))] = moved ++ unused p' /\
    pending p' = pending pool_full ++ moved /\
    unused_count p' = Z.of_nat (length (unused p')) /\
    unused_count p'
      = Z.min (Z.of_nat (length (unused pool_full)) + 1) (max_preallocated pool_full) /\
    unused_count2 p' = unused_count p' /\
    used_count p' = wrap32 (used_count pool_full - 1).
Proof.
  apply (deallocate_trims_to_max pool_full (node_data (mkptr 3 0))).
  - reflexivity.
  - reflexivity.
  - simpl. lia.
  - simpl. lia.
Defined.

Lemma last_default_irrelevant (l : list ptr) :
  forall x a b : ptr, List.last (x :: l) a = List.last (x :: l) b.
Proof.
  induction l as [| y l IH]; intros x a b; [reflexivity |].
  change (List.last (x :: y :: l) a) with (List.last (y :: l) a).
  change (List.last (x :: y :: l) b) with (List.last (y :: l) b).
  apply IH.
Qed.

Lemma last_cons_default (n a : ptr) (l : list ptr) :
  List.last l n = List.last (n :: l) a.
Proof.
  destruct l as [| x l]; [reflexivity |].
  change (List.last (n :: x :: l) a) with (List.last (x :: l) a).
  apply last_default_irrelevant.
Qed.

Lemma refill_unused_spec (min : Z) :
  forall (pend : list ptr) (node_ptr : ptr) (un : list ptr),
    Z.of_nat (length un) + Z.of_nat (length pend) < 2 ^ 32 ->
    exists moved pend',
      refill_unused min node_ptr (Z.of_nat (length un)) un pend
        = (List.last moved node_ptr, Z.of_nat (length (un ++ moved)), un ++ moved, pend') /\
      pend = moved ++ pend' /\
      (pend' = [] \/ min <= Z.of_nat (length (un ++ moved))) /\
      (moved = [] \/ Z.of_nat (length (un ++ moved)) <= min).
Proof.
  induction pend as [| n rest IH]; intros node_ptr un Hb.
  - exists [], []. simpl. rewrite app_nil_r. repeat split; left; reflexivity.
  - cbn [refill_unused]. cbn [length] in Hb.
    destruct (Z.of_nat (length un) <? min) eqn:E.
    + replace (wrap32 (Z.of_nat (length un) + 1))
        with (Z.of_nat (length (list_add_tail n un)))
        by (unfold list_add_tail; rewrite length_app, wrap32_small; simpl; lia).
      destruct (IH n (list_add_tail n un)) as (moved & pend' & Hr & Hp & Hfull & Hcap).
      { unfold list_add_tail. rewrite length_app. simpl. lia. }
      exists (n :: moved), pend'. rewrite Hr. unfold list_add_tail in *.
      rewrite <- !app_assoc in *. simpl in *.
      split; [| split; [| split]].
      * f_equal. f_equal. f_equal. apply last_cons_default.
      * rewrite Hp. reflexivity.
      * exact Hfull.
      * right. destruct Hcap as [-> | Hcap]; [| exact Hcap].
        rewrite length_app. simpl. lia.
    + exists [], (n :: rest). simpl. rewrite app_nil_r.
      repeat split; [right; lia | left; reflexivity].
Qed.

(** X6.  Allocate with the mutex acquired, on a thread-safe pool whose counter of
    unused chunks is exact: the head of the unused list is unlinked, then
    pending chunks are moved, in order, to the tail of the unused list until
    the minimum is reached or nothing is pending.  No chunk is lost, the
    refill never goes beyond the minimum, both counters of unused chunks are
    exact afterwards, and the pointer returned is the data region of the
    last chunk moved, or of the unlinked chunk when none was moved. *)
Theorem allocate_refills_to_min (p : rtsafe_memory_pool) (n : ptr) (rest : list ptr) :
  enforce_thread_safety p = true ->
  unused p = n :: rest ->
  unused_count p = Z.of_nat (length (unused p)) ->
  Z.of_nat (length (unused p)) + Z.of_nat (length (pending p)) < 2 ^ 32 ->
  exists p' moved,
    rtsafe_memory_pool_allocate true p = (Some (node_data (List.last moved n)), p') /\
    unused p' = rest ++ moved /\
    pending p = moved ++ pending p' /\
    unused_count p' = Z.of_nat (length (unused p')) /\
    unused_count2 p' = unused_count p' /\
    used_count p' = wrap32 (used_count p + 1) /\
    (pending p' = [] \/ min_preallocated p <= unused_count p') /\
    (moved = [] \/ unused_count p' <= min_preallocated p).
Proof.
  intros Hts Hu Hc Hb.
  unfold rtsafe_memory_pool_allocate. rewrite Hu. simpl. rewrite Hts. simpl.
  rewrite Hc, Hu in *. cbn [length] in *.
  replace (wrap32 (Z.of_nat (S (length rest)) - 1))
    with (Z.of_nat (length rest)) by (rewrite wrap32_small; lia).
  destruct (refill_unused_spec (min_preallocated p) (pending p) n rest)
    as (moved & pend' & Hr & Hp & Hfull & Hcap); [lia |].
  rewrite Hr. eexists. exists moved. split; [reflexivity |]. simpl.
  repeat split; try reflexivity; assumption.
Qed.

Lemma allocate_refills_to_min_witness :
  exists p' moved,
    rtsafe_memory_pool_allocate true pool_staged
      = (Some (node_data (List.last moved (mkptr 1 0))), p') /\
    unused p' = [] ++ moved /\
    pending pool_staged = moved ++ pending p' /\
    unused_count p' = Z.of_nat (length (unused p')) /\
    unused_count2 p' = unused_count p' /\
    used_count p' = wrap32 (used_count pool_staged + 1) /\
    (pending p' = [] \/ min_preallocated pool_staged <= unused_count p') /\
    (moved = [] \/ unused_count p' <= min_preallocated pool_staged).
Proof.
  apply (allocate_refills_to_min pool_staged (mkptr 1 0) []).
  - reflexivity.
  - reflexivity.
  - reflexivity.
  - simpl. lia.
Defined.

(** ** Maintenance of a pool that is not thread-safe *)

Lemma grow_unused_always fuel min :
  forall c un h,
    0 <= c -> min < 2 ^ 32 -> (Z.to_nat (min - c) < fuel)%nat ->
    exists new h',
      grow_unused always fuel min c un h = Done (true, Z.max c min, un ++ new, h') /\
      length new = Z.to_nat (min - c) /\
      calls h' = (calls h + Z.to_nat (min - c))%nat.
Proof.
  induction fuel as [| f IH]; intros c un h Hc Hmin Hf; [lia |].
  simpl. destruct (c <? min) eqn:E.
  - unfold malloc. simpl. rewrite (wrap32_small (c + 1)) by lia.
    destruct (IH (c + 1) (list_add_tail (mkptr (calls h) 0) un)
                 (mkheap (S (calls h)) ({[calls h]} ∪ live h) (mutexes h)))
      as (new & h' & Hg & Hl & Hk); [lia | lia | lia |].
    exists (mkptr (calls h) 0 :: new), h'. rewrite Hg.
    unfold list_add_tail. rewrite <- app_assoc. simpl in *.
    replace (Z.max (c + 1) min) with (Z.max c min) by lia.
    split; [reflexivity |]. lia.
  - exists [], h. rewrite app_nil_r.
    replace (Z.max c min) with c by lia.
    split; [reflexivity |].
    replace (Z.to_nat (min - c)) with 0%nat by lia. simpl. lia.
Qed.

Lemma shrink_unused_exact (max : Z) :
  forall un h,
    Z.of_nat (length un) < 2 ^ 32 -> 0 <= max ->
    exists gone un' h',
      shrink_unused max (Z.of_nat (length un)) un h
        = Done (Z.of_nat (length un'), un', h') /\
      un = gone ++ un' /\
      Z.of_nat (length un') = Z.min (Z.of_nat (length un)) max.
Proof.
  induction un as [| n rest IH]; intros h Hb Hmax.
  - exists [], [], h. cbn [shrink_unused length]. change (Z.of_nat 0) with 0.
    destruct (0 >? max) eqn:E; [apply Z.gtb_lt in E; lia |].
    repeat split. lia.
  - cbn [shrink_unused]. cbn [length] in *.
    destruct (Z.of_nat (S (length rest)) >? max) eqn:E.
    + replace (wrap32 (Z.of_nat (S (length rest)) - 1))
        with (Z.of_nat (length rest)) by (rewrite wrap32_small; lia).
      destruct (IH (free n h)) as (gone & un' & h' & Hs & Hu & Hl);
        [lia | exact Hmax |].
      exists (n :: gone), un', h'. rewrite Hs.
      split; [reflexivity |]. split; [simpl; f_equal; exact Hu |].
      apply Z.gtb_lt in E. lia.
    + exists [], (n :: rest), h. cbn [length].
      repeat split. rewrite Z.gtb_ltb in E. apply Z.ltb_ge in E. lia.
Qed.

(** X7.  With a system allocator that never fails, one maintenance pass brings a
    pool that is not thread-safe within its bounds: the unused list grows up
    to the minimum or shrinks down to the maximum, [unused_count] stays
    exact, and every further pass, with any system allocator, changes
    neither the pool nor the heap. *)
Theorem sleepy_plain_converges (fuel : nat) (p : rtsafe_memory_pool) (h : heap) :
  enforce_thread_safety p = false ->
  unused_count p = Z.of_nat (length (unused p)) ->
  Z.of_nat (length (unused p)) < 2 ^ 32 ->
  0 <= min_preallocated p <= max_preallocated p ->
  min_preallocated p < 2 ^ 32 ->
  (Z.to_nat (min_preallocated p - unused_count p) < fuel)%nat ->
  exists p' h',
    rtsafe_memory_pool_sleepy always fuel p h = Done (p', h') /\
    unused_count p' = Z.of_nat (length (unused p')) /\
    unused_count p'
      = Z.max (min_preallocated p) (Z.min (unused_count p) (max_preallocated p)) /\
    min_preallocated p <= unused_count p' <= max_preallocated p /\
    forall malloc_ok fuel',
      rtsafe_memory_pool_sleepy malloc_ok fuel' p' h' = Done (p', h').
Proof.
  intros Hts Hc Hb Hmm Hmin Hf.
  unfold rtsafe_memory_pool_sleepy at 1. rewrite Hts.
  destruct (grow_unused_always fuel (min_preallocated p) (unused_count p)
              (unused p) h) as (new & h1 & Hg & Hl & _);
    [lia | exact Hmin | exact Hf |].
  rewrite Hg.
  assert (Hlen : Z.max (unused_count p) (min_preallocated p)
                 = Z.of_nat (length (unused p ++ new))).
  { rewrite length_app, Hl, Hc. lia. }
  rewrite Hlen.
  destruct (shrink_unused_exact (max_preallocated p) (unused p ++ new) h1)
    as (gone & un' & h' & Hs & Hu & Hl');
    [rewrite <- Hlen; lia | lia |].
  rewrite Hs. simpl.
  eexists. eexists. split; [reflexivity |]. simpl.
  assert (Hval : Z.of_nat (length un')
                 = Z.max (min_preallocated p)
                     (Z.min (unused_count p) (max_preallocated p))).
  { rewrite Hl', <- Hlen. lia. }
  split; [reflexivity |]. split; [exact Hval |]. split; [lia |].
  intros malloc_ok fuel'. apply sleepy_plain_settled; simpl; [exact Hts | lia].
Qed.

Lemma sleepy_plain_converges_witness :
  exists p' h',
    rtsafe_memory_pool_sleepy always 3 pool_short empty_heap = Done (p', h') /\
    unused_count p' = Z.of_nat (length (unused p')) /\
    unused_count p'
      = Z.max (min_preallocated pool_short)
          (Z.min (unused_count pool_short) (max_preallocated pool_short)) /\
    min_preallocated pool_short <= unused_count p' <= max_preallocated pool_short /\
    forall malloc_ok fuel',
      rtsafe_memory_pool_sleepy malloc_ok fuel' p' h' = Done (p', h').
Proof.
  apply (sleepy_plain_converges 3 pool_short empty_heap).
  - reflexivity.
  - reflexivity.
  - simpl. lia.
  - simpl. lia.
  - simpl. lia.
  - simpl. lia.
Defined.

(** ** The number of size classes *)

Lemma shift_small (pc : Z) :
  0 <= pc <= 53 ->
  wrap64 (Z.shiftl DATA_MIN pc) = 1024 * 2 ^ pc /\ 1024 * 2 ^ pc <= 2 ^ 63.
Proof.
  intros H. unfold wrap64, DATA_MIN. rewrite Z.shiftl_mul_pow2 by lia.
  assert (H1 : 2 ^ pc <= 2 ^ 53) by (apply Z.pow_le_mono_r; lia).
  assert (H2 : 0 < 2 ^ pc) by (apply Z.pow_pos_nonneg; lia).
  split; [apply Z.mod_small |]; lia.
Qed.

Lemma shift_large (pc : Z) :
  54 <= pc -> wrap64 (Z.shiftl DATA_MIN pc) = 0.
Proof.
  intros H. unfold wrap64, DATA_MIN. rewrite Z.shiftl_mul_pow2 by lia.
  replace pc with (54 + (pc - 54)) by lia.
  rewrite Z.pow_add_r by lia.
  replace (1024 * (2 ^ 54 * 2 ^ (pc - 54))) with (2 ^ (pc - 54) * 2 ^ 64) by lia.
  apply Z.mod_mul. lia.
Qed.

Lemma count_pools_small (max_size : Z) :
  0 <= max_size -> max_size + DATA_SUB <= 2 ^ 63 ->
  forall fuel pc,
    1 <= pc <= 54 -> 65 <= pc + Z.of_nat fuel ->
    (forall k, 1 <= k < pc -> 1024 * 2 ^ k < max_size + DATA_SUB) ->
    exists r,
      count_pools fuel max_size pc = Done r /\
      pc <= r <= 53 /\
      max_size + DATA_SUB <= 1024 * 2 ^ r /\
      (forall k, 1 <= k < r -> 1024 * 2 ^ k < max_size + DATA_SUB).
Proof.
  intros Hpos Hmax.
  assert (Hw : wrap64 (max_size + DATA_SUB) = max_size + DATA_SUB).
  { unfold wrap64, DATA_SUB in *. apply Z.mod_small. lia. }
  induction fuel as [| f IH]; intros pc Hpc Hfuel Hbelow; [lia |].
  assert (Hpc53 : pc <= 53).
  { destruct (Z.le_gt_cases pc 53) as [H | H]; [exact H |].
    assert (pc = 54) by lia. subst pc.
    specialize (Hbelow 53 ltac:(lia)).
    pose proof (shift_small 53 ltac:(lia)) as [_ H53].
    assert (1024 * 2 ^ 53 = 2 ^ 63) by reflexivity. lia. }
  destruct (shift_small pc ltac:(lia)) as [Hs _].
  cbn [count_pools]. rewrite Hs, Hw.
  destruct (1024 * 2 ^ pc <? max_size + DATA_SUB) eqn:E.
  - apply Z.ltb_lt in E.
    destruct (pc + 1 >? 64) eqn:E2; [apply Z.gtb_lt in E2; lia |].
    destruct (IH (pc + 1)) as (r & Hr & Hrange & Hfit & Hmin); [lia | lia | |].
    { intros k Hk. destruct (Z.eq_dec k pc) as [-> | Hne]; [exact E |].
      apply Hbelow. lia. }
    exists r. split; [exact Hr |]. split; [lia |]. split; assumption.
  - apply Z.ltb_ge in E. exists pc. split; [reflexivity |].
    split; [lia |]. split; assumption.
Qed.

(** X8.  For a maximum request size up to 2^63 - 100 the counting loop of
    [rtsafe_memory_init] ends with the least count [pc], from 1 on, such
    that [DATA_MIN << pc] reaches [max_size + DATA_SUB]; the count is at
    most 53 and the shift does not overflow. *)
Theorem count_pools_least (max_size : Z) :
  0 <= max_size -> max_size + DATA_SUB <= 2 ^ 63 ->
  exists pc,
    count_pools 64 max_size 1 = Done pc /\
    1 <= pc <= 53 /\
    max_size + DATA_SUB <= DATA_MIN * 2 ^ pc /\
    (forall k, 1 <= k < pc -> DATA_MIN * 2 ^ k < max_size + DATA_SUB).
Proof.
  intros Hpos Hmax.
  destruct (count_pools_small max_size Hpos Hmax 64 1) as (r & Hr & Hrange & Hfit & Hmin);
    [lia | simpl; lia | intros k Hk; lia |].
  exists r. unfold DATA_MIN. repeat split; try assumption; lia.
Qed.

Lemma count_pools_least_witness :
  exists pc,
    count_pools 64 2048 1 = Done pc /\
    1 <= pc <= 53 /\
    2048 + DATA_SUB <= DATA_MIN * 2 ^ pc /\
    (forall k, 1 <= k < pc -> DATA_MIN * 2 ^ k < 2048 + DATA_SUB).
Proof.
  apply (count_pools_least 2048).
  - lia.
  - unfold DATA_SUB. lia.
Defined.

Lemma count_pools_huge (max_size : Z) :
  2 ^ 63 < wrap64 (max_size + DATA_SUB) ->
  forall fuel pc,
    1 <= pc <= 64 -> 65 <= pc + Z.of_nat fuel ->
    count_pools fuel max_size pc = Abort.
Proof.
  intros Hbig. induction fuel as [| f IH]; intros pc Hpc Hfuel; [lia |].
  cbn [count_pools].
  assert (Hs : wrap64 (Z.shiftl DATA_MIN pc) <= 2 ^ 63).
  { destruct (Z.le_gt_cases pc 53) as [H | H].
    - destruct (shift_small pc ltac:(lia)) as [-> Hle]. exact Hle.
    - rewrite shift_large by lia. lia. }
  destruct (wrap64 (Z.shiftl DATA_MIN pc) <? wrap64 (max_size + DATA_SUB)) eqn:E;
    [| apply Z.ltb_ge in E; lia].
  destruct (pc + 1 >? 64) eqn:E2; [reflexivity |].
  rewrite Z.gtb_ltb in E2. apply Z.ltb_ge in E2.
  apply IH; lia.
Qed.

(** X9.  When [max_size + DATA_SUB], as a [size_t], exceeds 2^63, no shift of
    [DATA_MIN] reaches it: once the struct is allocated, construction counts
    past 64 classes and stops at [assert(0)]. *)
Theorem init_huge_max_size_aborts
    malloc_ok mutex_ok fuel max_size prealloc_min prealloc_max ts (h : heap) :
  malloc_ok (calls h) = true ->
  2 ^ 63 < wrap64 (max_size + DATA_SUB) ->
  rtsafe_memory_init malloc_ok mutex_ok fuel max_size prealloc_min prealloc_max ts h
    = Abort.
Proof.
  intros Hm Hbig. unfold rtsafe_memory_init, malloc. rewrite Hm.
  rewrite (count_pools_huge max_size Hbig 64 1) by (simpl; lia).
  reflexivity.
Qed.

Lemma init_huge_max_size_aborts_witness :
  rtsafe_memory_init always always 2 (2 ^ 63) 1 2 false empty_heap = Abort.
Proof.
  apply (init_huge_max_size_aborts always always 2 (2 ^ 63) 1 2 false empty_heap).
  - reflexivity.
  - vm_compute. reflexivity.
Defined.

(** ** The table of the tiered allocator *)

Lemma sleepy_config malloc_ok fuel p h p' h' :
  rtsafe_memory_pool_sleepy malloc_ok fuel p h = Done (p', h') ->
  data_size p' = data_size p /\
  min_preallocated p' = min_preallocated p /\
  max_preallocated p' = max_preallocated p /\
  enforce_thread_safety p' = enforce_thread_safety p.
Proof.
  intros H. unfold rtsafe_memory_pool_sleepy in H.
  destruct (enforce_thread_safety p) eqn:E.
  - destruct (min_preallocated p <? max_preallocated p); simpl in H;
      [| discriminate].
    destruct (grow_pending _ _ _ _ _ _) as [[[c1 pd1] h1] | |];
      simpl in H; try discriminate.
    destruct (shrink_pending _ _ _ _) as [[c2 pd2] h2].
    injection H as <- <-. simpl. rewrite E. repeat split.
  - destruct (grow_unused _ _ _ _ _ _) as [[[[b c1] un1] h1] | |];
      simpl in H; try discriminate.
    destruct b.
    + destruct (shrink_unused _ _ _ _) as [[[c2 un2] h2] | |];
        simpl in H; try discriminate.
      injection H as <- <-. simpl. rewrite E. repeat split.
    + injection H as <- <-. simpl. rewrite E. repeat split.
Qed.

Lemma create_config malloc_ok mutex_ok fuel size min max ts h p h' :
  rtsafe_memory_pool_create malloc_ok mutex_ok fuel size min max ts h
    = Done (Some p, h') ->
  data_size p = size /\ min_preallocated p = min /\
  max_preallocated p = max /\ enforce_thread_safety p = ts.
Proof.
  intros H. unfold rtsafe_memory_pool_create in H.
  destruct (min <=? max); simpl in H; [| discriminate].
  destruct (malloc malloc_ok h) as [[pp |] h1]; [| discriminate].
  destruct ts.
  - destruct (mutex_ok (blk pp)); [| discriminate].
    destruct (rtsafe_memory_pool_sleepy _ _ _ _) as [[p1 h2] | |] eqn:Hs;
      simpl in H; try discriminate.
    injection H as <- <-. apply sleepy_config in Hs. exact Hs.
  - destruct (rtsafe_memory_pool_sleepy _ _ _ _) as [[p1 h2] | |] eqn:Hs;
      simpl in H; try discriminate.
    injection H as <- <-. apply sleepy_config in Hs. exact Hs.
Qed.

Lemma create_pools_table malloc_ok mutex_ok fuel pmin pmax ts :
  forall n size built h ps h',
    create_pools malloc_ok mutex_ok fuel n size built pmin pmax ts h
      = Done (Some ps, h') ->
    exists more,
      ps = built ++ more /\
      map pg_size more = class_sizes n size /\
      Forall (fun pg => data_size (pg_pool pg) = pg_size pg /\
                        min_preallocated (pg_pool pg) = pmin /\
                        max_preallocated (pg_pool pg) = pmax /\
                        enforce_thread_safety (pg_pool pg) = ts) more.
Proof.
  induction n as [| n IH]; intros size built h ps h' H.
  - simpl in H. injection H as <- <-. exists []. rewrite app_nil_r.
    repeat split. constructor.
  - cbn [create_pools] in H.
    destruct (rtsafe_memory_pool_create _ _ _ _ _ _ _ _) as [[[p |] h1] | |] eqn:Hc;
      simpl in H; try discriminate.
    + apply IH in H as (more & -> & Hsizes & Hcfg).
      exists (mkgeneric (wrap64 (size - DATA_SUB)) p :: more).
      rewrite <- app_assoc. simpl. split; [reflexivity |].
      split; [rewrite Hsizes; reflexivity |].
      constructor; [| exact Hcfg]. simpl.
      exact (create_config _ _ _ _ _ _ _ _ _ _ Hc).
    + destruct (destroy_pools (rev built) h1); simpl in H; discriminate.
Qed.

Lemma class_sizes_closed :
  forall (n k : nat),
    (k + n <= 54)%nat ->
    class_sizes n (wrap64 (DATA_MIN * 2 ^ Z.of_nat k))
      = map (fun i => DATA_MIN * 2 ^ Z.of_nat i - DATA_SUB) (seq k n).
Proof.
  induction n as [| n IH]; intros k Hk; [reflexivity |].
  cbn [class_sizes seq map].
  assert (Hsmall : wrap64 (DATA_MIN * 2 ^ Z.of_nat k) = DATA_MIN * 2 ^ Z.of_nat k
                   /\ 1024 <= DATA_MIN * 2 ^ Z.of_nat k <= 2 ^ 63).
  { destruct (shift_small (Z.of_nat k) ltac:(lia)) as [Hs Hle].
    unfold DATA_MIN in *. rewrite Z.shiftl_mul_pow2 in Hs by lia.
    split; [exact Hs |].
    assert (0 < 2 ^ Z.of_nat k) by (apply Z.pow_pos_nonneg; lia). lia. }
  destruct Hsmall as [-> Hrange]. f_equal.
  - unfold wrap64, DATA_SUB in *. apply Z.mod_small. lia.
  - rewrite Z.shiftl_mul_pow2 by lia.
    replace (DATA_MIN * 2 ^ Z.of_nat k * 2 ^ 1)
      with (DATA_MIN * 2 ^ Z.of_nat (S k)).
    + apply IH. lia.
    + rewrite Nat2Z.inj_succ, Z.pow_succ_r by lia. lia.
Qed.

Lemma init_table
    malloc_ok mutex_ok fuel max_size prealloc_min prealloc_max ts h m h' :
  0 <= max_size -> max_size + DATA_SUB <= 2 ^ 63 ->
  rtsafe_memory_init malloc_ok mutex_ok fuel max_size prealloc_min prealloc_max ts h
    = Done (Init_ok m, h') ->
  exists n : nat,
    (1 <= n <= 53)%nat /\
    pools_count m = Z.of_nat n /\
    map pg_size (pools m)
      = map (fun i => DATA_MIN * 2 ^ Z.of_nat i - DATA_SUB) (seq 0 n) /\
    max_size + DATA_SUB <= DATA_MIN * 2 ^ Z.of_nat n /\
    (forall k, 1 <= k < Z.of_nat n -> DATA_MIN * 2 ^ k < max_size + DATA_SUB) /\
    Forall (fun pg => data_size (pg_pool pg) = pg_size pg /\
                      min_preallocated (pg_pool pg) = prealloc_min /\
                      max_preallocated (pg_pool pg) = prealloc_max /\
                      enforce_thread_safety (pg_pool pg) = ts) (pools m).
Proof.
  intros Hpos Hmax H. unfold rtsafe_memory_init in H.
  destruct (malloc malloc_ok h) as [[mp |] h1]; [| discriminate].
  destruct (count_pools_small max_size Hpos Hmax 64 1)
    as (pc & Hpc & Hrange & Hfit & Hleast);
    [lia | simpl; lia | intros k Hk; lia |].
  change 1024 with DATA_MIN in Hfit, Hleast.
  rewrite Hpc in H. simpl in H.
  destruct (malloc malloc_ok h1) as [[pp |] h2]; [| discriminate].
  destruct (create_pools _ _ _ _ _ _ _ _ _ _) as [[[ps |] h3] | |] eqn:Hcp;
    simpl in H; try discriminate.
  injection H as <- <-.
  apply create_pools_table in Hcp as (more & -> & Hsizes & Hcfg).
  exists (Z.to_nat pc). simpl.
  rewrite Z2Nat.id by lia.
  split; [lia |]. split; [reflexivity |].
  split; [| split; [exact Hfit | split; [exact Hleast | exact Hcfg]]].
  rewrite Hsizes.
  replace DATA_MIN with (wrap64 (DATA_MIN * 2 ^ Z.of_nat 0)) at 1
    by reflexivity.
  apply class_sizes_closed. lia.
Qed.

(** X10.  For a maximum request size up to 2^63 - 100, a constructed allocator
    has [n] pools, [n] being the least count from 1 on with
    [max_size + DATA_SUB <= DATA_MIN * 2^n]; the pool of index [i] has
    chunks of [DATA_MIN * 2^i - DATA_SUB] bytes, and every pool has the
    preallocation bounds and the thread-safety flag of the call. *)
Theorem init_size_classes
    malloc_ok mutex_ok fuel max_size prealloc_min prealloc_max ts h m h' :
  0 <= max_size -> max_size + DATA_SUB <= 2 ^ 63 ->
  rtsafe_memory_init malloc_ok mutex_ok fuel max_size prealloc_min prealloc_max ts h
    = Done (Init_ok m, h') ->
  exists n : nat,
    (1 <= n <= 53)%nat /\
    pools_count m = Z.of_nat n /\
    map pg_size (pools m)
      = map (fun i => DATA_MIN * 2 ^ Z.of_nat i - DATA_SUB) (seq 0 n) /\
    max_size + DATA_SUB <= DATA_MIN * 2 ^ Z.of_nat n /\
    (forall k, 1 <= k < Z.of_nat n -> DATA_MIN * 2 ^ k < max_size + DATA_SUB) /\
    Forall (fun pg => data_size (pg_pool pg) = pg_size pg /\
                      min_preallocated (pg_pool pg) = prealloc_min /\
                      max_preallocated (pg_pool pg) = prealloc_max /\
                      enforce_thread_safety (pg_pool pg) = ts) (pools m).
Proof.
  intros Hpos Hmax H.
  exact (init_table _ _ _ _ _ _ _ _ _ _ Hpos Hmax H).
Qed.

Lemma init_size_classes_witness :
  exists m h',
    rtsafe_memory_init always always 2 2048 1 2 false empty_heap
      = Done (Init_ok m, h') /\
    exists n : nat,
      (1 <= n <= 53)%nat /\
      pools_count m = Z.of_nat n /\
      map pg_size (pools m)
        = map (fun i => DATA_MIN * 2 ^ Z.of_nat i - DATA_SUB) (seq 0 n) /\
      2048 + DATA_SUB <= DATA_MIN * 2 ^ Z.of_nat n /\
      (forall k, 1 <= k < Z.of_nat n -> DATA_MIN * 2 ^ k < 2048 + DATA_SUB) /\
      Forall (fun pg => data_size (pg_pool pg) = pg_size pg /\
                        min_preallocated (pg_pool pg) = 1 /\
                        max_preallocated (pg_pool pg) = 2 /\
                        enforce_thread_safety (pg_pool pg) = false) (pools m).
Proof.
  eexists. eexists. split; [vm_compute; reflexivity |].
  eapply (init_size_classes always always 2 2048 1 2 false empty_heap).
  - lia.
  - unfold DATA_SUB. lia.
  - vm_compute. reflexivity.
Defined.

(** ** Construction and destruction of the tiered allocator *)

Lemma create_pools_success malloc_ok mutex_ok fuel pmin pmax ts :
  0 <= pmin < 2 ^ 32 ->
  forall n size built h ps h',
    heap_wf h ->
    create_pools malloc_ok mutex_ok fuel n size built pmin pmax ts h
      = Done (Some ps, h') ->
    exists more,
      ps = built ++ more /\
      Forall (fun pg => idle_pool (pg_pool pg)) more /\
      live h' = live h ∪ all_blocks more /\
      mutexes h' = mutexes h ∪ all_mutexes more /\
      (forall b, b ∈ all_blocks more -> (calls h <= b)%nat) /\
      (calls h <= calls h')%nat.
Proof.
  intros Hmin. induction n as [| n IH]; intros size built h ps h' Hwf H.
  - simpl in H. injection H as <- <-. exists []. rewrite app_nil_r. simpl.
    repeat split; [constructor | set_solver | set_solver | set_solver | lia].
  - cbn [create_pools] in H.
    destruct (rtsafe_memory_pool_create _ _ _ _ _ _ _ _) as [[[p |] h1] | |] eqn:Hc;
      simpl in H; try discriminate.
    + pose proof (create_spec _ _ _ _ _ _ _ _ _ _ Hwf Hmin Hc)
        as (Hwf1 & Hle & Hidle & Hl & Hm & Hlow).
      apply IH in H as (more & -> & Hall & Hl' & Hm' & Hlow' & Hle'); [| exact Hwf1].
      exists (mkgeneric (wrap64 (size - DATA_SUB)) p :: more).
      rewrite <- app_assoc. simpl. split; [reflexivity |].
      split; [constructor; assumption |].
      split; [rewrite Hl', Hl; clear; set_solver |].
      split; [rewrite Hm', Hm; clear; set_solver |].
      split; [| lia].
      intros b Hb. apply elem_of_union in Hb as [Hb | Hb].
      * exact (Hlow b Hb).
      * apply Hlow' in Hb. lia.
    + destruct (destroy_pools (rev built) h1); simpl in H; discriminate.
Qed.

(** When the loop has created the pools of [i] classes and the creation of
    the next one fails, the loop ends through [fail_free_pools], however
    many classes were still to come, and the pools created are destroyed. *)
Lemma create_pools_fails_at malloc_ok mutex_ok fuel pmin pmax ts :
  0 <= pmin < 2 ^ 32 ->
  forall (i n : nat) size built h ps h3 h4,
    heap_wf h ->
    Forall (fun pg => idle_pool (pg_pool pg)) built ->
    create_pools malloc_ok mutex_ok fuel i size built pmin pmax ts h
      = Done (Some ps, h3) ->
    rtsafe_memory_pool_create malloc_ok mutex_ok fuel
      (wrap64 (loop_size i size - DATA_SUB)) pmin pmax ts h3 = Done (None, h4) ->
    exists h',
      create_pools malloc_ok mutex_ok fuel (i + S n) size built pmin pmax ts h
        = Done (None, h') /\
      live h' = live h ∖ all_blocks built /\
      mutexes h' = mutexes h ∖ all_mutexes built.
Proof.
  intros Hmin. induction i as [| i IH];
    intros n size built h ps h3 h4 Hwf Hidle Hcp Hc.
  - simpl in Hcp. injection Hcp as <- <-. simpl in Hc.
    pose proof (create_spec _ _ _ _ _ _ _ _ _ _ Hwf Hmin Hc) as (_ & _ & Hl & Hm).
    destruct (create_pools_failure malloc_ok mutex_ok fuel n size built
                pmin pmax ts h h4 Hidle Hc) as (h2 & Hf & _ & Hl2 & Hm2).
    exists h2. split; [exact Hf |]. rewrite Hl2, Hm2, Hl, Hm.
    split; reflexivity.
  - cbn [create_pools] in Hcp.
    destruct (rtsafe_memory_pool_create malloc_ok mutex_ok fuel
                (wrap64 (size - DATA_SUB)) pmin pmax ts h)
      as [[[p |] h1] | |] eqn:Hc1; simpl in Hcp; try discriminate.
    2:{ destruct (destroy_pools (rev built) h1); simpl in Hcp; discriminate. }
    pose proof (create_spec _ _ _ _ _ _ _ _ _ _ Hwf Hmin Hc1)
      as (Hwf1 & Hle & Hp & Hl & Hm & Hlow).
    destruct (IH n (wrap64 (Z.shiftl size 1))
                 (built ++ [mkgeneric (wrap64 (size - DATA_SUB)) p]) h1 ps h3 h4
                 Hwf1) as (h' & Hf & Hl' & Hm').
    { apply Forall_app. split; [exact Hidle |].
      constructor; [exact Hp | constructor]. }
    { exact Hcp. }
    { exact Hc. }
    exists h'. cbn [Nat.add create_pools]. rewrite Hc1. simpl.
    split; [exact Hf |].
    rewrite all_blocks_app in Hl'. rewrite all_mutexes_app in Hm'.
    simpl in Hl', Hm'.
    assert (Hfresh : forall b, b ∈ pool_blocks p -> b ∉ live h ∪ mutexes h).
    { intros b Hb Hin. apply Hlow in Hb. apply Hwf in Hin. lia. }
    pose proof (pool_mutex_blocks p) as Hsub.
    rewrite Hl', Hm', Hl, Hm.
    clear IH Hcp Hc Hc1 Hf Hl' Hm' Hl Hm Hlow Hwf Hwf1 Hp Hidle Hmin Hle.
    split; set_solver.
Qed.

(** C10.  When, during the construction of the tiered allocator, the pools
    of [i] classes have been created and the creation of the pool of the
    next class fails, [rtsafe_memory_init] reports failure and returns no
    handle, and the heap is as it was before the call: the pools created
    before, with their chunks and mutexes, are destroyed, and the table and
    the allocator struct are freed.  [i] is any index below the number of
    classes, [created] the table entries written so far. *)
Theorem init_failure_releases_everything
    malloc_ok mutex_ok fuel max_size prealloc_min prealloc_max ts (h : heap)
    (memory_ptr pools_ptr : ptr) (h1 h2 h3 h4 : heap) (pools_count : Z) (i : nat)
    (created : list rtsafe_memory_pool_generic) :
  heap_wf h ->
  0 <= prealloc_min < 2 ^ 32 ->
  malloc malloc_ok h = (Some memory_ptr, h1) ->
  count_pools 64 max_size 1 = Done pools_count ->
  malloc malloc_ok h1 = (Some pools_ptr, h2) ->
  (i < Z.to_nat pools_count)%nat ->
  create_pools malloc_ok mutex_ok fuel i DATA_MIN [] prealloc_min prealloc_max ts h2
    = Done (Some created, h3) ->
  rtsafe_memory_pool_create malloc_ok mutex_ok fuel
    (wrap64 (loop_size i DATA_MIN - DATA_SUB)) prealloc_min prealloc_max ts h3
    = Done (None, h4) ->
  exists e h',
    rtsafe_memory_init malloc_ok mutex_ok fuel max_size
                       prealloc_min prealloc_max ts h = Done (e, h') /\
    init_returns e = false /\
    init_handle e = None /\
    live h' = live h /\ mutexes h' = mutexes h /\
    (all_blocks created ## live h') /\
    (blk memory_ptr ∉ live h') /\ (blk pools_ptr ∉ live h').
Proof.
  intros Hwf Hmin Hm1 Hcount Hm2 Hi Hcp Hc.
  assert (Hwf2 : heap_wf (mkheap (S (S (calls h)))
                            ({[S (calls h)]} ∪ ({[calls h]} ∪ live h))
                            (mutexes h))).
  { clear -Hwf. intros b Hb. simpl in *.
    destruct (decide (b = S (calls h))) as [-> | Hn1]; [lia |].
    destruct (decide (b = calls h)) as [-> | Hn2]; [lia |].
    assert (b < calls h)%nat by (apply Hwf; set_solver). lia. }
  assert (Hold : forall b, b ∈ live h -> (b < calls h)%nat).
  { clear -Hwf. intros b Hb. apply Hwf. set_solver. }
  assert (Hc1 : calls h ∉ live h).
  { clear -Hold. intros Hin. apply Hold in Hin. lia. }
  assert (Hc2 : S (calls h) ∉ live h).
  { clear -Hold. intros Hin. apply Hold in Hin. lia. }
  unfold malloc in Hm1. destruct (malloc_ok (calls h)) eqn:Ek1; [| discriminate].
  injection Hm1 as <- <-.
  unfold malloc in Hm2. simpl in Hm2.
  destruct (malloc_ok (S (calls h))) eqn:Ek2; [| discriminate].
  injection Hm2 as <- <-.
  set (h2 := mkheap (S (S (calls h))) ({[S (calls h)]} ∪ ({[calls h]} ∪ live h))
                    (mutexes h)) in *.
  destruct (create_pools_fails_at malloc_ok mutex_ok fuel prealloc_min prealloc_max
              ts Hmin i (Z.to_nat pools_count - S i) DATA_MIN [] h2 created h3 h4
              Hwf2 (Forall_nil_2 _) Hcp Hc) as (h' & Hf & Hl & Hm).
  replace (i + S (Z.to_nat pools_count - S i))%nat with (Z.to_nat pools_count)
    in Hf by lia.
  destruct (create_pools_success malloc_ok mutex_ok fuel prealloc_min prealloc_max
              ts Hmin i DATA_MIN [] h2 created h3 Hwf2 Hcp)
    as (more & Hmore & _ & _ & _ & Hyoung & _).
  simpl in Hmore. subst more.
  exists Init_fail_free_pools.
  exists (free (mkptr (calls h) 0) (free (mkptr (S (calls h)) 0) h')).
  unfold rtsafe_memory_init, malloc. rewrite Ek1, Hcount. simpl. rewrite Ek2.
  fold h2. rewrite Hf. simpl.
  split; [reflexivity |]. split; [reflexivity |]. split; [reflexivity |].
  rewrite Hl, Hm. simpl.
  assert (Hlive : ({[S (calls h)]} ∪ ({[calls h]} ∪ live h)) ∖ ∅
                    ∖ {[S (calls h)]} ∖ {[calls h]} = live h).
  { clear -Hc1 Hc2. set_solver. }
  rewrite Hlive.
  split; [reflexivity |]. split; [clear; set_solver |].
  split; [| split; assumption].
  intros b Hb Hin. apply Hyoung in Hb. apply Hold in Hin. simpl in Hb. lia.
Qed.

Lemma init_failure_releases_everything_witness :
  exists e h',
    rtsafe_memory_init (first_calls 4) always 2 2048 1 2 false empty_heap
      = Done (e, h') /\
    init_returns e = false /\
    init_handle e = None /\
    live h' = live empty_heap /\ mutexes h' = mutexes empty_heap /\
    (all_blocks [mkgeneric 924 (mkpool 2 924 1 2 0 [mkptr 3 0] 1 false 0 [])]
       ## live h') /\
    (blk (mkptr 0 0) ∉ live h') /\ (blk (mkptr 1 0) ∉ live h').
Proof.
  apply (init_failure_releases_everything (first_calls 4) always 2 2048 1 2 false
           empty_heap (mkptr 0 0) (mkptr 1 0)
           (mkheap 1 {[0%nat]} ∅) (mkheap 2 {[1%nat; 0%nat]} ∅)
           (mkheap 4 {[3%nat; 2%nat; 1%nat; 0%nat]} ∅)
           (mkheap 5 {[3%nat; 2%nat; 1%nat; 0%nat]} ∅)
           2 1 [mkgeneric 924 (mkpool 2 924 1 2 0 [mkptr 3 0] 1 false 0 [])]).
  - exact heap_wf_empty.
  - lia.
  - vm_compute. reflexivity.
  - vm_compute. reflexivity.
  - vm_compute. reflexivity.
  - simpl. lia.
  - vm_compute. reflexivity.
  - vm_compute. reflexivity.
Defined.

Lemma all_mutexes_blocks (ps : list rtsafe_memory_pool_generic) :
  all_mutexes ps ⊆ all_blocks ps.
Proof.
  induction ps as [| pg rest IH]; simpl; [set_solver |].
  pose proof (pool_mutex_blocks (pg_pool pg)). set_solver.
Qed.

Lemma restore_two (X B : gset nat) (a b : nat) :
  a ∉ X -> b ∉ X -> B ## {[b]} ∪ ({[a]} ∪ X) ->
  ((({[b]} ∪ ({[a]} ∪ X) ∪ B) ∖ B) ∖ {[b]}) ∖ {[a]} = X.
Proof. set_solver. Qed.

Lemma restore_mutexes (X B M : gset nat) :
  M ⊆ B -> B ## X -> (X ∪ M) ∖ M = X.
Proof. set_solver. Qed.

(** X11.  An allocator that was constructed can be torn down at once: uninit
    succeeds and leaves the heap as it was before init; every chunk, pool
    struct and mutex, the table and the allocator struct are released. *)
Theorem init_then_uninit
    malloc_ok mutex_ok fuel max_size prealloc_min prealloc_max ts h m h' :
  heap_wf h ->
  0 <= prealloc_min < 2 ^ 32 ->
  rtsafe_memory_init malloc_ok mutex_ok fuel max_size prealloc_min prealloc_max ts h
    = Done (Init_ok m, h') ->
  exists h'',
    rtsafe_memory_uninit m h' = Done h'' /\
    live h'' = live h /\ mutexes h'' = mutexes h.
Proof.
  intros Hwf Hmin H. unfold rtsafe_memory_init, malloc in H.
  destruct (malloc_ok (calls h)); [| discriminate].
  destruct (count_pools 64 max_size 1) as [pc | |]; simpl in H; try discriminate.
  destruct (malloc_ok (S (calls h))); [| discriminate].
  set (h2 := mkheap (S (S (calls h))) ({[S (calls h)]} ∪ ({[calls h]} ∪ live h))
                    (mutexes h)) in H.
  assert (Hfresh : (calls h ∉ live h) /\ (S (calls h) ∉ live h)).
  { split; intros Hin;
      [assert (calls h < calls h)%nat | assert (S (calls h) < calls h)%nat];
      try lia; apply Hwf; apply elem_of_union; left; exact Hin. }
  assert (Hwf2 : heap_wf h2).
  { intros b Hb. unfold h2 in *. simpl in *.
    destruct (decide (b = S (calls h))) as [-> | Hn1]; [lia |].
    destruct (decide (b = calls h)) as [-> | Hn2]; [lia |].
    assert (b < calls h)%nat; [| lia].
    apply Hwf. clear - Hb Hn1 Hn2. set_solver. }
  destruct (create_pools _ _ _ _ _ _ _ _ _ _) as [[[ps |] h3] | |] eqn:Hcp;
    simpl in H; try discriminate.
  injection H as <- <-.
  apply create_pools_success in Hcp
    as (more & -> & Hidle & Hl & Hm & Hlow & _); [| exact Hmin | exact Hwf2].
  simpl in *.
  destruct (destroy_pools_spec more h3 Hidle) as (h4 & Hd & _ & Hl4 & Hm4).
  unfold rtsafe_memory_uninit. simpl. rewrite Hd. simpl.
  eexists. split; [reflexivity |]. simpl.
  assert (Hdis : all_blocks more ## {[S (calls h)]} ∪ ({[calls h]} ∪ live h)).
  { intros b Hb Hin. apply Hlow in Hb. unfold h2 in Hb. simpl in Hb.
    assert (b < S (S (calls h)))%nat; [| lia].
    apply (Hwf2 b). unfold h2. simpl. apply elem_of_union. left. exact Hin. }
  assert (Hdism : all_blocks more ## mutexes h).
  { intros b Hb Hin. apply Hlow in Hb. unfold h2 in Hb. simpl in Hb.
    assert (b < calls h)%nat; [| lia].
    apply Hwf. apply elem_of_union. right. exact Hin. }
  rewrite Hl4, Hm4, Hl, Hm. unfold h2. simpl. destruct Hfresh as [Hf1 Hf2].
  split.
  - apply restore_two; assumption.
  - apply (restore_mutexes _ (all_blocks more));
      [apply all_mutexes_blocks | exact Hdism].
Qed.

Lemma init_then_uninit_witness :
  exists m h' h'',
    rtsafe_memory_init always always 2 2048 1 2 true empty_heap
      = Done (Init_ok m, h') /\
    rtsafe_memory_uninit m h' = Done h'' /\
    live h'' = live empty_heap /\ mutexes h'' = mutexes empty_heap.
Proof.
  assert (Hinit : exists m h',
    rtsafe_memory_init always always 2 2048 1 2 true empty_heap
      = Done (Init_ok m, h')).
  { eexists. eexists. vm_compute. reflexivity. }
  destruct Hinit as (m & h' & Hinit).
  destruct (init_then_uninit always always 2 2048 1 2 true empty_heap m h')
    as (h'' & Hu & Hl & Hm).
  - intros b Hb. simpl in Hb. set_solver.
  - lia.
  - exact Hinit.
  - exists m, h', h''. repeat split; assumption.
Defined.

(** ** Requests to the tiered allocator *)

Lemma scan_first_fit (lk : bool) (adj : Z)
    (before after : list rtsafe_memory_pool_generic)
    (pg : rtsafe_memory_pool_generic) :
  Forall (fun q => pg_size q < adj) before ->
  adj <= pg_size pg ->
  allocate_scan lk adj (before ++ pg :: after)
    = match rtsafe_memory_pool_allocate lk (pg_pool pg) with
      | (None, p') =>
          (None,
           [Debug_using_chunk (wrap32 (pg_size pg)); Debug_pool_allocate_failed],
           before ++ mkgeneric (pg_size pg) p' :: after)
      | (Some data_ptr, p') =>
          (Some (mkptr (blk data_ptr) (ofs data_ptr + sizeof_pool_handle)),
           [Debug_using_chunk (wrap32 (pg_size pg));
            Store_handle data_ptr (pool_blk p')],
           before ++ mkgeneric (pg_size pg) p' :: after)
      end.
Proof.
  intros Hbefore Hfit. induction before as [| q before IH]; simpl.
  - destruct (adj <=? pg_size pg) eqn:E; [| apply Z.leb_gt in E; lia].
    destruct (rtsafe_memory_pool_allocate lk (pg_pool pg)) as [[d |] p'];
      reflexivity.
  - inversion Hbefore as [| ? ? Hq Hrest]; subst.
    destruct (adj <=? pg_size q) eqn:E; [apply Z.leb_le in E; lia |].
    rewrite (IH Hrest).
    destruct (rtsafe_memory_pool_allocate lk (pg_pool pg)) as [[d |] p'];
      reflexivity.
Qed.

(** X12.  A request is served by the first pool of the table whose chunks are
    large enough for the request and its header: the pools before it and
    after it are not touched.  If that pool has no unused chunk the request
    fails, and larger classes are not tried.  The debug line names the
    class size as an [unsigned int], that is modulo 2^32. *)
Theorem allocate_first_fit (lk : bool) (m : rtsafe_memory) (size : Z)
    (before after : list rtsafe_memory_pool_generic)
    (pg : rtsafe_memory_pool_generic) :
  pools m = before ++ pg :: after ->
  Forall (fun q => pg_size q < wrap64 (size + sizeof_pool_handle)) before ->
  wrap64 (size + sizeof_pool_handle) <= pg_size pg ->
  rtsafe_memory_allocate lk m size
    = match rtsafe_memory_pool_allocate lk (pg_pool pg) with
      | (None, p') =>
          (None,
           [Debug_using_chunk (wrap32 (pg_size pg)); Debug_pool_allocate_failed],
           mkmemory (memory_blk m) (pools_blk m)
                    (before ++ mkgeneric (pg_size pg) p' :: after) (pools_count m))
      | (Some data_ptr, p') =>
          (Some (mkptr (blk data_ptr) (ofs data_ptr + sizeof_pool_handle)),
           [Debug_using_chunk (wrap32 (pg_size pg));
            Store_handle data_ptr (pool_blk p')],
           mkmemory (memory_blk m) (pools_blk m)
                    (before ++ mkgeneric (pg_size pg) p' :: after) (pools_count m))
      end.
Proof.
  intros Hp Hbefore Hfit. unfold rtsafe_memory_allocate. rewrite Hp.
  rewrite (scan_first_fit lk _ before after pg Hbefore Hfit).
  destruct (rtsafe_memory_pool_allocate lk (pg_pool pg)) as [[d |] p'];
    reflexivity.
Qed.

Lemma allocate_first_fit_witness :
  rtsafe_memory_allocate false memory_two_classes 1000
    = match rtsafe_memory_pool_allocate false (mkpool 4 1948 1 2 0 [mkptr 5 0] 1 false 0 []) with
      | (None, p') =>
          (None,
           [Debug_using_chunk 1948; Debug_pool_allocate_failed],
           mkmemory 0 1
                    ([mkgeneric 924 (mkpool 2 924 1 2 0 [mkptr 3 0] 1 false 0 [])]
                       ++ mkgeneric 1948 p' :: []) 2)
      | (Some data_ptr, p') =>
          (Some (mkptr (blk data_ptr) (ofs data_ptr + sizeof_pool_handle)),
           [Debug_using_chunk 1948; Store_handle data_ptr (pool_blk p')],
           mkmemory 0 1
                    ([mkgeneric 924 (mkpool 2 924 1 2 0 [mkptr 3 0] 1 false 0 [])]
                       ++ mkgeneric 1948 p' :: []) 2)
      end.
Proof.
  apply (allocate_first_fit false memory_two_classes 1000
           [mkgeneric 924 (mkpool 2 924 1 2 0 [mkptr 3 0] 1 false 0 [])] []
           (mkgeneric 1948 (mkpool 4 1948 1 2 0 [mkptr 5 0] 1 false 0 []))).
  - reflexivity.
  - constructor; [vm_compute; reflexivity | constructor].
  - vm_compute. intros H. discriminate H.
Defined.



Lemma scan_fits (lk : bool) (adj : Z) :
  forall ps,
    Exists (fun s => adj <= s) (map pg_size ps) ->
    ~ In Warning_too_big (snd (fst (allocate_scan lk adj ps))).
Proof.
  induction ps as [| q rest IH]; intros Hex; [inversion Hex |].
  simpl. destruct (adj <=? pg_size q) eqn:E.
  - destruct (rtsafe_memory_pool_allocate lk (pg_pool q)) as [[d |] p'];
      simpl; intros [H | [H | []]]; discriminate H.
  - apply Z.leb_gt in E. simpl in Hex.
    inversion Hex as [? ? Hq | ? ? Hrest]; subst; [lia |].
    specialize (IH Hrest).
    destruct (allocate_scan lk adj rest) as [[r ev] rest']. exact IH.
Qed.

(** X14.  What construction guarantees about sizes: in an allocator built for
    [max_size] (up to 2^63 - 100), a request of up to 916 bytes, or of a
    size whose double plus 116 does not exceed [max_size], finds a class:
    it is never rejected as too big. *)
Theorem allocate_within_half_fits
    malloc_ok mutex_ok fuel max_size prealloc_min prealloc_max ts h m h'
    (lk : bool) (size : Z) :
  0 <= max_size -> max_size + DATA_SUB <= 2 ^ 63 ->
  rtsafe_memory_init malloc_ok mutex_ok fuel max_size prealloc_min prealloc_max ts h
    = Done (Init_ok m, h') ->
  0 <= size ->
  size <= 916 \/ 2 * size + 116 <= max_size ->
  ~ In Warning_too_big (snd (fst (rtsafe_memory_allocate lk m size))).
Proof.
  intros Hpos Hmax Hinit Hsize Hfit.
  destruct (init_table _ _ _ _ _ _ _ _ _ _ Hpos Hmax Hinit)
    as (n & Hn & _ & Hsizes & Hreach & _ & _).
  unfold DATA_MIN, DATA_SUB, sizeof_pool_handle in *.
  assert (Hadj : wrap64 (size + 8) = size + 8).
  { unfold wrap64. apply Z.mod_small. lia. }
  assert (Hex : Exists (fun s => size + 8 <= s) (map pg_size (pools m))).
  { rewrite Hsizes. apply Exists_exists.
    destruct Hfit as [Hsmall | Hhalf].
    - exists (1024 * 2 ^ Z.of_nat 0 - 100). split; [| simpl; lia].
      apply list_elem_of_In, in_map_iff. exists 0%nat. split; [reflexivity |].
      apply in_seq. lia.
    - exists (1024 * 2 ^ Z.of_nat (n - 1) - 100). split.
      + apply list_elem_of_In, in_map_iff. exists (n - 1)%nat.
        split; [reflexivity |]. apply in_seq. lia.
      + replace (Z.of_nat n) with (Z.succ (Z.of_nat (n - 1))) in Hreach by lia.
        rewrite Z.pow_succ_r in Hreach by lia. lia. }
  unfold rtsafe_memory_allocate, sizeof_pool_handle. rewrite Hadj.
  pose proof (scan_fits lk (size + 8) (pools m) Hex) as Hno.
  destruct (allocate_scan lk (size + 8) (pools m)) as [[r ev] ps]. exact Hno.
Qed.

Lemma allocate_within_half_fits_witness :
  exists m h',
    rtsafe_memory_init always always 2 2048 1 2 false empty_heap
      = Done (Init_ok m, h') /\
    ~ In Warning_too_big (snd (fst (rtsafe_memory_allocate false m 966))).
Proof.
  eexists. eexists. split; [vm_compute; reflexivity |].
  eapply (allocate_within_half_fits always always 2 2048 1 2 false empty_heap).
  - lia.
  - unfold DATA_SUB. lia.
  - vm_compute. reflexivity.
  - lia.
  - right. lia.
Defined.


(** X15.  The header is added to the request as a [size_t], without a check: a
    request of 2^64 - 8 bytes or more wraps around to less than 8 bytes and
    is served with a chunk of the first class, the other classes being left
    as they are. *)
Theorem allocate_size_wraps (lk : bool) (m : rtsafe_memory) (size : Z)
    (pg : rtsafe_memory_pool_generic) (rest : list rtsafe_memory_pool_generic) :
  pools m = pg :: rest ->
  7 <= pg_size pg ->
  unused (pg_pool pg) <> [] ->
  2 ^ 64 - 8 <= size < 2 ^ 64 ->
  exists d ev m' p',
    rtsafe_memory_allocate lk m size = (Some d, ev, m') /\
    In (Debug_using_chunk (wrap32 (pg_size pg))) ev /\
    blk d ∈ blocks (unused (pg_pool pg) ++ pending (pg_pool pg)) /\
    pools m' = mkgeneric (pg_size pg) p' :: rest.
Proof.
  intros Hp Hsz Hun Hsize.
  assert (Hadj : wrap64 (size + sizeof_pool_handle) = size + 8 - 2 ^ 64).
  { unfold wrap64, sizeof_pool_handle. symmetry.
    apply (Z.mod_unique _ _ 1); [left; lia | lia]. }
  unfold rtsafe_memory_allocate. rewrite Hp.
  rewrite (scan_first_fit lk _ [] rest pg);
    [| constructor | rewrite Hadj; lia].
  unfold rtsafe_memory_pool_allocate.
  destruct (unused (pg_pool pg)) as [| n more]; [congruence |].
  simpl.
  destruct (enforce_thread_safety (pg_pool pg) && lk).
  - pose proof (refill_unused_node (min_preallocated (pg_pool pg))
                  (pending (pg_pool pg)) n
                  (wrap32 (unused_count (pg_pool pg) - 1)) more) as Hnode.
    destruct (refill_unused _ _ _ _ _) as [[[n' uc] un] pd].
    do 4 eexists. split; [reflexivity |]. split; [left; reflexivity |].
    split; [| reflexivity]. simpl.
    apply elem_of_blocks.
    destruct Hnode as [(-> & _ & _) | [Hin _]].
    + exists n. split; [| reflexivity]. apply list_elem_of_In. left. reflexivity.
    + exists n'. split; [| reflexivity]. apply list_elem_of_In.
      right. apply in_or_app. right. exact Hin.
  - do 4 eexists. split; [reflexivity |]. split; [left; reflexivity |].
    split; [| reflexivity]. simpl.
    apply elem_of_blocks. exists n. split; [| reflexivity].
    apply list_elem_of_In. left. reflexivity.
Qed.

Lemma allocate_size_wraps_witness :
  exists d ev m' p',
    rtsafe_memory_allocate false memory_two_classes (2 ^ 64 - 1) = (Some d, ev, m') /\
    In (Debug_using_chunk (wrap32 924)) ev /\
    blk d ∈ blocks ([mkptr 3 0] ++ []) /\
    pools m' = mkgeneric 924 p'
               :: [mkgeneric 1948 (mkpool 4 1948 1 2 0 [mkptr 5 0] 1 false 0 [])].
Proof.
  apply (allocate_size_wraps false memory_two_classes (2 ^ 64 - 1)
           (mkgeneric 924 (mkpool 2 924 1 2 0 [mkptr 3 0] 1 false 0 []))
           [mkgeneric 1948 (mkpool 4 1948 1 2 0 [mkptr 5 0] 1 false 0 [])]).
  - reflexivity.
  - simpl. lia.
  - discriminate.
  - lia.
Defined.

(** ** Giving a block back to the tiered allocator *)

Lemma data_node_data (n : ptr) : data_node (node_data n) = n.
Proof. destruct n as [b o]. unfold node_data, data_node. simpl. f_equal. lia. Qed.

Lemma rotate_back (p : rtsafe_memory_pool) (n : ptr) (more : list ptr) :
  0 <= used_count p < 2 ^ 32 ->
  0 <= unused_count p < 2 ^ 32 ->
  let p1 := set_used_count (wrap32 (used_count p + 1))
              (set_unused more (wrap32 (unused_count p - 1)) p) in
  set_used_count (wrap32 (used_count p1 - 1))
    (set_unused (unused p1 ++ [n]) (wrap32 (unused_count p1 + 1)) p1)
  = set_unused (more ++ [n]) (unused_count p) p.
Proof.
  intros Hu Hc. destruct p as [b ds mn mx us un uc ts uc2 pd].
  unfold set_used_count, set_unused. simpl in *.
  rewrite wrap32_pred, wrap32_succ.
  replace (us + 1 - 1) with us by lia.
  replace (uc - 1 + 1) with uc by lia.
  rewrite !wrap32_small by lia. reflexivity.
Qed.


Lemma scan_then_deallocate (lk1 lk2 : bool) (adj : Z) :
  forall ps d ev ps1,
    NoDup (map (fun pg => pool_blk (pg_pool pg)) ps) ->
    Forall (fun pg =>
              enforce_thread_safety (pg_pool pg) && (lk1 || lk2) = false /\
              0 <= used_count (pg_pool pg) < 2 ^ 32 /\
              0 <= unused_count (pg_pool pg) < 2 ^ 32) ps ->
    allocate_scan lk1 adj ps = (Some d, ev, ps1) ->
    exists before pg after n rest,
      ps = before ++ pg :: after /\
      Forall (fun q => pg_size q < adj) before /\
      adj <= pg_size pg /\
      unused (pg_pool pg) = n :: rest /\
      d = mkptr (blk n) (ofs n + sizeof_list_head + sizeof_pool_handle) /\
      store_handles ev [] = [(node_data n, pool_blk (pg_pool pg))] /\
      deallocate_in lk2 (pool_blk (pg_pool pg)) (node_data n) ps1
        = Some (Done (before
                      ++ mkgeneric (pg_size pg)
                           (set_unused (rest ++ [n]) (unused_count (pg_pool pg))
                                       (pg_pool pg))
                      :: after)).
Proof.
  induction ps as [| pg rest IH]; intros d ev ps1 Hnd Hok H; [discriminate |].
  inversion Hok as [| ? ? (Hno & Hused & Hcount) Hokrest]; subst.
  simpl in Hnd. apply NoDup_cons in Hnd as [Hnotin Hndrest].
  simpl in H. destruct (adj <=? pg_size pg) eqn:Efit.
  - destruct (unused (pg_pool pg)) as [| n more] eqn:Hu.
    { rewrite (allocate_empty lk1 _ Hu) in H. discriminate. }
    assert (H1 : enforce_thread_safety (pg_pool pg) && lk1 = false)
      by (destruct (enforce_thread_safety (pg_pool pg)), lk1; simpl in *; congruence).
    assert (H2 : enforce_thread_safety (pg_pool pg) && lk2 = false)
      by (destruct (enforce_thread_safety (pg_pool pg)), lk1, lk2; simpl in *; congruence).
    rewrite (allocate_plain lk1 _ n more Hu H1) in H.
    injection H as <- <- <-.
    exists [], pg, rest, n, more.
    split; [reflexivity |]. split; [constructor |].
    split; [apply Z.leb_le; exact Efit |].
    split; [exact Hu |].
    split; [simpl; f_equal; lia |]. split; [reflexivity |]. simpl.
    destruct (decide (pool_blk (pg_pool pg) = pool_blk (pg_pool pg))) as [_ | Hne];
      [| congruence].
    rewrite deallocate_plain by exact H2. simpl.
    do 4 f_equal.
    rewrite data_node_data. apply rotate_back; assumption.
  - destruct (allocate_scan lk1 adj rest) as [[r ev'] rest'] eqn:Hscan.
    injection H as -> <- <-.
    destruct (IH d ev' rest' Hndrest Hokrest eq_refl)
      as (before & pg0 & after & n & more & -> & Hbefore & Hfit & Hu & Hd & Hst & Hde).
    exists (pg :: before), pg0, after, n, more.
    split; [reflexivity |].
    split; [constructor; [apply Z.leb_gt; exact Efit | exact Hbefore] |].
    split; [exact Hfit |]. split; [exact Hu |]. split; [exact Hd |].
    split; [exact Hst |]. simpl.
    destruct (decide (pool_blk (pg_pool pg) = pool_blk (pg_pool pg0))) as [Heq | Hne].
    { exfalso. apply Hnotin. rewrite Heq. apply list_elem_of_In.
      rewrite map_app. apply in_or_app. right. left. reflexivity. }
    rewrite Hde. reflexivity.
Qed.

(** X16.  A block that [rtsafe_memory_allocate] returned finds its way back.
    The block is the first unused chunk [n] of the first class that fits,
    behind its list node and its handle.  With the handle that the
    allocation stored in front of it, [rtsafe_memory_deallocate] gives the
    chunk to the pool it came from and to no other.  When the steps under
    the mutex do not run, the allocator is afterwards as before the
    allocation, except that [n] is at the tail of the unused list of its
    pool instead of at the head. *)
Theorem allocate_then_deallocate (lk1 lk2 : bool) (m : rtsafe_memory) (size : Z)
    (d : ptr) (ev : list event) (m1 : rtsafe_memory) :
  NoDup (map (fun pg => pool_blk (pg_pool pg)) (pools m)) ->
  Forall (fun pg =>
            enforce_thread_safety (pg_pool pg) && (lk1 || lk2) = false /\
            0 <= used_count (pg_pool pg) < 2 ^ 32 /\
            0 <= unused_count (pg_pool pg) < 2 ^ 32) (pools m) ->
  rtsafe_memory_allocate lk1 m size = (Some d, ev, m1) ->
  exists before pg after n rest,
    pools m = before ++ pg :: after /\
    Forall (fun q => pg_size q < wrap64 (size + sizeof_pool_handle)) before /\
    wrap64 (size + sizeof_pool_handle) <= pg_size pg /\
    unused (pg_pool pg) = n :: rest /\
    d = mkptr (blk n) (ofs n + sizeof_list_head + sizeof_pool_handle) /\
    rtsafe_memory_deallocate lk2 (store_handles ev []) m1 d
      = Some (Done (mkmemory (memory_blk m) (pools_blk m)
                      (before
                       ++ mkgeneric (pg_size pg)
                            (set_unused (rest ++ [n]) (unused_count (pg_pool pg))
                                        (pg_pool pg))
                       :: after)
                      (pools_count m))).
Proof.
  intros Hnd Hok H. unfold rtsafe_memory_allocate in H.
  destruct (allocate_scan lk1 _ (pools m)) as [[r ev'] ps1] eqn:Hscan.
  injection H as -> <- <-.
  destruct (scan_then_deallocate lk1 lk2 _ _ _ _ _ Hnd Hok Hscan)
    as (before & pg & after & n & rest & Hp & Hbefore & Hfit & Hu & -> & Hst & Hde).
  exists before, pg, after, n, rest.
  split; [exact Hp |]. split; [exact Hbefore |]. split; [exact Hfit |].
  split; [exact Hu |]. split; [reflexivity |].
  unfold rtsafe_memory_deallocate. simpl.
  replace (mkptr (blk n) (ofs n + sizeof_list_head + sizeof_pool_handle
                          - sizeof_pool_handle))
    with (node_data n) by (unfold node_data; f_equal; lia).
  rewrite Hst. simpl.
  destruct (decide (node_data n = node_data n)) as [_ | Hne]; [| congruence].
  rewrite Hde. reflexivity.
Qed.

Lemma allocate_then_deallocate_witness :
  exists d ev m1 before pg after n rest,
    rtsafe_memory_allocate false memory_two_chunks 1000 = (Some d, ev, m1) /\
    pools memory_two_chunks = before ++ pg :: after /\
    Forall (fun q => pg_size q < wrap64 (1000 + sizeof_pool_handle)) before /\
    wrap64 (1000 + sizeof_pool_handle) <= pg_size pg /\
    unused (pg_pool pg) = n :: rest /\
    d = mkptr (blk n) (ofs n + sizeof_list_head + sizeof_pool_handle) /\
    rtsafe_memory_deallocate false (store_handles ev []) m1 d
      = Some (Done (mkmemory (memory_blk memory_two_chunks)
                      (pools_blk memory_two_chunks)
                      (before
                       ++ mkgeneric (pg_size pg)
                            (set_unused (rest ++ [n]) (unused_count (pg_pool pg))
                                        (pg_pool pg))
                       :: after)
                      (pools_count memory_two_chunks))).
Proof.
  assert (Ha : rtsafe_memory_allocate false memory_two_chunks 1000
               = (Some (mkptr 6 24),
                  [Debug_using_chunk 1948; Store_handle (mkptr 6 16) 5],
                  mkmemory 0 1
                    [mkgeneric 924
                       (mkpool 2 924 2 2 0 [mkptr 3 0; mkptr 4 0] 2 false 0 []);
                     mkgeneric 1948
                       (mkpool 5 1948 2 2 1 [mkptr 7 0] 1 false 0 [])] 2))
    by (vm_compute; reflexivity).
  destruct (allocate_then_deallocate false false memory_two_chunks 1000
              (mkptr 6 24)
              [Debug_using_chunk 1948; Store_handle (mkptr 6 16) 5]
              (mkmemory 0 1
                 [mkgeneric 924
                    (mkpool 2 924 2 2 0 [mkptr 3 0; mkptr 4 0] 2 false 0 []);
                  mkgeneric 1948
                    (mkpool 5 1948 2 2 1 [mkptr 7 0] 1 false 0 [])] 2))
    as (before & pg & after & n & rest & Hrest).
  - simpl. repeat constructor; simpl; set_solver.
  - repeat constructor; simpl; lia.
  - exact Ha.
  - exists (mkptr 6 24), [Debug_using_chunk 1948; Store_handle (mkptr 6 16) 5].
    eexists. exists before, pg, after, n, rest.
    split; [exact Ha | exact Hrest].
Defined.

(** A run of the routine on [memory_two_chunks]: the chunk of block 6 is
    handed out and, given back, ends behind the chunk of block 7. *)
Lemma given_back_chunk_goes_to_tail :
  rtsafe_memory_init always always 3 2048 2 2 false empty_heap
    = Done (Init_ok memory_two_chunks,
            mkheap 8 (list_to_set (seq 0 8)) ∅) /\
  rtsafe_memory_deallocate false [(mkptr 6 16, 5%nat)]
    (snd (rtsafe_memory_allocate false memory_two_chunks 1000)) (mkptr 6 24)
  = Some (Done (mkmemory 0 1
                  [mkgeneric 924
                     (mkpool 2 924 2 2 0 [mkptr 3 0; mkptr 4 0] 2 false 0 []);
                   mkgeneric 1948
                     (mkpool 5 1948 2 2 0 [mkptr 7 0; mkptr 6 0] 2 false 0 [])] 2)).
Proof. split; vm_compute; reflexivity. Qed.

(** ** Maintenance of the tiered allocator *)

Lemma sleepy_pools_settled malloc_ok fuel :
  forall ps h,
    Forall (fun pg =>
              enforce_thread_safety (pg_pool pg) = false /\
              min_preallocated (pg_pool pg) <= unused_count (pg_pool pg)
                <= max_preallocated (pg_pool pg)) ps ->
    sleepy_pools malloc_ok fuel ps h = Done (ps, h).
Proof.
  induction ps as [| pg rest IH]; intros h Hall; [reflexivity |].
  inversion Hall as [| ? ? [Hts Hb] Hrest]; subst.
  simpl. rewrite (sleepy_plain_settled malloc_ok fuel _ h Hts Hb). simpl.
  rewrite (IH h Hrest). simpl. destruct pg; reflexivity.
Qed.

(** X17.  Maintenance of an allocator made of pools that are not thread-safe and
    within their bounds calls neither malloc nor free and leaves every pool
    as it is. *)
Theorem memory_sleepy_settled malloc_ok fuel (m : rtsafe_memory) (h : heap) :
  Forall (fun pg =>
            enforce_thread_safety (pg_pool pg) = false /\
            min_preallocated (pg_pool pg) <= unused_count (pg_pool pg)
              <= max_preallocated (pg_pool pg)) (pools m) ->
  rtsafe_memory_sleepy malloc_ok fuel m h = Done (m, h).
Proof.
  intros Hall. unfold rtsafe_memory_sleepy.
  rewrite (sleepy_pools_settled malloc_ok fuel _ h Hall). simpl.
  destruct m; reflexivity.
Qed.

Lemma memory_sleepy_settled_witness :
  rtsafe_memory_sleepy always 2 memory_two_classes empty_heap
    = Done (memory_two_classes, empty_heap).
Proof.
  apply (memory_sleepy_settled always 2 memory_two_classes empty_heap).
  repeat constructor; simpl; lia.
Defined.

(** ** Thread-safe pools in use *)

(** X18.  A thread-safe pool never hands out a chunk.  In every state that
    it reaches, its unused list is empty and the application holds nothing,
    so that allocate returns NULL, whatever the trylock does, and leaves
    the pool as it is: maintenance fills the pending list only, and allocate
    gives up on an empty unused list before it looks at the pending
    list. *)
Theorem thread_safe_pool_never_allocates malloc_ok mutex_ok (s : run_state) :
  reachable malloc_ok mutex_ok s ->
  enforce_thread_safety (run_pool s) = true ->
  unused (run_pool s) = [] /\ run_held s = [] /\
  forall lk, rtsafe_memory_pool_allocate lk (run_pool s) = (None, run_pool s).
Proof.
  intros Hr Hts. apply reachable_run_inv in Hr as [_ _ Hinv _].
  destruct (Hinv Hts) as [Hu Hh].
  split; [exact Hu |]. split; [exact Hh |].
  intros lk. apply allocate_empty. exact Hu.
Qed.

Lemma thread_safe_pool_never_allocates_witness :
  reachable always always state_thread_safe /\
  unused (run_pool state_thread_safe) = [] /\ run_held state_thread_safe = [] /\
  forall lk, rtsafe_memory_pool_allocate lk (run_pool state_thread_safe)
             = (None, run_pool state_thread_safe).
Proof.
  assert (Hr : reachable always always state_thread_safe).
  { apply (reach_sleepy always always
             (mkrun (mkpool 0 924 1 2 0 [] 0 true 0 [mkptr 1 0])
                    (mkheap 2 {[0%nat; 1%nat]} {[0%nat]}) []) 2).
    - apply (reach_create always always 2 924 1 2 true empty_heap).
      vm_compute. reflexivity.
    - vm_compute. reflexivity. }
  split; [exact Hr |].
  apply (thread_safe_pool_never_allocates always always state_thread_safe Hr).
  reflexivity.
Defined.

Lemma create_thread_safe_unused malloc_ok mutex_ok fuel size min max h p h' :
  rtsafe_memory_pool_create malloc_ok mutex_ok fuel size min max true h
    = Done (Some p, h') ->
  unused p = [].
Proof.
  intros H.
  destruct (reachable_run_inv malloc_ok mutex_ok (mkrun p h' [])
              (reach_create _ _ _ _ _ _ _ _ _ _ H)) as [_ _ Hts _].
  apply create_config in H as (_ & _ & _ & Hflag).
  exact (proj1 (Hts Hflag)).
Qed.

Lemma create_pools_thread_safe_unused malloc_ok mutex_ok fuel pmin pmax :
  forall n size built h ps h',
    Forall (fun pg => unused (pg_pool pg) = []) built ->
    create_pools malloc_ok mutex_ok fuel n size built pmin pmax true h
      = Done (Some ps, h') ->
    Forall (fun pg => unused (pg_pool pg) = []) ps.
Proof.
  induction n as [| n IH]; intros size built h ps h' Hb H.
  - simpl in H. injection H as <- <-. exact Hb.
  - cbn [create_pools] in H.
    destruct (rtsafe_memory_pool_create _ _ _ _ _ _ _ _) as [[[p |] h1] | |] eqn:Hc;
      simpl in H; try discriminate.
    + apply IH in H; [exact H |].
      apply Forall_app. split; [exact Hb |].
      constructor; [| constructor]. simpl.
      exact (create_thread_safe_unused _ _ _ _ _ _ _ _ _ Hc).
    + destruct (destroy_pools (rev built) h1); simpl in H; discriminate.
Qed.

Lemma scan_all_empty (lk : bool) (adj : Z) :
  forall ps,
    Forall (fun pg => unused (pg_pool pg) = []) ps ->
    exists ev, allocate_scan lk adj ps = (None, ev, ps).
Proof.
  induction ps as [| pg rest IH]; intros Hall.
  - eexists. reflexivity.
  - inversion Hall as [| ? ? Hpg Hrest]; subst. simpl.
    destruct (adj <=? pg_size pg).
    + rewrite (allocate_empty lk _ Hpg). eexists. destruct pg; reflexivity.
    + destruct (IH Hrest) as (ev & ->). eexists. reflexivity.
Qed.

(** X19.  A tiered allocator constructed with thread safety enforced serves
    no request: every pool comes out of construction with an empty unused
    list, so that [rtsafe_memory_allocate] returns NULL for every size and
    either trylock outcome, and leaves the allocator as it is. *)
Theorem thread_safe_allocator_serves_nothing
    malloc_ok mutex_ok fuel max_size prealloc_min prealloc_max h m h'
    (lk : bool) (size : Z) :
  rtsafe_memory_init malloc_ok mutex_ok fuel max_size prealloc_min prealloc_max
                     true h = Done (Init_ok m, h') ->
  exists ev, rtsafe_memory_allocate lk m size = (None, ev, m).
Proof.
  intros H. unfold rtsafe_memory_init in H.
  destruct (malloc malloc_ok h) as [[mp |] h1]; [| discriminate].
  destruct (count_pools 64 max_size 1) as [pc | |]; simpl in H; try discriminate.
  destruct (malloc malloc_ok h1) as [[pp |] h2]; [| discriminate].
  destruct (create_pools _ _ _ _ _ _ _ _ _ _) as [[[ps |] h3] | |] eqn:Hcp;
    simpl in H; try discriminate.
  injection H as <- <-.
  apply create_pools_thread_safe_unused in Hcp; [| constructor].
  unfold rtsafe_memory_allocate. simpl.
  destruct (scan_all_empty lk (wrap64 (size + sizeof_pool_handle)) ps Hcp)
    as (ev & ->).
  exists ev. reflexivity.
Qed.

Lemma thread_safe_allocator_serves_nothing_witness :
  exists m h' ev,
    rtsafe_memory_init always always 2 2048 1 2 true empty_heap
      = Done (Init_ok m, h') /\
    rtsafe_memory_allocate true m 100 = (None, ev, m).
Proof.
  assert (Hinit : exists m h',
    rtsafe_memory_init always always 2 2048 1 2 true empty_heap
      = Done (Init_ok m, h')).
  { eexists. eexists. vm_compute. reflexivity. }
  destruct Hinit as (m & h' & Hinit).
  destruct (thread_safe_allocator_serves_nothing always always 2 2048 1 2
              empty_heap m h' true 100 Hinit) as (ev & Ha).
  exists m, h', ev. split; assumption.
Defined.
